(** * Fuzzy partitioning and fuzzy rule inference (flore / teacher)

    A shallow embedding of
      - [flore/fuzzy/_base.py]   : [get_fuzzy_points], [get_fuzzy_points_entropy],
        [fuzzy_partitioning], [get_delta_point], [weighted_fuzzy_entropy],
        [fuzzy_entropy], [get_fuzzy_triangle], [get_fuzzy_set_dataframe];
      - [teacher/tree/rule.py]   : [Rule.matching], [Rule.weighted_vote],
        [Rule.map_rule_variables];
      - [teacher/tree/_voting.py]: [_aggregated_vote], [_maximum_matching].

    Conventions of the embedding.
      - Python and numpy floats are read as exact real numbers ([R]); rounding
        is not modelled.  The theorems therefore state outcomes, selection
        rules and the formulas that the code evaluates, not identities that
        hold only before rounding.  The one place where the size of a double
        decides the outcome is modelled: [math.pow] raises [OverflowError]
        when the power is too large for a double.  Places where numpy would
        produce [inf] or [nan] (a division by zero) end the computation with
        [Raise NotFinite]; the initial [best_wef = inf] of the discretizer is
        an [option] whose [None] stands for +infinity.
      - [Binary64] holds [trimf] and [get_fuzzy_triangle] once more over
        IEEE 754 binary64 numbers, to run them on concrete inputs where
        rounding shows.
      - numpy arrays, lists and tuples are [list]s.
      - Python exceptions are the [Raise] outcomes of the [result] monad.
      - Python dictionaries keep their keys in insertion order: they are
        association lists without repeated keys, built with [Dict.set]. *)

From Stdlib Require Import Floats.
From Stdlib Require Import Reals Lra Lia List String Bool Arith Sorted Permutation.
From Stdlib Require OrderedTypeEx.
Import ListNotations.

Local Open Scope string_scope.
Local Open Scope list_scope.
Local Open Scope R_scope.

(** ** Exceptions *)

Inductive exn : Type :=
| ValueError (msg : string)
| KeyError
| IndexError
| AssertionError
| ZeroDivisionError
| RecursionError
| OverflowError
| NotFinite.

Inductive result (A : Type) : Type :=
| Ok (a : A)
| Raise (e : exn).

Arguments Ok {A} a.
Arguments Raise {A} e.

Definition bind {A B : Type} (m : result A) (k : A -> result B) : result B :=
  match m with
  | Ok a => k a
  | Raise e => Raise e
  end.

Notation "x <- m ;; k" := (bind m (fun x => k))
  (at level 61, m at next level, right associativity).

(** ** Insertion-ordered dictionaries with string keys *)

Module Dict.

Section Dict.
Context {V : Type}.

Definition t : Type := list (string * V).

Definition empty : t := [].

Fixpoint get (d : t) (k : string) : option V :=
  match d with
  | [] => None
  | (k', v) :: d' => if String.eqb k' k then Some v else get d' k
  end.

(** [d[k] = v]: an existing key keeps its position, a new key goes last. *)
Fixpoint set (d : t) (k : string) (v : V) : t :=
  match d with
  | [] => [(k, v)]
  | (k', v') :: d' =>
      if String.eqb k' k then (k', v) :: d' else (k', v') :: set d' k v
  end.

(** [d.update(entries)]: the assignments [d[k] = v] in order. *)
Definition update (d : t) (entries : list (string * V)) : t :=
  fold_left (fun d kv => set d (fst kv) (snd kv)) entries d.

Definition keys (d : t) : list string := map fst d.

Definition values (d : t) : list V := map snd d.

(** [d[k]], raising [KeyError] on a missing key. *)
Definition item (d : t) (k : string) : result V :=
  match get d k with
  | Some v => Ok v
  | None => Raise KeyError
  end.

Definition mem (d : t) (k : string) : bool :=
  match get d k with
  | Some _ => true
  | None => false
  end.
End Dict.

Arguments t : clear implicits.

End Dict.

(** ** Sums and small helpers on arrays *)

Definition Rsum (l : list R) : R := fold_left Rplus l 0.

(** [Rltb], [Reqb]: the comparisons of the code, as booleans. *)
Definition Rltb (x y : R) : bool := if Rlt_dec x y then true else false.
Definition Rleb (x y : R) : bool := if Rle_dec x y then true else false.
Definition Reqb (x y : R) : bool := if Req_dec_T x y then true else false.

(** ** scikit-fuzzy's [trimf]

    [skfuzzy.membership.trimf(x, abc)] is the library function called by
    [get_fuzzy_triangle]:
<<
    a, b, c = np.r_[abc]
    assert a <= b and b <= c
    y = np.zeros(len(x))
    if a != b:
        idx = np.nonzero(np.logical_and(a < x, x < b))[0]
        y[idx] = (x[idx] - a) / float(b - a)
    if b != c:
        idx = np.nonzero(np.logical_and(b < x, x < c))[0]
        y[idx] = (c - x[idx]) / float(c - b)
    idx = np.nonzero(x == b)
    y[idx] = 1
>>
    [trimf_at] is the value written at one position of [y]. *)

Definition trimf_at (a b c x : R) : R :=
  let y := 0 in
  let y := if negb (Reqb a b) && (Rltb a x && Rltb x b)
           then (x - a) / (b - a) else y in
  let y := if negb (Reqb b c) && (Rltb b x && Rltb x c)
           then (c - x) / (c - b) else y in
  if Reqb x b then 1 else y.

Definition trimf (x : list R) (abc : list R) : result (list R) :=
  match abc with
  | [a; b; c] =>
      if Rleb a b && Rleb b c
      then Ok (map (trimf_at a b c) x)
      else Raise AssertionError
  | _ => Raise AssertionError
  end.

(** ** [get_fuzzy_triangle] *)

Definition division : Type := (string * R)%type.

(** [divisions[i]], raising [IndexError] out of range. *)
Definition index {A : Type} (l : list A) (i : nat) : result A :=
  match nth_error l i with
  | Some a => Ok a
  | None => Raise IndexError
  end.

(** The loop [for i in range(len(divisions) - 2)], run from index [i] for
    [n] more iterations. *)
Fixpoint interior_triangles (variable : list R) (divisions : list division)
    (i n : nat) (fuzz_dict : Dict.t (list R)) : result (Dict.t (list R)) :=
  match n with
  | O => Ok fuzz_dict
  | S n' =>
      d0 <- index divisions i ;;
      d1 <- index divisions (i + 1) ;;
      d2 <- index divisions (i + 2) ;;
      y <- trimf variable [snd d0; snd d1; snd d2] ;;
      interior_triangles variable divisions (S i) n' (Dict.set fuzz_dict (fst d1) y)
  end.

Definition get_fuzzy_triangle (variable : list R) (divisions : list division)
    : result (Dict.t (list R)) :=
  let len := List.length divisions in
  d0 <- index divisions 0 ;;
  d1 <- index divisions 1 ;;
  y0 <- trimf variable [snd d0; snd d0; snd d1] ;;
  let fuzz_dict := Dict.set Dict.empty (fst d0) y0 in
  fuzz_dict <- interior_triangles variable divisions 0 (len - 2) fuzz_dict ;;
  (* divisions[-1] and divisions[-2] *)
  dl <- index divisions (len - 1) ;;
  dp <- index divisions (len - 2) ;;
  yl <- trimf variable [snd dp; snd dl; snd dl] ;;
  Ok (Dict.set fuzz_dict (fst dl) yl).

(** ** numpy and builtin helpers *)

(** A loop whose body may raise. *)
Fixpoint foldM {A B : Type} (f : B -> A -> result B) (l : list A) (acc : B)
    : result B :=
  match l with
  | [] => Ok acc
  | x :: l' => acc' <- f acc x ;; foldM f l' acc'
  end.

(** A list comprehension whose element expression may raise. *)
Fixpoint mapM {A B : Type} (f : A -> result B) (l : list A) : result (list B) :=
  match l with
  | [] => Ok []
  | x :: l' => y <- f x ;; ys <- mapM f l' ;; Ok (y :: ys)
  end.

(** [np.unique]: the sorted distinct values, for a three-way comparison. *)
Section Unique.
Context {A : Type} (cmp : A -> A -> comparison).

Fixpoint insert_unique (x : A) (l : list A) : list A :=
  match l with
  | [] => [x]
  | y :: l' =>
      match cmp x y with
      | Lt => x :: l
      | Eq => l
      | Gt => y :: insert_unique x l'
      end
  end.

Definition unique (l : list A) : list A := fold_right insert_unique [] l.
End Unique.

Definition Rcompare (x y : R) : comparison :=
  match total_order_T x y with
  | inleft (left _) => Lt
  | inleft (right _) => Eq
  | inright _ => Gt
  end.

Definition np_unique (l : list R) : list R := unique Rcompare l.

Definition np_unique_labels (l : list string) : list string :=
  unique String.compare l.

(** [math.log2]: a domain error outside the positive reals. *)
Definition Rlog2 (x : R) : R := ln x / ln 2.

Definition log2 (x : R) : result R :=
  if Rlt_dec 0 x then Ok (Rlog2 x) else Raise (ValueError "math domain error").

(** [math.pow(x, n)] for a whole exponent [n]: [OverflowError] when the power
    is too large for a double, that is when it would round to infinity: from
    [2^1024 - 2^970] on, half a unit in the last place above the largest
    double [(2^53 - 1) * 2^971]. *)
Definition double_overflow : R := IZR ((2 ^ 54 - 1) * 2 ^ 970).

Definition math_pow (x : R) (n : nat) : result R :=
  if Rle_dec double_overflow (Rabs (x ^ n)) then Raise OverflowError
  else Ok (x ^ n).

(** Division of numpy floats: by zero it yields [inf] or [nan]. *)
Definition np_divide (x y : R) : result R :=
  if Req_dec_T y 0 then Raise NotFinite else Ok (x / y).

(** [a.max()] of an array. *)
Definition array_max (a : list R) : result R :=
  match a with
  | [] => Raise (ValueError "zero-size array to reduction operation maximum")
  | x :: a' => Ok (fold_left Rmax a' x)
  end.

(** [a[mask]] with a boolean mask of the same length. *)
Fixpoint boolean_index {A : Type} (a : list A) (mask : list bool)
    : result (list A) :=
  match a, mask with
  | [], [] => Ok []
  | x :: a', b :: mask' =>
      r <- boolean_index a' mask' ;; Ok (if b then x :: r else r)
  | _, _ => Raise IndexError
  end.

(** [min(l)] and [max(l, key=key)] of the builtins: the first extremal
    element, [ValueError] on an empty sequence. *)
Definition py_min (l : list R) : result R :=
  match l with
  | [] => Raise (ValueError "min() arg is an empty sequence")
  | x :: l' => Ok (fold_left (fun m y => if Rlt_dec y m then y else m) l' x)
  end.

Definition py_max {A : Type} (key : A -> R) (l : list A) : result A :=
  match l with
  | [] => Raise (ValueError "max() arg is an empty sequence")
  | x :: l' =>
      Ok (fold_left (fun m y => if Rlt_dec (key m) (key y) then y else m) l' x)
  end.

(** Unpacking a zipped transpose into two tuples, which needs a non-empty
    list of pairs. *)
Definition unzip {A B : Type} (pairs : list (A * B)) : result (list A * list B) :=
  match pairs with
  | [] => Raise (ValueError "not enough values to unpack")
  | _ => Ok (map fst pairs, map snd pairs)
  end.

(** [d[k]] of a [defaultdict(lambda: 0)]. *)
Definition getd (d : Dict.t R) (k : string) : R :=
  match Dict.get d k with
  | Some v => v
  | None => 0
  end.

(** A dictionary comprehension [{k: v for ...}]: later entries overwrite. *)
Definition dict_of {V : Type} (entries : list (string * V)) : Dict.t V :=
  Dict.update Dict.empty entries.

(** ** Fuzzy entropy engine *)

(** The inner loop of [fuzzy_entropy]:
    [for i in range(len(triangle)): if class_variable[i] == value: ...]. *)
Fixpoint class_fuzzy_cardinality (value : string) (triangle : list R)
    (class_variable : list string) (acc : R) : result R :=
  match triangle with
  | [] => Ok acc
  | t :: triangle' =>
      match class_variable with
      | [] => Raise IndexError
      | c :: class_variable' =>
          class_fuzzy_cardinality value triangle' class_variable'
            (if String.eqb c value then acc + t else acc)
      end
  end.

Definition fuzzy_entropy (triangle : list R) (class_variable : list string)
    : result R :=
  foldM (fun fe value =>
           cfc <- class_fuzzy_cardinality value triangle class_variable 0 ;;
           if Rlt_dec 0 cfc then
             let fuzzy_cardinality := Rsum triangle in
             ratio <- np_divide cfc fuzzy_cardinality ;;
             l <- log2 ratio ;;
             Ok (fe + - ratio * l)
           else Ok fe)
        (np_unique_labels class_variable) 0.

Definition weighted_fuzzy_entropy (fuzzy_triangle : Dict.t (list R))
    (class_variable : list string) : result R :=
  match fuzzy_triangle with
  | [] => Raise ZeroDivisionError
  | _ =>
      r <- foldM (fun (acc : R * R) (entry : string * list R) =>
                    let (wef, crisp_cardinality) := acc in
                    let fuzzy_cardinality := Rsum (snd entry) in
                    fent <- fuzzy_entropy (snd entry) class_variable ;;
                    Ok (wef + fuzzy_cardinality * fent,
                        crisp_cardinality + fuzzy_cardinality))
                 fuzzy_triangle (0, 0) ;;
      np_divide (fst r) (snd r)
  end.

(** ** Recursive fuzzy discretizer *)

Definition get_delta_point (global_fuzzy_triangles best_fuzzy_triangle : Dict.t (list R))
    (class_variable : list string) : result R :=
  let n_classes := List.length (np_unique_labels class_variable) in
  old_f_entropy <-
    foldM (fun acc (entry : string * list R) =>
             fe <- fuzzy_entropy (snd entry) class_variable ;;
             Ok (acc + INR n_classes * fe))
          global_fuzzy_triangles 0 ;;
  new_f_entropy <-
    foldM (fun acc (entry : string * list R) =>
             let bft := snd entry in
             classes <- boolean_index class_variable (map (Rltb 0) bft) ;;
             let new_n_classes := List.length (np_unique_labels classes) in
             fe <- fuzzy_entropy bft class_variable ;;
             Ok (acc + INR new_n_classes * fe))
          best_fuzzy_triangle 0 ;;
  p <- math_pow 3 n_classes ;;
  l <- log2 (p - 2) ;;
  Ok (l - (old_f_entropy - new_f_entropy)).

(** The locals [best_point], [best_wef] ([None] is [inf]) and
    [best_fuzzy_triangle] of [fuzzy_partitioning]. *)
Record best_state : Type := {
  best_point : R;
  best_wef : option R;
  best_fuzzy_triangle : Dict.t (list R)
}.

Definition initial_best : best_state :=
  {| best_point := 0; best_wef := None; best_fuzzy_triangle := Dict.empty |}.

(** [wef < best_wef]. *)
Definition lt_best (wef : R) (best : option R) : bool :=
  match best with
  | None => true
  | Some b => Rltb wef b
  end.

(** The body of [for point in variable]. *)
Definition search_step (variable : list R) (class_variable : list string)
    (min_point max_point : R) (st : best_state) (point : R) : result best_state :=
  if negb (Reqb point min_point) && negb (Reqb point max_point) then
    let divisions := [("low", min_point); ("mid", point); ("high", max_point)] in
    fuzzy_triangle <- get_fuzzy_triangle variable divisions ;;
    wef <- weighted_fuzzy_entropy fuzzy_triangle class_variable ;;
    if lt_best wef (best_wef st) then
      Ok {| best_point := point; best_wef := Some wef;
            best_fuzzy_triangle := fuzzy_triangle |}
    else Ok st
  else Ok st.

Definition best_split (variable : list R) (class_variable : list string)
    (min_point max_point : R) : result best_state :=
  foldM (search_step variable class_variable min_point max_point)
        variable initial_best.

(** [f_gain < threshold] for [f_gain = global_wef - best_wef]; with
    [best_wef = inf] the gain is [-inf], below every threshold. *)
Definition gain_below (global_wef : R) (best : option R) (threshold : R) : bool :=
  match best with
  | None => true
  | Some b => Rltb (global_wef - b) threshold
  end.

(** Lines 135-156: the test [not f_gain < threshold]. *)
Definition accept_split (variable : list R) (class_variable : list string)
    (min_point max_point : R) (st : best_state) : result bool :=
  let divisions := [("low", min_point); ("high", max_point)] in
  global_fuzzy_triangles <- get_fuzzy_triangle variable divisions ;;
  global_wef <- weighted_fuzzy_entropy global_fuzzy_triangles class_variable ;;
  let cardinality := List.length variable in
  delta <- get_delta_point global_fuzzy_triangles (best_fuzzy_triangle st)
             class_variable ;;
  l <- log2 (INR cardinality - 1) ;;
  let threshold := (l + delta) / INR cardinality in
  Ok (negb (gain_below global_wef (best_wef st) threshold)).

(** [fuel] bounds the depth of the recursion, as the interpreter's recursion
    limit does.  Every recursive call is on a strictly shorter sample, and
    [fuzzy_partitioning] starts with more fuel than the sample has elements
    ([partition_rec_props] below). *)
Fixpoint fuzzy_partitioning_rec (fuel : nat) (variable : list R)
    (class_variable : list string) (min_point : R) : result (list R) :=
  match fuel with
  | O => Raise RecursionError
  | S fuel' =>
      max_point <- array_max variable ;;
      st <- best_split variable class_variable min_point max_point ;;
      let pairs := combine variable class_variable in
      let left := filter (fun pc => Rleb (fst pc) (best_point st)) pairs in
      let right := filter (fun pc => Rltb (best_point st) (fst pc)) pairs in
      accept <- accept_split variable class_variable min_point max_point st ;;
      if accept then
        l <- unzip left ;;
        r <- unzip right ;;
        left_points <-
          (if (1 <? List.length (fst l))%nat
           then fuzzy_partitioning_rec fuel' (fst l) (snd l) min_point
           else Ok []) ;;
        right_points <-
          (if (1 <? List.length (fst r))%nat
           then fuzzy_partitioning_rec fuel' (fst r) (snd r) (best_point st)
           else Ok []) ;;
        Ok (np_unique (left_points ++ right_points))
      else Ok [min_point; max_point]
  end.

Definition fuzzy_partitioning (variable : list R) (class_variable : list string)
    (min_point : R) : result (list R) :=
  fuzzy_partitioning_rec (S (List.length variable)) variable class_variable min_point.

(** ** Rules *)

Record Rule : Type := {
  antecedent : list (string * string);
  consequent : string;
  weight : R
}.

(** [{feature: {value: degree}}] *)
Definition membership : Type := Dict.t (Dict.t R).

(** [[instance_membership[feature][value] for (feature, value) in antecedent]] *)
Definition lookup_degrees (instance_membership : membership)
    (ante : list (string * string)) : result (list R) :=
  mapM (fun fv : string * string =>
          by_value <- Dict.item instance_membership (fst fv) ;;
          Dict.item by_value (snd fv))
       ante.

(** [Rule.matching]: the [try] body, and the handler of [KeyError]. *)
Definition matching (rule : Rule) (instance_membership : membership)
    (t_norm : list R -> result R) : result R :=
  match (degrees <- lookup_degrees instance_membership (antecedent rule) ;;
         t_norm degrees) with
  | Raise KeyError => Ok 0
  | r => r
  end.

(** [Rule.weighted_vote] *)
Definition weighted_vote (rule_list : list Rule) (instance_membership : membership)
    : result string :=
  conse_dict <-
    foldM (fun (conse_dict : Dict.t R) rule =>
             m <- matching rule instance_membership py_min ;;
             let AD := m * weight rule in
             Ok (Dict.set conse_dict (consequent rule)
                   (getd conse_dict (consequent rule) + AD)))
          rule_list Dict.empty ;;
  py_max (getd conse_dict) (Dict.keys conse_dict).

(** [Rule.map_rule_variables].  The classes [FuzzySet] and [FuzzyVariable]
    are declared outside the files at hand: a fuzzy set is taken with its
    [name] and its [intersection] with another set, a fuzzy variable with its
    [name] and [fuzzy_sets]. *)
Section MapRuleVariables.
Context {FuzzySet : Type}.
Variable fs_name : FuzzySet -> string.
Variable intersection : FuzzySet -> FuzzySet -> R.

Record FuzzyVariable : Type := {
  fv_name : string;
  fuzzy_sets : list FuzzySet
}.

(** [d1.keys() != d2.keys()] compares the keys as sets. *)
Definition same_keys {V W : Type} (d1 : Dict.t V) (d2 : Dict.t W) : bool :=
  forallb (Dict.mem d2) (Dict.keys d1) && forallb (Dict.mem d1) (Dict.keys d2).

Definition universes_error : exn :=
  ValueError "The universes of the fuzzy variables are not the same".

(** [{fv.name: fv.fuzzy_sets for fv in fuzzy_variables}] *)
Definition variables_dict (fuzzy_variables : list FuzzyVariable)
    : Dict.t (list FuzzySet) :=
  dict_of (map (fun fv => (fv_name fv, fuzzy_sets fv)) fuzzy_variables).

(** [{fs.name: fs for fs in feat}] *)
Definition sets_dict (feat : list FuzzySet) : Dict.t FuzzySet :=
  dict_of (map (fun fs => (fs_name fs, fs)) feat).

Definition map_rule_variables (rule : Rule)
    (origin_fuzzy_variables dest_fuzzy_variables : list FuzzyVariable)
    : result Rule :=
  let origin_dict := variables_dict origin_fuzzy_variables in
  let dest_dict := variables_dict dest_fuzzy_variables in
  if negb (same_keys origin_dict dest_dict) then Raise universes_error
  else
    new_antecedent <-
      mapM (fun fv : string * string =>
              let (feat, value) := fv in
              origin_feat <- Dict.item origin_dict feat ;;
              dest_feat <- Dict.item dest_dict feat ;;
              let origin_fuzzy_sets := sets_dict origin_feat in
              origin_fs <- Dict.item origin_fuzzy_sets value ;;
              dest_fs <- py_max (fun fs => intersection fs origin_fs) dest_feat ;;
              Ok (feat, fs_name dest_fs))
           (antecedent rule) ;;
    Ok {| antecedent := new_antecedent;
          consequent := consequent rule;
          weight := weight rule |}.
End MapRuleVariables.

Arguments FuzzyVariable : clear implicits.
Arguments fv_name {FuzzySet} _.
Arguments fuzzy_sets {FuzzySet} _.

(** ** Leaf aggregation *)

(** A leaf: [(class_weight_mapping, leaf_activation_weight)]. *)
Definition leaf : Type := (Dict.t R * R)%type.

Definition _aggregated_vote (all_classes : list leaf) : Dict.t R :=
  fold_left
    (fun agg_vote (lf : leaf) =>
       fold_left (fun agg_vote (kw : string * R) =>
                    Dict.set agg_vote (fst kw)
                      (getd agg_vote (fst kw) + snd kw * snd lf))
                 (fst lf) agg_vote)
    all_classes Dict.empty.

Definition _maximum_matching (all_classes : list leaf) : Dict.t R :=
  fold_left
    (fun max_match (lf : leaf) =>
       fold_left (fun max_match (kw : string * R) =>
                    Dict.set max_match (fst kw)
                      (Rmax (getd max_match (fst kw)) (snd kw * snd lf)))
                 (fst lf) max_match)
    all_classes Dict.empty.

(** ** Specification-side definitions *)

(** The entries that [get_fuzzy_triangle] writes after the first one, in the
    order of the assignments: one triangle per interior peak, then the half
    triangle of the last peak. *)
Fixpoint tail_entries (variable : list R) (divisions : list division)
    : list (string * list R) :=
  match divisions with
  | d0 :: ((d1 :: tl') as tl) =>
      match tl' with
      | [] => [(fst d1, map (trimf_at (snd d0) (snd d1) (snd d1)) variable)]
      | d2 :: _ =>
          (fst d1, map (trimf_at (snd d0) (snd d1) (snd d2)) variable)
            :: tail_entries variable tl
      end
  | _ => []
  end.


(** Strictly increasing peaks. *)
Definition increasing (peaks : list R) : Prop := StronglySorted Rlt peaks.

(** The degree of the element at position [j] of the sample, summed over the
    sets of a fuzzy set table. *)
Definition degree_sum (d : Dict.t (list R)) (j : nat) : R :=
  Rsum (map (fun arr => nth j arr 0) (Dict.values d)).

(** A (feature, value) pair is present in a membership profile when both
    lookups succeed; [degree_at] is the degree looked up. *)
Definition degree_at (instance_membership : membership) (fv : string * string)
    (degree : R) : Prop :=
  exists by_value,
    Dict.get instance_membership (fst fv) = Some by_value /\
    Dict.get by_value (snd fv) = Some degree.

Definition present (instance_membership : membership) (fv : string * string)
    : Prop :=
  exists degree, degree_at instance_membership fv degree.

(** The activation [matching(instance) * weight] of a rule, and the sum of
    the activations of the rules with a given consequent. *)
Definition activation (instance_membership : membership) (rule : Rule) : R :=
  match matching rule instance_membership py_min with
  | Ok m => m * weight rule
  | Raise _ => 0
  end.

Definition vote_total (rule_list : list Rule) (instance_membership : membership)
    (conse : string) : R :=
  Rsum (map (activation instance_membership)
          (filter (fun rule => String.eqb (consequent rule) conse) rule_list)).

(** The distinct values of a list in the order of their first occurrence. *)
Fixpoint first_seen (l : list string) : list string :=
  match l with
  | [] => []
  | x :: l' => x :: filter (fun y => negb (String.eqb y x)) (first_seen l')
  end.

(** The leaves whose class mapping has a given key, and their products
    [class_weight_mapping[key] * leaf_activation_weight]. *)
Definition leaf_products (key : string) (all_classes : list leaf) : list R :=
  flat_map (fun lf : leaf =>
              match Dict.get (fst lf) key with
              | Some w => [w * snd lf]
              | None => []
              end)
           all_classes.

Definition leaf_sum (key : string) (all_classes : list leaf) : R :=
  Rsum (leaf_products key all_classes).

(** The maximum of the products, with 0 as the floor. *)
Definition leaf_max (key : string) (all_classes : list leaf) : R :=
  fold_left Rmax (leaf_products key all_classes) 0.

Definition occurs (key : string) (all_classes : list leaf) : Prop :=
  Exists (fun lf : leaf => In key (Dict.keys (fst lf))) all_classes.

(** A list of leaves is well formed when no class mapping repeats a key. *)
Definition leaves_wf (all_classes : list leaf) : Prop :=
  Forall (fun lf : leaf => NoDup (Dict.keys (fst lf))) all_classes.

(** The loop shared by [_aggregated_vote] ([op] is the sum) and
    [_maximum_matching] ([op] is [np.maximum]), from a given accumulator. *)
Definition leaf_fold (op : R -> R -> R) (all_classes : list leaf)
    (acc : Dict.t R) : Dict.t R :=
  fold_left
    (fun acc (lf : leaf) =>
       fold_left (fun acc (kw : string * R) =>
                    Dict.set acc (fst kw) (op (getd acc (fst kw)) (snd kw * snd lf)))
                 (fst lf) acc)
    all_classes acc.

(** The fuzzy cardinality of a class: the sum of the degrees at the positions
    whose label equals the class. *)
Definition class_cardinality (value : string) (triangle : list R)
    (class_labels : list string) : R :=
  Rsum (map fst (filter (fun tc : R * string => String.eqb (snd tc) value)
                   (combine triangle class_labels))).

(** The term [-ratio * log2(ratio)] of a class, with
    [ratio = class_fuzzy_cardinality / total_fuzzy_cardinality]. *)
Definition entropy_term (triangle : list R) (class_labels : list string)
    (value : string) : R :=
  let ratio := class_cardinality value triangle class_labels / Rsum triangle in
  - ratio * Rlog2 ratio.

(** Fuzzy entropy as the specification words it: the sum of the terms of the
    distinct class values with a strictly positive fuzzy cardinality. *)
Definition entropy_formula (triangle : list R) (class_labels : list string) : R :=
  Rsum (map (entropy_term triangle class_labels)
          (filter (fun value => Rltb 0 (class_cardinality value triangle class_labels))
             (nodup string_dec class_labels))).

(** Weighted fuzzy entropy as the specification words it: the average of the
    fuzzy entropies of the sets, weighted by their fuzzy cardinalities. *)
Definition wfe_formula (fuzzy_triangle : Dict.t (list R))
    (class_labels : list string) : R :=
  Rsum (map (fun e : string * list R =>
               Rsum (snd e) * entropy_formula (snd e) class_labels)
          fuzzy_triangle)
  / Rsum (map (fun e : string * list R => Rsum (snd e)) fuzzy_triangle).

(** The stopping rule as the specification words it. *)
Definition distinct_count (labels : list string) : nat :=
  List.length (nodup string_dec labels).

(** The classes of the elements whose degree in a set is strictly positive. *)
Definition positive_classes (degrees : list R) (class_labels : list string)
    : list string :=
  map snd (filter (fun tc : R * string => Rltb 0 (fst tc))
             (combine degrees class_labels)).

Definition old_entropy_term (global_triangle : Dict.t (list R))
    (class_labels : list string) : R :=
  Rsum (map (fun e : string * list R =>
               INR (distinct_count class_labels)
               * entropy_formula (snd e) class_labels)
          global_triangle).

Definition new_entropy_term (best_triangle : Dict.t (list R))
    (class_labels : list string) : R :=
  Rsum (map (fun e : string * list R =>
               INR (distinct_count (positive_classes (snd e) class_labels))
               * entropy_formula (snd e) class_labels)
          best_triangle).

Definition spec_delta (global_triangle best_triangle : Dict.t (list R))
    (class_labels : list string) : R :=
  Rlog2 (3 ^ distinct_count class_labels - 2)
  - (old_entropy_term global_triangle class_labels
     - new_entropy_term best_triangle class_labels).

Definition spec_threshold (n : nat) (global_triangle best_triangle : Dict.t (list R))
    (class_labels : list string) : R :=
  (Rlog2 (INR n - 1) + spec_delta global_triangle best_triangle class_labels)
  / INR n.

(** The 2-set triangle of the unsplit sample and the 3-set triangle of a
    candidate point. *)
Definition low_high (variable : list R) (min_point max_point : R)
    : Dict.t (list R) :=
  [("low", map (trimf_at min_point min_point max_point) variable);
   ("high", map (trimf_at min_point max_point max_point) variable)].

Definition low_mid_high (variable : list R) (min_point point max_point : R)
    : Dict.t (list R) :=
  [("low", map (trimf_at min_point min_point point) variable);
   ("mid", map (trimf_at min_point point max_point) variable);
   ("high", map (trimf_at point max_point max_point) variable)].

(** What the search loop maintains: either no candidate was met, or the best
    point is a candidate of the sample, with its triangle and its weighted
    fuzzy entropy. *)
Definition search_invariant (variable : list R) (class_labels : list string)
    (min_point max_point : R) (st : best_state) : Prop :=
  match best_wef st with
  | None => best_fuzzy_triangle st = Dict.empty
  | Some wef =>
      In (best_point st) variable /\
      best_point st <> min_point /\ best_point st <> max_point /\
      best_fuzzy_triangle st
      = low_mid_high variable min_point (best_point st) max_point /\
      weighted_fuzzy_entropy (best_fuzzy_triangle st) class_labels = Ok wef
  end.

(** A call of the discretizer on a sample with its labels and a lower bound
    of the sample. *)
Definition valid_call (variable : list R) (class_labels : list string)
    (min_point : R) : Prop :=
  List.length variable = List.length class_labels /\
  (2 <= List.length variable)%nat /\
  Forall (fun x => min_point <= x) variable.

(** A fuzzy set table over a sample of [n] elements: every set has [n]
    non-negative degrees. *)
Definition degree_table (n : nat) (d : Dict.t (list R)) : Prop :=
  Forall (fun e : string * list R =>
            Forall (fun x => 0 <= x) (snd e) /\ List.length (snd e) = n)
         d.

(** ** Callers of the discretizer and of the fuzzy set builder

    A pandas data frame is taken by its columns: the numerical ones as arrays
    of reals, the categorical ones (the class column among them) as arrays of
    labels; [df[column]] raises [KeyError] on a missing column. *)

Record DataFrame : Type := {
  numerical : Dict.t (list R);
  categorical : Dict.t (list string)
}.

(** [df[column].min()].  On an empty column pandas gives [nan]; the callers
    below pass it to [fuzzy_partitioning], which raises on the empty sample
    before it reads the value. *)
Definition series_min (series : list R) : R :=
  match series with
  | [] => 0
  | x :: series' => fold_left Rmin series' x
  end.

Definition get_fuzzy_points (df : DataFrame)
    (get_divisions : list R -> nat -> result (list R))
    (df_numerical_columns : list string) (sets : nat)
    : result (Dict.t (list R)) :=
  foldM (fun fuzzy_points column =>
           variable <- Dict.item (numerical df) column ;;
           points <- get_divisions variable sets ;;
           Ok (Dict.set fuzzy_points column points))
        df_numerical_columns Dict.empty.

Definition get_fuzzy_points_entropy (df : DataFrame)
    (df_numerical_columns : list string) (class_name : string)
    : result (Dict.t (list R)) :=
  foldM (fun fuzzy_points column =>
           variable <- Dict.item (numerical df) column ;;
           class_variable <- Dict.item (categorical df) class_name ;;
           points <- fuzzy_partitioning variable class_variable
                       (series_min variable) ;;
           Ok (Dict.set fuzzy_points column points))
        df_numerical_columns Dict.empty.

(** [(df[column] == value).to_numpy().astype(int)] *)
Definition indicator (series : list string) (value : string) : list R :=
  map (fun x => if String.eqb x value then 1 else 0) series.

(** [get_fuzzy_set_dataframe]; [format_label] is the formatting [f'{label}']
    of a breakpoint, [df[column].unique()] the distinct values in order of
    appearance. *)
Definition get_fuzzy_set_dataframe (format_label : R -> string)
    (df : DataFrame)
    (gen_fuzzy_set : list R -> list division -> result (Dict.t (list R)))
    (fuzzy_points : Dict.t (list R))
    (df_numerical_columns df_categorical_columns : list string)
    (labels : Dict.t (list string))
    : result (Dict.t (Dict.t (list R))) :=
  fuzzy_set <-
    foldM (fun fuzzy_set column =>
             col_labels <-
               (if negb (Dict.mem labels column)
                then points <- Dict.item fuzzy_points column ;;
                     Ok (map format_label points)
                else Dict.item labels column) ;;
             variable <- Dict.item (numerical df) column ;;
             points <- Dict.item fuzzy_points column ;;
             table <- gen_fuzzy_set variable (combine col_labels points) ;;
             Ok (Dict.set fuzzy_set column table))
          df_numerical_columns Dict.empty ;;
  foldM (fun fuzzy_set column =>
           series <- Dict.item (categorical df) column ;;
           let element :=
             fold_left (fun element value =>
                          Dict.set element value (indicator series value))
                       (first_seen series) Dict.empty in
           Ok (Dict.set fuzzy_set column element))
        df_categorical_columns fuzzy_set.

(** The part of [get_fuzzy_triangle] after the first assignment, run on the
    divisions [pre ++ divs] from the index of the first element of [divs]. *)
Definition finish_triangles (variable : list R) (pre divs : list division)
    (len : nat) (fuzz_dict : Dict.t (list R)) : result (Dict.t (list R)) :=
  fuzz_dict <- interior_triangles variable (pre ++ divs) (List.length pre)
                 (List.length divs - 2) fuzz_dict ;;
  dl <- index (pre ++ divs) (len - 1) ;;
  dp <- index (pre ++ divs) (len - 2) ;;
  yl <- trimf variable [snd dp; snd dl; snd dl] ;;
  Ok (Dict.set fuzz_dict (fst dl) yl).

(** The peaks never decrease, as a boolean. *)
Fixpoint nondecreasingb (peaks : list R) : bool :=
  match peaks with
  | a :: ((b :: _) as tl) => Rleb a b && nondecreasingb tl
  | _ => true
  end.







(** An antecedent pair names a fuzzy set of the origin variables: its feature
    is the name of a variable, and its value the name of one of the sets of
    that variable. *)
Definition names_origin_set {FuzzySet : Type} (fs_name : FuzzySet -> string)
    (origin : list (FuzzyVariable FuzzySet)) (fv : string * string) : Prop :=
  exists origin_feat,
    Dict.get (variables_dict origin) (fst fv) = Some origin_feat /\
    Dict.mem (sets_dict fs_name origin_feat) (snd fv) = true.




(** ** The triangles in binary64 arithmetic

    The same code with numpy's [float64] in place of the real numbers:
    [trimf] and [get_fuzzy_triangle] once more, every subtraction, division
    and comparison being the IEEE 754 binary64 operation.  The sum of the
    degrees of one element adds them from left to right in the order of the
    sets of the table. *)

Module Binary64.

Definition trimf_at (a b c x : float) : float :=
  let y := 0%float in
  let y := if negb (a =? b)%float && ((a <? x)%float && (x <? b)%float)
           then ((x - a) / (b - a))%float else y in
  let y := if negb (b =? c)%float && ((b <? x)%float && (x <? c)%float)
           then ((c - x) / (c - b))%float else y in
  if (x =? b)%float then 1%float else y.

Definition trimf (x : list float) (abc : list float) : result (list float) :=
  match abc with
  | [a; b; c] =>
      if (a <=? b)%float && (b <=? c)%float
      then Ok (map (trimf_at a b c) x)
      else Raise AssertionError
  | _ => Raise AssertionError
  end.

Definition division : Type := (string * float)%type.

Fixpoint interior_triangles (variable : list float) (divisions : list division)
    (i n : nat) (fuzz_dict : Dict.t (list float)) : result (Dict.t (list float)) :=
  match n with
  | O => Ok fuzz_dict
  | S n' =>
      d0 <- index divisions i ;;
      d1 <- index divisions (i + 1) ;;
      d2 <- index divisions (i + 2) ;;
      y <- trimf variable [snd d0; snd d1; snd d2] ;;
      interior_triangles variable divisions (S i) n' (Dict.set fuzz_dict (fst d1) y)
  end.

Definition get_fuzzy_triangle (variable : list float) (divisions : list division)
    : result (Dict.t (list float)) :=
  let len := List.length divisions in
  d0 <- index divisions 0 ;;
  d1 <- index divisions 1 ;;
  y0 <- trimf variable [snd d0; snd d0; snd d1] ;;
  let fuzz_dict := Dict.set Dict.empty (fst d0) y0 in
  fuzz_dict <- interior_triangles variable divisions 0 (len - 2) fuzz_dict ;;
  dl <- index divisions (len - 1) ;;
  dp <- index divisions (len - 2) ;;
  yl <- trimf variable [snd dp; snd dl; snd dl] ;;
  Ok (Dict.set fuzz_dict (fst dl) yl).

Definition degree_sum (d : Dict.t (list float)) (j : nat) : float :=
  fold_left PrimFloat.add (map (fun arr => nth j arr 0%float) (Dict.values d))
    0%float.


End Binary64.

(** * Properties *)

Lemma Ok_inj {A : Type} (a b : A) : Ok a = Ok b -> a = b.
Proof. intros H. now injection H. Qed.

(** ** Comparisons *)

Lemma Rltb_true x y : Rltb x y = true <-> x < y.
Proof. unfold Rltb; destruct (Rlt_dec x y); split; intros; try easy. Qed.

Lemma Rltb_false x y : Rltb x y = false <-> ~ x < y.
Proof. unfold Rltb; destruct (Rlt_dec x y); split; intros; try easy. Qed.

Lemma Rleb_true x y : Rleb x y = true <-> x <= y.
Proof. unfold Rleb; destruct (Rle_dec x y); split; intros; try easy. Qed.

Lemma Rleb_false x y : Rleb x y = false <-> ~ x <= y.
Proof. unfold Rleb; destruct (Rle_dec x y); split; intros; try easy. Qed.

Lemma Reqb_true x y : Reqb x y = true <-> x = y.
Proof. unfold Reqb; destruct (Req_dec_T x y); split; intros; try easy. Qed.

Lemma Reqb_false x y : Reqb x y = false <-> x <> y.
Proof. unfold Reqb; destruct (Req_dec_T x y); split; intros; try easy. Qed.

(** Decide every comparison in the goal, closing the impossible branches by
    linear arithmetic. *)
Ltac Rcases :=
  unfold Rltb, Rleb, Reqb in *;
  repeat match goal with
    | |- context [Rlt_dec ?x ?y] => destruct (Rlt_dec x y); simpl; try lra
    | |- context [Rle_dec ?x ?y] => destruct (Rle_dec x y); simpl; try lra
    | |- context [Req_dec_T ?x ?y] => destruct (Req_dec_T x y); simpl; try lra
    end.

(** ** Sums *)

Lemma fold_left_Rplus (l : list R) (a : R) :
  fold_left Rplus l a = a + fold_left Rplus l 0.
Proof.
  revert a; induction l as [|x l IH]; intros a; simpl.
  - lra.
  - rewrite IH, (IH (0 + x)). lra.
Qed.

Lemma Rsum_nil : Rsum [] = 0.
Proof. reflexivity. Qed.

Lemma Rsum_cons x l : Rsum (x :: l) = x + Rsum l.
Proof. unfold Rsum; simpl. rewrite fold_left_Rplus. lra. Qed.

Lemma Rsum_nonneg l : Forall (fun x => 0 <= x) l -> 0 <= Rsum l.
Proof.
  induction 1 as [|x l Hx _ IH].
  - rewrite Rsum_nil; lra.
  - rewrite Rsum_cons; lra.
Qed.

(** ** The triangular membership function *)

Lemma trimf_at_peak a b c : trimf_at a b c b = 1.
Proof. unfold trimf_at. Rcases. Qed.

Lemma trimf_at_rise a b c x : a < x < b -> trimf_at a b c x = (x - a) / (b - a).
Proof. intros H. unfold trimf_at. Rcases. Qed.

Lemma trimf_at_fall a b c x : b < x < c -> trimf_at a b c x = (c - x) / (c - b).
Proof. intros H. unfold trimf_at. Rcases. Qed.

Lemma trimf_at_below a b c x : a <= b -> x <= a -> x <> b -> trimf_at a b c x = 0.
Proof. intros H1 H2 H3. unfold trimf_at. Rcases. Qed.

Lemma trimf_at_above a b c x : b <= c -> c <= x -> x <> b -> trimf_at a b c x = 0.
Proof. intros H1 H2 H3. unfold trimf_at. Rcases. Qed.

Lemma ratio_range n d : 0 <= n <= d -> 0 < d -> 0 <= n / d <= 1.
Proof.
  intros Hn Hd.
  assert (Hq : n / d * d = n) by (field; lra).
  assert (Hi : 0 < / d) by (apply Rinv_0_lt_compat; lra).
  split.
  - unfold Rdiv. apply Rmult_le_pos; lra.
  - unfold Rdiv. apply Rmult_le_reg_r with d; [lra|].
    rewrite Rmult_assoc, Rinv_l by lra. lra.
Qed.

Lemma trimf_at_range a b c x : 0 <= trimf_at a b c x <= 1.
Proof.
  unfold trimf_at. Rcases; apply ratio_range; lra.
Qed.

#[global] Arguments trimf : simpl never.

Lemma trimf_ok x a b c :
  a <= b -> b <= c -> trimf x [a; b; c] = Ok (map (trimf_at a b c) x).
Proof.
  intros H1 H2. unfold trimf.
  apply Rleb_true in H1, H2. rewrite H1, H2. reflexivity.
Qed.

(** ** Dictionaries *)

Section DictFacts.
Context {V : Type}.
Implicit Types (d : Dict.t V) (k : string) (v : V).

Lemma Dict_get_set_eq d k v : Dict.get (Dict.set d k v) k = Some v.
Proof.
  induction d as [|[k' v'] d IH]; simpl.
  - now rewrite String.eqb_refl.
  - destruct (String.eqb k' k) eqn:E; simpl; rewrite E; auto.
Qed.

Lemma Dict_get_set_neq d k k' v :
  k <> k' -> Dict.get (Dict.set d k v) k' = Dict.get d k'.
Proof.
  intros Hne. induction d as [|[k0 v0] d IH]; simpl.
  - apply String.eqb_neq in Hne. now rewrite Hne.
  - destruct (String.eqb k0 k) eqn:E; simpl.
    + apply String.eqb_eq in E; subst k0.
      apply String.eqb_neq in Hne. now rewrite Hne.
    + now rewrite IH.
Qed.

Lemma Dict_get_None d k : Dict.get d k = None <-> ~ In k (Dict.keys d).
Proof.
  induction d as [|[k' v'] d IH]; simpl.
  - tauto.
  - destruct (String.eqb_spec k' k); split; intros H; try easy.
    + exfalso; apply H; auto.
    + intros [?|?]; [easy|]. now apply IH.
    + apply IH. tauto.
Qed.

Lemma Dict_get_Some_In d k v : Dict.get d k = Some v -> In (k, v) d.
Proof.
  induction d as [|[k' v'] d IH]; simpl; [easy|].
  destruct (String.eqb_spec k' k); intros H.
  - injection H as ->; subst; auto.
  - auto.
Qed.

Lemma Dict_set_fresh d k v :
  ~ In k (Dict.keys d) -> Dict.set d k v = d ++ [(k, v)].
Proof.
  induction d as [|[k' v'] d IH]; simpl; [easy|].
  intros Hni. destruct (String.eqb_spec k' k); [tauto|].
  rewrite IH; tauto.
Qed.

Lemma Dict_update_fresh entries d :
  NoDup (Dict.keys d ++ map fst entries) ->
  Dict.update d entries = d ++ entries.
Proof.
  revert d; induction entries as [|[k v] entries IH]; intros d Hnd; simpl.
  - now rewrite app_nil_r.
  - unfold Dict.update in *; simpl.
    rewrite Dict_set_fresh.
    + rewrite IH.
      * now rewrite <- app_assoc.
      * unfold Dict.keys in *. rewrite map_app; simpl.
        now rewrite <- app_assoc.
    + apply NoDup_remove_2 in Hnd. intros Hin; apply Hnd.
      apply in_or_app; auto.
Qed.

Lemma Dict_update_app d e1 e2 :
  Dict.update d (e1 ++ e2) = Dict.update (Dict.update d e1) e2.
Proof. unfold Dict.update. apply fold_left_app. Qed.
End DictFacts.

(** ** [get_fuzzy_triangle] writes the half triangles and the interior ones *)

Lemma index_app_at {A : Type} (pre l : list A) (k : nat) :
  index (pre ++ l) (List.length pre + k) = index l k.
Proof.
  unfold index. rewrite nth_error_app2 by lia.
  now replace (List.length pre + k - List.length pre)%nat with k by lia.
Qed.

Lemma closing_loop variable divs :
  forall pre fuzz_dict len,
    (2 <= List.length divs)%nat ->
    len = (List.length pre + List.length divs)%nat ->
    increasing (map snd divs) ->
    (fuzz_dict <- interior_triangles variable (pre ++ divs) (List.length pre)
                    (List.length divs - 2) fuzz_dict ;;
     dl <- index (pre ++ divs) (len - 1) ;;
     dp <- index (pre ++ divs) (len - 2) ;;
     yl <- trimf variable [snd dp; snd dl; snd dl] ;;
     Ok (Dict.set fuzz_dict (fst dl) yl))
    = Ok (Dict.update fuzz_dict (tail_entries variable divs)).
Proof.
  induction divs as [|d0 tl IH]; intros pre fuzz_dict len Hlen -> Hinc.
  - simpl in Hlen; lia.
  - destruct tl as [|d1 [|d2 rest]].
    + simpl in Hlen; lia.
    + (* the last two peaks *)
      simpl List.length. simpl interior_triangles. simpl bind.
      replace (List.length pre + 2 - 1)%nat with (List.length pre + 1)%nat by lia.
      replace (List.length pre + 2 - 2)%nat with (List.length pre + 0)%nat by lia.
      rewrite !index_app_at. simpl.
      inversion Hinc as [|? ? _ Hall]; subst.
      inversion Hall; subst.
      rewrite trimf_ok by lra. reflexivity.
    + simpl List.length.
      replace (S (S (S (List.length rest))) - 2)%nat
        with (S (List.length rest)) by lia.
      cbn [interior_triangles].
      rewrite <- (Nat.add_0_r (List.length pre)) at 1.
      rewrite !index_app_at. unfold index at 1 2 3. cbn [nth_error bind].
      inversion Hinc as [|? ? Hinc' Hall]; subst.
      inversion Hall as [|? ? H01 Hall']; subst.
      inversion Hinc' as [|? ? _ Hall1]; subst.
      inversion Hall1 as [|? ? H12 _]; subst.
      rewrite trimf_ok by lra. cbn [bind].
      specialize (IH (pre ++ [d0])
                    (Dict.set fuzz_dict (fst d1)
                       (map (trimf_at (snd d0) (snd d1) (snd d2)) variable))
                    (List.length (pre ++ [d0]) + List.length (d1 :: d2 :: rest))%nat).
      rewrite <- app_assoc in IH. simpl app in IH.
      rewrite length_app in IH. simpl List.length in IH.
      replace (List.length pre + 1)%nat with (S (List.length pre)) in IH by lia.
      replace (S (S (List.length rest)) - 2)%nat with (List.length rest) in IH by lia.
      replace (List.length pre + S (S (S (List.length rest))))%nat
        with (S (List.length pre) + S (S (List.length rest)))%nat by lia.
      rewrite IH; [reflexivity|lia|reflexivity|exact Hinc'].
Qed.

Lemma get_fuzzy_triangle_entries variable d0 d1 rest :
  increasing (map snd (d0 :: d1 :: rest)) ->
  get_fuzzy_triangle variable (d0 :: d1 :: rest)
  = Ok (Dict.update
          [(fst d0, map (trimf_at (snd d0) (snd d0) (snd d1)) variable)]
          (tail_entries variable (d0 :: d1 :: rest))).
Proof.
  intros Hinc. unfold get_fuzzy_triangle.
  unfold index at 1 2. cbn [nth_error bind].
  assert (H01 : snd d0 < snd d1).
  { inversion Hinc as [|? ? _ Hall]; subst. now inversion Hall. }
  rewrite trimf_ok by lra. cbn [bind].
  apply (closing_loop variable (d0 :: d1 :: rest) []); simpl; auto; lia.
Qed.

Lemma tail_entries_keys variable d0 tl :
  map fst (tail_entries variable (d0 :: tl)) = map fst tl.
Proof.
  revert d0; induction tl as [|d1 tl IH]; intros d0; [reflexivity|].
  destruct tl as [|d2 rest]; [reflexivity|].
  cbn [tail_entries map fst]. f_equal. apply IH.
Qed.


Lemma tail_entries_last variable front dp dl :
  exists entries,
    tail_entries variable (front ++ [dp; dl])
    = entries ++ [(fst dl, map (trimf_at (snd dp) (snd dl) (snd dl)) variable)].
Proof.
  induction front as [|x front IH].
  - now exists [].
  - destruct IH as [entries IH].
    destruct front as [|y front].
    + simpl. eexists [_]. reflexivity.
    + change ((x :: y :: front) ++ [dp; dl])
        with (x :: y :: (front ++ [dp; dl])).
      destruct (front ++ [dp; dl]) as [|z rest] eqn:E.
      * destruct front; discriminate.
      * cbn [tail_entries]. cbn [tail_entries app] in IH.
        eexists (_ :: entries). simpl. f_equal.
        change ((y :: front) ++ [dp; dl]) with (y :: (front ++ [dp; dl])) in IH.
        rewrite E in IH. exact IH.
Qed.



Lemma Dict_get_update_notin {V : Type} (entries d : Dict.t V) k :
  ~ In k (map fst entries) -> Dict.get (Dict.update d entries) k = Dict.get d k.
Proof.
  revert d; induction entries as [|[k' v'] entries IH]; intros d Hni; [reflexivity|].
  unfold Dict.update in *; simpl in *.
  rewrite IH by tauto. apply Dict_get_set_neq. tauto.
Qed.

(** ** Partition of unity *)

Lemma nth_map_at (f : R -> R) (l : list R) (j : nat) :
  (j < List.length l)%nat -> nth j (map f l) 0 = f (nth j l 0).
Proof.
  intros Hj. rewrite (nth_indep _ 0 (f 0)) by now rewrite length_map.
  apply map_nth.
Qed.


Section PointwiseSum.
Variable variable : list R.
Variable j : nat.
Hypothesis Hj : (j < List.length variable)%nat.

Let v := nth j variable 0.




End PointwiseSum.



(** ** C3: degrees in the unit interval, the two neighbouring sets *)





Section PointwiseDegrees.
Variable variable : list R.
Variable j : nat.
Hypothesis Hj : (j < List.length variable)%nat.

Let v := nth j variable 0.


End PointwiseDegrees.




(** ** C8: the two half triangles *)

Lemma increasing_app_r l1 l2 : increasing (l1 ++ l2) -> increasing l2.
Proof.
  induction l1 as [|x l1 IH]; simpl; intros H; [exact H|].
  apply IH. now inversion H.
Qed.

(** C8, as stated, at a sample value below the first peak: the value [-1]
    is less than [p0 = 0], and its degree in the first set is [0], not [1]. *)
Lemma first_set_below_first_peak :
  exists d arr,
    get_fuzzy_triangle [-1] [("low", 0); ("high", 1)] = Ok d /\
    Dict.get d "low" = Some arr /\
    nth 0 [-1] 0 <= 0 /\
    nth 0 arr 0 <> 1.
Proof.
  assert (Hinc : increasing (map snd [("low", 0); ("high", 1)])).
  { repeat constructor. simpl. lra. }
  eexists. eexists.
  split; [apply get_fuzzy_triangle_entries; exact Hinc|].
  split; [reflexivity|].
  split; [simpl; lra|].
  simpl. rewrite (trimf_at_below 0 0 1 (-1)) by lra. lra.
Qed.

(** C8 (amended): for divisions [(label0,p0), (label1,p1), ..., (labelK,pK)]
    with strictly increasing peaks, where no later entry reuses [label0], the
    array of [label0] has degree 1 at values equal to [p0], degree 0 at
    values less than [p0], falls linearly as [(p1 - v) / (p1 - p0)] between
    [p0] and [p1] and is 0 from [p1] on; the array of [labelK] has degree 1 at
    values equal to [pK], degree 0 at values greater than [pK], rises linearly
    as [(v - pK') / (pK - pK')] between the previous peak [pK'] and [pK], and
    is 0 up to [pK']. *)
Theorem half_triangles variable label0 p0 label1 p1 rest front labelK' pK' labelK pK :
  (label0, p0) :: (label1, p1) :: rest = front ++ [(labelK', pK'); (labelK, pK)] ->
  increasing (map snd ((label0, p0) :: (label1, p1) :: rest)) ->
  ~ In label0 (map fst ((label1, p1) :: rest)) ->
  exists d arr0 arrK,
    get_fuzzy_triangle variable ((label0, p0) :: (label1, p1) :: rest) = Ok d /\
    Dict.get d label0 = Some arr0 /\
    Dict.get d labelK = Some arrK /\
    forall j, (j < List.length variable)%nat ->
      let v := nth j variable 0 in
      (v = p0 -> nth j arr0 0 = 1) /\
      (v < p0 -> nth j arr0 0 = 0) /\
      (p0 < v < p1 -> nth j arr0 0 = (p1 - v) / (p1 - p0)) /\
      (p1 <= v -> nth j arr0 0 = 0) /\
      (v = pK -> nth j arrK 0 = 1) /\
      (pK < v -> nth j arrK 0 = 0) /\
      (pK' < v < pK -> nth j arrK 0 = (v - pK') / (pK - pK')) /\
      (v <= pK' -> nth j arrK 0 = 0).
Proof.
  intros Hsplit Hinc Hnd.
  pose proof (get_fuzzy_triangle_entries variable _ _ rest Hinc) as Hd.
  cbn [fst snd] in Hd.
  assert (H01 : p0 < p1).
  { inversion Hinc as [|? ? _ Hall]; subst. now inversion Hall. }
  assert (HK : pK' < pK).
  { unfold increasing in Hinc. rewrite Hsplit, map_app in Hinc.
    apply increasing_app_r in Hinc. simpl in Hinc.
    inversion Hinc as [|? ? _ Hall]; subst. now inversion Hall. }
  destruct (tail_entries_last variable front (labelK', pK') (labelK, pK))
    as [entries Hlast].
  pose proof (eq_trans (f_equal (tail_entries variable) Hsplit) Hlast) as Hlast'.
  clear Hlast. cbn [fst snd] in Hlast'.
  eexists. eexists. eexists.
  split; [exact Hd|]. split; [|split].
  - rewrite Dict_get_update_notin.
    + simpl. rewrite String.eqb_refl. reflexivity.
    + rewrite tail_entries_keys. exact Hnd.
  - rewrite Hlast', Dict_update_app.
    unfold Dict.update at 1. simpl fold_left.
    apply Dict_get_set_eq.
  - intros j Hj v. rewrite !nth_map_at by exact Hj. fold v.
    repeat split; intros Hv.
    + subst v. rewrite Hv. apply trimf_at_peak.
    + apply trimf_at_below; lra.
    + apply trimf_at_fall; lra.
    + apply trimf_at_above; lra.
    + subst v. rewrite Hv. apply trimf_at_peak.
    + apply trimf_at_above; lra.
    + apply trimf_at_rise; lra.
    + apply trimf_at_below; lra.
Qed.

Lemma half_triangles_witness :
  exists d arr0 arrK,
    get_fuzzy_triangle [0; 1; 3] [("low", 0); ("mid", 2); ("high", 3)] = Ok d /\
    Dict.get d "low" = Some arr0 /\
    Dict.get d "high" = Some arrK /\
    forall j, (j < 3)%nat ->
      let v := nth j [0; 1; 3] 0 in
      (v = 0 -> nth j arr0 0 = 1) /\
      (v < 0 -> nth j arr0 0 = 0) /\
      (0 < v < 2 -> nth j arr0 0 = (2 - v) / (2 - 0)) /\
      (2 <= v -> nth j arr0 0 = 0) /\
      (v = 3 -> nth j arrK 0 = 1) /\
      (3 < v -> nth j arrK 0 = 0) /\
      (2 < v < 3 -> nth j arrK 0 = (v - 2) / (3 - 2)) /\
      (v <= 2 -> nth j arrK 0 = 0).
Proof.
  apply (half_triangles [0; 1; 3] "low" 0 "mid" 2 [("high", 3)]
           [("low", 0)] "mid" 2 "high" 3).
  - reflexivity.
  - repeat constructor; simpl; lra.
  - simpl; intuition discriminate.
Defined.

(** ** Rule matching *)

Lemma lookup_pair (im : membership) (fv : string * string) :
  (exists degree,
      (by_value <- Dict.item im (fst fv) ;; Dict.item by_value (snd fv)) = Ok degree /\
      degree_at im fv degree)
  \/ ((by_value <- Dict.item im (fst fv) ;; Dict.item by_value (snd fv))
        = Raise KeyError /\ ~ present im fv).
Proof.
  unfold Dict.item, present, degree_at.
  destruct (Dict.get im (fst fv)) as [by_value|] eqn:E1; simpl.
  - destruct (Dict.get by_value (snd fv)) as [degree|] eqn:E2.
    + left. exists degree. split; [reflexivity|]. now exists by_value.
    + right. split; [reflexivity|].
      intros (degree & by_value' & H1 & H2). congruence.
  - right. split; [reflexivity|].
    intros (degree & by_value' & H1 & H2). congruence.
Qed.

Lemma lookup_degrees_present (im : membership) ante :
  Forall (present im) ante ->
  exists degrees,
    lookup_degrees im ante = Ok degrees /\ Forall2 (degree_at im) ante degrees.
Proof.
  induction 1 as [|fv ante Hfv _ (degrees & IH1 & IH2)].
  - exists []. split; [reflexivity|constructor].
  - destruct (lookup_pair im fv) as [(degree & E & Hd)|[_ Habs]]; [|tauto].
    exists (degree :: degrees). split; [|now constructor].
    unfold lookup_degrees in *. cbn [mapM]. rewrite E. cbn [bind].
    rewrite IH1. reflexivity.
Qed.

Lemma lookup_degrees_absent (im : membership) ante :
  Exists (fun fv => ~ present im fv) ante ->
  lookup_degrees im ante = Raise KeyError.
Proof.
  unfold lookup_degrees.
  induction 1 as [fv ante Habs|fv ante _ IH]; cbn [mapM].
  - destruct (lookup_pair im fv) as [(degree & _ & Hd)|[E _]].
    + exfalso. apply Habs. now exists degree.
    + now rewrite E.
  - destruct (lookup_pair im fv) as [(degree & E & _)|[E _]]; rewrite E.
    + cbn [bind]. now rewrite IH.
    + reflexivity.
Qed.

Lemma fold_min_spec (l : list R) : forall x,
  let m := fold_left (fun m y => if Rlt_dec y m then y else m) l x in
  In m (x :: l) /\ Forall (Rle m) (x :: l).
Proof.
  induction l as [|y l IH]; intros x; simpl.
  - split; [auto|]. constructor; [lra|constructor].
  - destruct (Rlt_dec y x) as [Hlt|Hge].
    + destruct (IH y) as [Hin Hall]. split.
      * simpl in Hin. tauto.
      * inversion Hall as [|? ? Hy Hl]; subst.
        constructor; [lra|]. now constructor.
    + destruct (IH x) as [Hin Hall]. split.
      * simpl in Hin. tauto.
      * inversion Hall as [|? ? Hx Hl]; subst.
        constructor; [exact Hx|]. constructor; [lra|exact Hl].
Qed.

Lemma py_min_spec (l : list R) :
  l <> [] -> exists m, py_min l = Ok m /\ In m l /\ Forall (Rle m) l.
Proof.
  destruct l as [|x l]; [easy|]. intros _.
  eexists. split; [reflexivity|]. apply fold_min_spec.
Qed.

Lemma matching_present (rule : Rule) (im : membership) :
  antecedent rule <> [] ->
  Forall (present im) (antecedent rule) ->
  exists degrees m,
    Forall2 (degree_at im) (antecedent rule) degrees /\
    (forall t_norm d, t_norm degrees = Ok d -> matching rule im t_norm = Ok d) /\
    matching rule im py_min = Ok m /\ In m degrees /\ Forall (Rle m) degrees.
Proof.
  intros Hne Hall.
  destruct (lookup_degrees_present im _ Hall) as (degrees & E & H2).
  assert (Hd : degrees <> []).
  { intros ->. inversion H2 as [Hnil|]. now symmetry in Hnil. }
  destruct (py_min_spec degrees Hd) as (m & Em & Hin & Hle).
  exists degrees, m. split; [exact H2|].
  assert (Ht : forall t_norm d,
             t_norm degrees = Ok d -> matching rule im t_norm = Ok d).
  { intros t_norm d Et. unfold matching. rewrite E. cbn [bind].
    now rewrite Et. }
  auto.
Qed.

Lemma matching_absent (rule : Rule) (im : membership) :
  Exists (fun fv => ~ present im fv) (antecedent rule) ->
  forall t_norm, matching rule im t_norm = Ok 0.
Proof.
  intros Habs t_norm. unfold matching.
  now rewrite (lookup_degrees_absent im _ Habs).
Qed.

Lemma present_or_absent (im : membership) ante :
  Forall (present im) ante \/ Exists (fun fv => ~ present im fv) ante.
Proof.
  induction ante as [|fv ante [IH|IH]].
  - left. constructor.
  - destruct (lookup_pair im fv) as [(degree & _ & Hd)|[_ Habs]].
    + left. constructor; [now exists degree|exact IH].
    + right. now constructor.
  - right. now apply Exists_cons_tl.
Qed.

Lemma matching_returns (rule : Rule) (im : membership) :
  antecedent rule <> [] -> exists d, matching rule im py_min = Ok d.
Proof.
  intros Hne. destruct (present_or_absent im (antecedent rule)) as [Hall|Habs].
  - destruct (matching_present rule im Hne Hall) as (degrees & m & _ & _ & Hm & _).
    now exists m.
  - exists 0. now apply matching_absent.
Qed.

(** C4: for a rule with a non-empty antecedent, if every (feature, value)
    pair of the antecedent is present in the profile, [matching] returns the
    t-norm of the looked-up degrees, which for the default t-norm is their
    minimum; if some pair is absent, it returns exactly 0 and raises
    nothing. *)
Theorem matching_fails_closed (rule : Rule) (im : membership) :
  antecedent rule <> [] ->
  (Forall (present im) (antecedent rule) ->
   exists degrees m,
     Forall2 (degree_at im) (antecedent rule) degrees /\
     (forall t_norm d, t_norm degrees = Ok d -> matching rule im t_norm = Ok d) /\
     matching rule im py_min = Ok m /\ In m degrees /\ Forall (Rle m) degrees)
  /\
  (Exists (fun fv => ~ present im fv) (antecedent rule) ->
   forall t_norm, matching rule im t_norm = Ok 0).
Proof.
  intros Hne. split.
  - now apply matching_present.
  - now apply matching_absent.
Qed.

Lemma matching_fails_closed_witness :
  (Forall (present [("age", [("young", 0.3); ("old", 0.7)])])
          [("age", "young")] ->
   exists degrees m,
     Forall2 (degree_at [("age", [("young", 0.3); ("old", 0.7)])])
             [("age", "young")] degrees /\
     (forall t_norm d,
        t_norm degrees = Ok d ->
        matching {| antecedent := [("age", "young")]; consequent := "A";
                    weight := 1 |}
                 [("age", [("young", 0.3); ("old", 0.7)])] t_norm = Ok d) /\
     matching {| antecedent := [("age", "young")]; consequent := "A";
                 weight := 1 |}
              [("age", [("young", 0.3); ("old", 0.7)])] py_min = Ok m /\
     In m degrees /\ Forall (Rle m) degrees)
  /\
  (Exists (fun fv => ~ present [("age", [("young", 0.3); ("old", 0.7)])] fv)
          [("age", "young")] ->
   forall t_norm,
     matching {| antecedent := [("age", "young")]; consequent := "A";
                 weight := 1 |}
              [("age", [("young", 0.3); ("old", 0.7)])] t_norm = Ok 0).
Proof.
  apply (matching_fails_closed
           {| antecedent := [("age", "young")]; consequent := "A"; weight := 1 |}
           [("age", [("young", 0.3); ("old", 0.7)])]).
  simpl. discriminate.
Defined.

(** C10: with the default t-norm a rule whose antecedent is empty makes
    [matching] raise the [ValueError] of [min] on an empty sequence, whatever
    the profile; the handler turns only a [KeyError] into the degree 0; and
    [matching] returns a degree for every profile exactly when the antecedent
    is non-empty. *)
Theorem matching_empty_antecedent (rule : Rule) (im : membership) :
  (antecedent rule = [] ->
   matching rule im py_min = Raise (ValueError "min() arg is an empty sequence"))
  /\
  (forall t_norm degrees e,
     lookup_degrees im (antecedent rule) = Ok degrees ->
     t_norm degrees = Raise e -> e <> KeyError ->
     matching rule im t_norm = Raise e)
  /\
  ((exists d, matching rule im py_min = Ok d) <-> antecedent rule <> []).
Proof.
  assert (Hempty : antecedent rule = [] ->
            matching rule im py_min
            = Raise (ValueError "min() arg is an empty sequence")).
  { intros E. unfold matching. rewrite E. reflexivity. }
  split; [exact Hempty|]. split.
  - intros t_norm degrees e E Et Hne. unfold matching.
    rewrite E. cbn [bind]. rewrite Et. destruct e; congruence.
  - split.
    + intros [d Hd] E. rewrite (Hempty E) in Hd. discriminate.
    + apply matching_returns.
Qed.

(** ** Leaf aggregation *)

Lemma getd_set_eq (d : Dict.t R) k v : getd (Dict.set d k v) k = v.
Proof. unfold getd. now rewrite Dict_get_set_eq. Qed.

Lemma getd_set_neq (d : Dict.t R) k k' v :
  k <> k' -> getd (Dict.set d k v) k' = getd d k'.
Proof. intros H. unfold getd. now rewrite Dict_get_set_neq. Qed.

Lemma Dict_keys_set_In {V : Type} (d : Dict.t V) k v k' :
  In k' (Dict.keys (Dict.set d k v)) <-> In k' (Dict.keys d) \/ k' = k.
Proof.
  induction d as [|[k0 v0] d IH]; simpl.
  - intuition.
  - destruct (String.eqb_spec k0 k); simpl.
    + subst. intuition.
    + rewrite IH. intuition.
Qed.

Section LeafFold.
Variable op : R -> R -> R.

Local Abbreviation step a :=
  (fun (acc : Dict.t R) (kw : string * R) =>
     Dict.set acc (fst kw) (op (getd acc (fst kw)) (snd kw * a))).

Lemma leaf_step_getd (a : R) (entries : Dict.t R) : forall acc key,
  NoDup (Dict.keys entries) ->
  getd (fold_left (step a) entries acc) key
  = match Dict.get entries key with
    | Some w => op (getd acc key) (w * a)
    | None => getd acc key
    end.
Proof.
  induction entries as [|[k w] entries IH]; intros acc key Hnd; [reflexivity|].
  inversion Hnd as [|? ? Hni Hnd']; subst.
  cbn [fold_left]. rewrite IH by exact Hnd'.
  cbn [Dict.get fst snd].
  destruct (String.eqb_spec k key) as [->|Hne].
  - apply Dict_get_None in Hni. rewrite Hni. apply getd_set_eq.
  - rewrite getd_set_neq by exact Hne. reflexivity.
Qed.

Lemma leaf_step_keys (a : R) (entries : Dict.t R) : forall acc key,
  In key (Dict.keys (fold_left (step a) entries acc))
  <-> In key (Dict.keys acc) \/ In key (Dict.keys entries).
Proof.
  induction entries as [|[k w] entries IH]; intros acc key; simpl.
  - tauto.
  - rewrite IH. cbn [fst snd]. rewrite Dict_keys_set_In.
    intuition.
Qed.

Lemma leaf_fold_getd (all_classes : list leaf) : forall acc key,
  leaves_wf all_classes ->
  getd (leaf_fold op all_classes acc) key
  = fold_left op (leaf_products key all_classes) (getd acc key).
Proof.
  induction all_classes as [|[entries a] ls IH]; intros acc key Hwf;
    [reflexivity|].
  inversion Hwf as [|? ? Hnd Hwf']; subst.
  unfold leaf_fold in *. cbn [fold_left fst snd].
  rewrite IH by exact Hwf'.
  unfold leaf_products. cbn [flat_map fst snd].
  rewrite fold_left_app. f_equal.
  rewrite (leaf_step_getd a entries acc key Hnd).
  now destruct (Dict.get entries key).
Qed.

Lemma leaf_fold_keys (all_classes : list leaf) : forall acc key,
  In key (Dict.keys (leaf_fold op all_classes acc))
  <-> In key (Dict.keys acc) \/ occurs key all_classes.
Proof.
  unfold occurs.
  induction all_classes as [|[entries a] ls IH]; intros acc key.
  - simpl. rewrite Exists_nil. tauto.
  - unfold leaf_fold in *. cbn [fold_left fst snd].
    rewrite IH, leaf_step_keys, Exists_cons. cbn [fst]. tauto.
Qed.

Lemma leaf_fold_get (all_classes : list leaf) (key : string) :
  leaves_wf all_classes ->
  Dict.get (leaf_fold op all_classes Dict.empty) key
  = if Exists_dec (fun lf : leaf => In key (Dict.keys (fst lf))) all_classes
         (fun lf => in_dec string_dec key (Dict.keys (fst lf)))
    then Some (fold_left op (leaf_products key all_classes) 0)
    else None.
Proof.
  intros Hwf.
  pose proof (leaf_fold_getd all_classes Dict.empty key Hwf) as Hg.
  pose proof (leaf_fold_keys all_classes Dict.empty key) as Hk.
  destruct (Exists_dec _ all_classes _) as [Hoc|Hno].
  - destruct (Dict.get (leaf_fold op all_classes Dict.empty) key) eqn:E.
    + unfold getd in Hg. rewrite E in Hg. simpl in Hg. now rewrite Hg.
    + apply Dict_get_None in E. exfalso. apply E, Hk. now right.
  - apply Dict_get_None. rewrite Hk. simpl. intros [[]|H]. now apply Hno.
Qed.
End LeafFold.

Lemma aggregated_vote_fold all_classes :
  _aggregated_vote all_classes = leaf_fold Rplus all_classes Dict.empty.
Proof. reflexivity. Qed.

Lemma maximum_matching_fold all_classes :
  _maximum_matching all_classes = leaf_fold Rmax all_classes Dict.empty.
Proof. reflexivity. Qed.

(** C9: for a list of leaves [(class_weight_mapping, leaf_activation_weight)],
    [_aggregated_vote] maps every class key occurring in some leaf to the sum,
    over the leaves containing the key, of
    [class_weight_mapping[key] * leaf_activation_weight], and
    [_maximum_matching] maps it to the maximum of these products with 0 as the
    floor; neither has other keys.  On the leaves
    [({'A':0.2,'B':0.8}, 1.0)] and [({'A':0.5,'B':0.5}, 0.5)] the results are
    [{'A':0.45,'B':1.05}] and [{'A':0.25,'B':0.8}]. *)
Theorem leaf_votes :
  (forall all_classes key,
     leaves_wf all_classes ->
     (occurs key all_classes ->
      Dict.get (_aggregated_vote all_classes) key
        = Some (leaf_sum key all_classes) /\
      Dict.get (_maximum_matching all_classes) key
        = Some (leaf_max key all_classes)) /\
     (~ occurs key all_classes ->
      Dict.get (_aggregated_vote all_classes) key = None /\
      Dict.get (_maximum_matching all_classes) key = None))
  /\ _aggregated_vote [([("A", 0.2); ("B", 0.8)], 1.0);
                       ([("A", 0.5); ("B", 0.5)], 0.5)]
     = [("A", 0.45); ("B", 1.05)]
  /\ _maximum_matching [([("A", 0.2); ("B", 0.8)], 1.0);
                        ([("A", 0.5); ("B", 0.5)], 0.5)]
     = [("A", 0.25); ("B", 0.8)].
Proof.
  split; [|split].
  - intros all_classes key Hwf.
    rewrite aggregated_vote_fold, maximum_matching_fold.
    rewrite !leaf_fold_get by exact Hwf.
    destruct (Exists_dec _ all_classes _) as [Hoc|Hno]; split; intros H.
    + split; [|reflexivity].
      unfold leaf_sum, Rsum. reflexivity.
    + contradiction.
    + contradiction.
    + split; reflexivity.
  - unfold _aggregated_vote, getd. simpl.
    repeat f_equal; lra.
  - unfold _maximum_matching, getd. simpl.
    rewrite (Rmax_right 0 (0.2 * 1.0)) by lra.
    rewrite (Rmax_right (0.2 * 1.0) (0.5 * 0.5)) by lra.
    rewrite (Rmax_right 0 (0.8 * 1.0)) by lra.
    rewrite (Rmax_left (0.8 * 1.0) (0.5 * 0.5)) by lra.
    repeat f_equal; lra.
Qed.

(** ** The builtin [max] with a key *)

Lemma fold_max_spec {A : Type} (key : A -> R) (l : list A) :
  forall pre m mid,
    (forall y, In y pre -> key y < key m) ->
    (forall y, In y mid -> key y <= key m) ->
    exists l1 l2,
      let res := fold_left (fun m y => if Rlt_dec (key m) (key y) then y else m) l m in
      pre ++ m :: mid ++ l = l1 ++ res :: l2 /\
      (forall y, In y l1 -> key y < key res) /\
      (forall y, In y l2 -> key y <= key res).
Proof.
  induction l as [|y l IH]; intros pre m mid Hpre Hmid.
  - exists pre, mid. simpl. rewrite app_nil_r. auto.
  - cbn [fold_left]. destruct (Rlt_dec (key m) (key y)) as [Hlt|Hge].
    + destruct (IH (pre ++ m :: mid) y []) as (l1 & l2 & E & H1 & H2).
      * intros z Hz. apply in_app_or in Hz. destruct Hz as [Hz|[<-|Hz]].
        -- specialize (Hpre z Hz). lra.
        -- exact Hlt.
        -- specialize (Hmid z Hz). lra.
      * intros z [].
      * exists l1, l2. split; [|auto].
        rewrite <- E. simpl. rewrite <- app_assoc. reflexivity.
    + destruct (IH pre m (mid ++ [y])) as (l1 & l2 & E & H1 & H2).
      * exact Hpre.
      * intros z Hz. apply in_app_or in Hz. destruct Hz as [Hz|[<-|[]]].
        -- now apply Hmid.
        -- lra.
      * exists l1, l2. split; [|auto].
        rewrite <- E. rewrite <- app_assoc. reflexivity.
Qed.

Lemma py_max_spec {A : Type} (key : A -> R) (l : list A) :
  l <> [] ->
  exists m l1 l2,
    py_max key l = Ok m /\ l = l1 ++ m :: l2 /\
    (forall y, In y l1 -> key y < key m) /\
    (forall y, In y l2 -> key y <= key m).
Proof.
  destruct l as [|x l]; [easy|]. intros _.
  destruct (fold_max_spec key l [] x []) as (l1 & l2 & E & H1 & H2);
    try (intros ? []).
  eexists _, l1, l2. split; [reflexivity|]. split; [exact E|]. auto.
Qed.

(** ** Weighted vote *)

Lemma Dict_mem_In {V : Type} (d : Dict.t V) k :
  Dict.mem d k = true <-> In k (Dict.keys d).
Proof.
  unfold Dict.mem. destruct (Dict.get d k) eqn:E.
  - split; [intros _|reflexivity].
    apply Dict_get_Some_In in E. change k with (fst (k, v)).
    now apply in_map.
  - split; [discriminate|]. intros H. now apply Dict_get_None in E.
Qed.

Lemma Dict_keys_set {V : Type} (d : Dict.t V) k v :
  Dict.keys (Dict.set d k v)
  = if Dict.mem d k then Dict.keys d else Dict.keys d ++ [k].
Proof.
  unfold Dict.mem. induction d as [|[k0 v0] d IH]; simpl.
  - reflexivity.
  - destruct (String.eqb_spec k0 k); simpl.
    + reflexivity.
    + rewrite IH. now destruct (Dict.get d k).
Qed.

Lemma Dict_mem_set {V : Type} (d : Dict.t V) k v k' :
  Dict.mem (Dict.set d k v) k' = Dict.mem d k' || String.eqb k' k.
Proof.
  unfold Dict.mem. destruct (String.eqb_spec k' k) as [->|Hne].
  - rewrite Dict_get_set_eq. now rewrite orb_true_r.
  - rewrite Dict_get_set_neq by congruence. now rewrite orb_false_r.
Qed.

Lemma filter_filter {A : Type} (p q : A -> bool) (l : list A) :
  filter p (filter q l) = filter (fun x => q x && p x) l.
Proof.
  induction l as [|x l IH]; simpl; [reflexivity|].
  destruct (q x); simpl; [destruct (p x)|]; now rewrite IH.
Qed.

Lemma first_seen_In (l : list string) x : In x (first_seen l) <-> In x l.
Proof.
  induction l as [|y l IH]; simpl; [tauto|].
  rewrite filter_In, IH, negb_true_iff, String.eqb_neq.
  destruct (string_dec y x); [tauto|]. intuition congruence.
Qed.

Lemma first_seen_NoDup (l : list string) : NoDup (first_seen l).
Proof.
  induction l as [|y l IH]; simpl; constructor.
  - rewrite filter_In, negb_true_iff, String.eqb_neq. tauto.
  - now apply NoDup_filter.
Qed.

Lemma first_seen_split (l1 l2 : list string) (c : string) :
  ~ In c l1 ->
  exists rest, first_seen (l1 ++ c :: l2) = first_seen l1 ++ c :: rest.
Proof.
  induction l1 as [|x l1 IH]; intros Hni.
  - simpl. eauto.
  - destruct IH as [rest IH]; [simpl in Hni; tauto|].
    simpl. rewrite IH, filter_app. simpl.
    assert (E : String.eqb c x = false).
    { apply String.eqb_neq. simpl in Hni. intros ->. tauto. }
    rewrite E. simpl. eauto.
Qed.

Lemma NoDup_split_unique {A : Type} (x : A) (l1 : list A) :
  forall l2 l1' l2',
    NoDup (l1 ++ x :: l2) -> l1 ++ x :: l2 = l1' ++ x :: l2' -> l1 = l1'.
Proof.
  induction l1 as [|y l1 IH]; intros l2 l1' l2' Hnd E.
  - destruct l1' as [|z l1']; [reflexivity|].
    simpl in *. injection E as -> ->.
    inversion Hnd as [|? ? Hni _]; subst.
    exfalso. apply Hni. apply in_or_app. simpl. auto.
  - destruct l1' as [|z l1'].
    + simpl in *. injection E as -> <-.
      inversion Hnd as [|? ? Hni _]; subst.
      exfalso. apply Hni. apply in_or_app. simpl. auto.
    + simpl in *. injection E as -> E. f_equal.
      inversion Hnd; subst. eapply IH; eauto.
Qed.

Lemma first_occurrence (rule_list : list Rule) (c : string) :
  In c (map consequent rule_list) ->
  exists before rule after,
    rule_list = before ++ rule :: after /\ consequent rule = c /\
    ~ In c (map consequent before).
Proof.
  induction rule_list as [|r l IH]; simpl; [easy|].
  destruct (string_dec (consequent r) c) as [E|Hne].
  - intros _. exists [], r, l. auto.
  - intros [H|H]; [contradiction|].
    destruct (IH H) as (before & rule & after & -> & Hc & Hni).
    exists (r :: before), rule, after. simpl. intuition.
Qed.

Lemma vote_total_cons (r : Rule) (l : list Rule) (im : membership) (c : string) :
  vote_total (r :: l) im c
  = (if String.eqb (consequent r) c then activation im r else 0)
    + vote_total l im c.
Proof.
  unfold vote_total. cbn [filter].
  destruct (String.eqb (consequent r) c); cbn [map].
  - now rewrite Rsum_cons.
  - lra.
Qed.

Lemma vote_fold (im : membership) (rule_list : list Rule) : forall d,
  Forall (fun r => antecedent r <> []) rule_list ->
  exists d',
    foldM (fun (conse_dict : Dict.t R) rule =>
             m <- matching rule im py_min ;;
             let AD := m * weight rule in
             Ok (Dict.set conse_dict (consequent rule)
                   (getd conse_dict (consequent rule) + AD)))
          rule_list d = Ok d' /\
    (forall c, getd d' c = getd d c + vote_total rule_list im c) /\
    Dict.keys d'
    = Dict.keys d
        ++ filter (fun c => negb (Dict.mem d c))
             (first_seen (map consequent rule_list)).
Proof.
  induction rule_list as [|r l IH]; intros d Hne.
  - exists d. split; [reflexivity|]. split.
    + intros c. unfold vote_total. simpl. rewrite Rsum_nil. lra.
    + simpl. now rewrite app_nil_r.
  - inversion Hne as [|? ? Hr Hl]; subst.
    destruct (matching_returns r im Hr) as [m Hm].
    cbn [foldM]. rewrite Hm. cbn [bind].
    destruct (IH (Dict.set d (consequent r) (getd d (consequent r) + m * weight r)) Hl)
      as (d' & E & Hget & Hkeys).
    exists d'. split; [exact E|]. split.
    + intros c. rewrite Hget, vote_total_cons.
      unfold activation. rewrite Hm.
      destruct (String.eqb_spec (consequent r) c) as [->|Hne'].
      * rewrite getd_set_eq. lra.
      * rewrite getd_set_neq by exact Hne'. lra.
    + rewrite Hkeys, Dict_keys_set. cbn [map first_seen filter].
      destruct (Dict.mem d (consequent r)) eqn:Emem; cbn [negb].
      * f_equal. rewrite filter_filter. apply filter_ext_in.
        intros c _. rewrite Dict_mem_set.
        destruct (String.eqb_spec c (consequent r)) as [->|_].
        -- rewrite Emem. reflexivity.
        -- cbn [negb]. now rewrite orb_false_r.
      * rewrite <- app_assoc. cbn [app]. do 2 f_equal.
        rewrite filter_filter. apply filter_ext_in.
        intros c _. rewrite Dict_mem_set, negb_orb. apply andb_comm.
Qed.

(** C5, as stated, at a rule list whose only rule has an empty antecedent:
    the list is not empty, yet [weighted_vote] raises the [ValueError] of
    [min] on an empty sequence and returns no consequent. *)
Lemma weighted_vote_empty_antecedent :
  [{| antecedent := []; consequent := "A"; weight := 1 |}] <> [] /\
  weighted_vote [{| antecedent := []; consequent := "A"; weight := 1 |}] []
  = Raise (ValueError "min() arg is an empty sequence") /\
  ~ exists conse,
      weighted_vote [{| antecedent := []; consequent := "A"; weight := 1 |}] []
      = Ok conse.
Proof.
  split; [discriminate|]. split; [reflexivity|].
  intros [conse H]. discriminate.
Qed.

(** C5 (amended): for a non-empty rule list whose rules all have a non-empty
    antecedent, [weighted_vote] returns a consequent [conse] whose accumulated
    sum of activations [matching(instance) * weight] is maximal among the
    consequents of the list; the rules before the first rule with consequent
    [conse] have consequents with strictly smaller sums, so among tied
    consequents the one met first is returned. *)
Theorem weighted_vote_first_maximum (rule_list : list Rule) (im : membership) :
  rule_list <> [] ->
  Forall (fun r => antecedent r <> []) rule_list ->
  exists conse before rule after,
    weighted_vote rule_list im = Ok conse /\
    rule_list = before ++ rule :: after /\
    consequent rule = conse /\
    (forall r, In r before ->
       vote_total rule_list im (consequent r) < vote_total rule_list im conse) /\
    (forall r, In r after ->
       vote_total rule_list im (consequent r) <= vote_total rule_list im conse).
Proof.
  intros Hne Hall.
  destruct (vote_fold im rule_list Dict.empty Hall) as (d & E & Hget & Hkeys).
  assert (Hk : Dict.keys d = first_seen (map consequent rule_list)).
  { rewrite Hkeys. simpl. clear.
    induction (first_seen (map consequent rule_list)) as [|x l IH];
      simpl; congruence. }
  assert (Htot : forall c, getd d c = vote_total rule_list im c).
  { intros c. rewrite Hget. unfold getd. simpl. lra. }
  assert (Hkne : Dict.keys d <> []).
  { rewrite Hk. destruct rule_list; [easy|]. simpl. discriminate. }
  destruct (py_max_spec (getd d) (Dict.keys d) Hkne)
    as (conse & K1 & K2 & Emax & Esplit & H1 & H2).
  assert (Hin : In conse (map consequent rule_list)).
  { apply first_seen_In. rewrite <- Hk, Esplit.
    apply in_or_app. simpl. auto. }
  destruct (first_occurrence rule_list conse Hin)
    as (before & rule & after & Erl & Hc & Hni).
  exists conse, before, rule, after.
  split.
  { unfold weighted_vote. cbv zeta in E |- *. rewrite E. cbn [bind]. exact Emax. }
  split; [exact Erl|]. split; [exact Hc|].
  assert (Hfs : exists rest,
             first_seen (map consequent rule_list)
             = first_seen (map consequent before) ++ conse :: rest).
  { rewrite Erl, map_app. cbn [map]. rewrite Hc.
    now apply first_seen_split. }
  destruct Hfs as [rest Hfs].
  assert (HK1 : K1 = first_seen (map consequent before)).
  { apply (NoDup_split_unique conse K1 K2 _ rest).
    - rewrite <- Esplit, Hk. apply first_seen_NoDup.
    - rewrite <- Esplit, Hk. exact Hfs. }
  split.
  - intros r Hr. rewrite <- !Htot. apply H1.
    rewrite HK1. apply first_seen_In. now apply in_map.
  - intros r Hr. rewrite <- !Htot.
    assert (Hrk : In (consequent r) (Dict.keys d)).
    { rewrite Hk. apply first_seen_In. rewrite Erl.
      apply in_map, in_or_app. simpl. auto. }
    rewrite Esplit in Hrk. apply in_app_or in Hrk.
    destruct Hrk as [Hrk|[<-|Hrk]].
    + specialize (H1 _ Hrk). lra.
    + lra.
    + now apply H2.
Qed.

Lemma weighted_vote_first_maximum_witness :
  exists conse before rule after,
    weighted_vote
      [{| antecedent := [("x", "lo")]; consequent := "A"; weight := 1 |};
       {| antecedent := [("x", "hi")]; consequent := "B"; weight := 1 |}]
      [("x", [("lo", 0.9); ("hi", 0.1)])] = Ok conse /\
    [{| antecedent := [("x", "lo")]; consequent := "A"; weight := 1 |};
     {| antecedent := [("x", "hi")]; consequent := "B"; weight := 1 |}]
    = before ++ rule :: after /\
    consequent rule = conse /\
    (forall r, In r before ->
       vote_total
         [{| antecedent := [("x", "lo")]; consequent := "A"; weight := 1 |};
          {| antecedent := [("x", "hi")]; consequent := "B"; weight := 1 |}]
         [("x", [("lo", 0.9); ("hi", 0.1)])] (consequent r)
       < vote_total
           [{| antecedent := [("x", "lo")]; consequent := "A"; weight := 1 |};
            {| antecedent := [("x", "hi")]; consequent := "B"; weight := 1 |}]
           [("x", [("lo", 0.9); ("hi", 0.1)])] conse) /\
    (forall r, In r after ->
       vote_total
         [{| antecedent := [("x", "lo")]; consequent := "A"; weight := 1 |};
          {| antecedent := [("x", "hi")]; consequent := "B"; weight := 1 |}]
         [("x", [("lo", 0.9); ("hi", 0.1)])] (consequent r)
       <= vote_total
            [{| antecedent := [("x", "lo")]; consequent := "A"; weight := 1 |};
             {| antecedent := [("x", "hi")]; consequent := "B"; weight := 1 |}]
            [("x", [("lo", 0.9); ("hi", 0.1)])] conse).
Proof.
  apply (weighted_vote_first_maximum
           [{| antecedent := [("x", "lo")]; consequent := "A"; weight := 1 |};
            {| antecedent := [("x", "hi")]; consequent := "B"; weight := 1 |}]
           [("x", [("lo", 0.9); ("hi", 0.1)])]).
  - discriminate.
  - repeat constructor; simpl; discriminate.
Defined.

(** ** Rule variable mapping *)

Lemma Dict_update_keys_In {V : Type} (entries : list (string * V)) :
  forall (d : Dict.t V) k,
    In k (Dict.keys (Dict.update d entries))
    <-> In k (Dict.keys d) \/ In k (map fst entries).
Proof.
  induction entries as [|[k0 v0] entries IH]; intros d k.
  - simpl. tauto.
  - unfold Dict.update in *. cbn [fold_left map fst snd].
    rewrite IH, Dict_keys_set_In. simpl. intuition.
Qed.

Lemma dict_of_keys_In {V : Type} (entries : list (string * V)) k :
  In k (Dict.keys (dict_of entries)) <-> In k (map fst entries).
Proof.
  unfold dict_of. rewrite Dict_update_keys_In. simpl. tauto.
Qed.

Lemma same_keys_spec {V W : Type} (d1 : Dict.t V) (d2 : Dict.t W) :
  same_keys d1 d2 = true
  <-> (forall k, In k (Dict.keys d1) <-> In k (Dict.keys d2)).
Proof.
  unfold same_keys. rewrite andb_true_iff, !forallb_forall.
  split.
  - intros [H1 H2] k. split; intros Hk.
    + apply Dict_mem_In. now apply H1.
    + apply Dict_mem_In. now apply H2.
  - intros H. split; intros k Hk; apply Dict_mem_In; now apply H.
Qed.

Lemma mapM_Ok {A B : Type} (f : A -> result B) (l : list A) (ys : list B) :
  mapM f l = Ok ys <-> Forall2 (fun x y => f x = Ok y) l ys.
Proof.
  revert ys; induction l as [|x l IH]; intros ys; simpl.
  - split.
    + intros H; injection H as <-. constructor.
    + intros H; now inversion H.
  - destruct (f x) as [y|e] eqn:E; simpl.
    + destruct (mapM f l) as [ys'|e'] eqn:E'; simpl.
      * split.
        -- intros H; injection H as <-. constructor; [exact E|].
           now apply IH.
        -- intros H; inversion H as [|? y' ? ys'' Hy Hys]; subst.
           apply IH in Hys. congruence.
      * split; [discriminate|].
        intros H; inversion H as [|? y' ? ys'' Hy Hys]; subst.
        apply IH in Hys. discriminate.
    + split; [discriminate|].
      intros H; inversion H; subst. congruence.
Qed.

Lemma mapM_Raise {A B : Type} (f : A -> result B) (l : list A) (e : exn) :
  mapM f l = Raise e -> exists x, In x l /\ f x = Raise e.
Proof.
  induction l as [|x l IH]; simpl; [discriminate|].
  destruct (f x) as [y|e0] eqn:E; simpl.
  - destruct (mapM f l) as [ys|e1]; simpl; [discriminate|].
    intros H; injection H as ->.
    destruct IH as (x' & Hin & Hx'); [reflexivity|]. eauto.
  - intros H; injection H as ->. eauto.
Qed.

Lemma mapM_total {A B : Type} (f : A -> result B) (l : list A) :
  (forall x, In x l -> exists y, f x = Ok y) -> exists ys, mapM f l = Ok ys.
Proof.
  induction l as [|x l IH]; intros H; simpl.
  - eauto.
  - destruct (H x) as [y ->]; [simpl; auto|].
    destruct IH as [ys ->]; [intros; apply H; simpl; auto|].
    simpl. eauto.
Qed.

Lemma Forall2_mapM {A B : Type} (f : A -> result B) (P : A -> B -> Prop)
    (l : list A) (ys : list B) :
  mapM f l = Ok ys ->
  (forall x y, In x l -> f x = Ok y -> P x y) ->
  Forall2 P l ys.
Proof.
  intros H. apply mapM_Ok in H.
  induction H as [|x y l ys Hx _ IH]; intros HP; constructor.
  - apply HP; simpl; auto.
  - apply IH. intros x' y' Hin. apply HP. simpl. auto.
Qed.

Section MapRuleVariablesFacts.
Context {FuzzySet : Type}.
Variable fs_name : FuzzySet -> string.
Variable intersection : FuzzySet -> FuzzySet -> R.

Implicit Types (origin dest : list (FuzzyVariable FuzzySet)).

(** The body of the loop over the antecedent. *)
Local Abbreviation map_pair origin dest :=
  (fun fv : string * string =>
     let (feat, value) := fv in
     origin_feat <- Dict.item (variables_dict origin) feat ;;
     dest_feat <- Dict.item (variables_dict dest) feat ;;
     let origin_fuzzy_sets := sets_dict fs_name origin_feat in
     origin_fs <- Dict.item origin_fuzzy_sets value ;;
     dest_fs <- py_max (fun fs => intersection fs origin_fs) dest_feat ;;
     Ok (feat, fs_name dest_fs)).

Lemma variables_dict_keys origin name :
  In name (Dict.keys (variables_dict origin)) <-> In name (map fv_name origin).
Proof.
  unfold variables_dict. rewrite dict_of_keys_In, map_map. reflexivity.
Qed.

Lemma same_names origin dest :
  same_keys (variables_dict origin) (variables_dict dest) = true
  <-> (forall name, In name (map fv_name origin) <-> In name (map fv_name dest)).
Proof.
  rewrite same_keys_spec. split; intros H name.
  - rewrite <- !variables_dict_keys. apply H.
  - rewrite !variables_dict_keys. apply H.
Qed.

Lemma map_pair_raises origin dest fv e :
  map_pair origin dest fv = Raise e ->
  e = KeyError \/ e = ValueError "max() arg is an empty sequence".
Proof.
  destruct fv as [feat value]. unfold Dict.item.
  destruct (Dict.get (variables_dict origin) feat) as [origin_feat|]; simpl;
    [|intros H; injection H as <-; auto].
  destruct (Dict.get (variables_dict dest) feat) as [dest_feat|]; simpl;
    [|intros H; injection H as <-; auto].
  destruct (Dict.get (sets_dict fs_name origin_feat) value) as [origin_fs|];
    simpl; [|intros H; injection H as <-; auto].
  destruct dest_feat as [|fs dest_feat]; simpl.
  - intros H; injection H as <-; auto.
  - discriminate.
Qed.

Lemma map_pair_ok origin dest feat value origin_feat dest_feat origin_fs :
  Dict.get (variables_dict origin) feat = Some origin_feat ->
  Dict.get (variables_dict dest) feat = Some dest_feat ->
  Dict.get (sets_dict fs_name origin_feat) value = Some origin_fs ->
  dest_feat <> [] ->
  exists dest_fs,
    map_pair origin dest (feat, value) = Ok (feat, fs_name dest_fs) /\
    In dest_fs dest_feat /\
    forall fs, In fs dest_feat ->
      intersection fs origin_fs <= intersection dest_fs origin_fs.
Proof.
  intros H1 H2 H3 Hne. unfold Dict.item. rewrite H1, H2. cbn [bind].
  rewrite H3. cbn [bind].
  destruct (py_max_spec (fun fs => intersection fs origin_fs) dest_feat Hne)
    as (dest_fs & l1 & l2 & E & Esplit & Hlt & Hle).
  exists dest_fs. rewrite E. cbn [bind]. split; [reflexivity|]. split.
  - rewrite Esplit. apply in_or_app. simpl. auto.
  - intros fs Hin. rewrite Esplit in Hin. apply in_app_or in Hin.
    destruct Hin as [Hin|[<-|Hin]].
    + specialize (Hlt _ Hin). simpl in Hlt. lra.
    + lra.
    + now apply Hle.
Qed.

(** C6 (amended): [map_rule_variables] raises the domain-mismatch error if and
    only if the feature-name sets of the origin and destination collections
    differ; when the name sets are equal, every antecedent value names an
    existing origin fuzzy set and the destination variable of every antecedent
    feature has at least one fuzzy set, it returns a new rule with the same
    consequent and weight, whose antecedent keeps each feature name and
    replaces each value by the name of a destination set maximizing the
    intersection with the origin set of that value. *)
Theorem map_rule_variables_spec (rule : Rule) origin dest :
  (map_rule_variables fs_name intersection rule origin dest
     = Raise universes_error
   <-> ~ (forall name,
            In name (map fv_name origin) <-> In name (map fv_name dest)))
  /\
  ((forall name, In name (map fv_name origin) <-> In name (map fv_name dest)) ->
   (forall feat value,
      In (feat, value) (antecedent rule) ->
      exists origin_feat dest_feat,
        Dict.get (variables_dict origin) feat = Some origin_feat /\
        Dict.mem (sets_dict fs_name origin_feat) value = true /\
        Dict.get (variables_dict dest) feat = Some dest_feat /\
        dest_feat <> []) ->
   exists new_rule,
     map_rule_variables fs_name intersection rule origin dest = Ok new_rule /\
     consequent new_rule = consequent rule /\
     weight new_rule = weight rule /\
     Forall2
       (fun old new : string * string =>
          fst new = fst old /\
          exists origin_feat dest_feat origin_fs dest_fs,
            Dict.get (variables_dict origin) (fst old) = Some origin_feat /\
            Dict.get (variables_dict dest) (fst old) = Some dest_feat /\
            Dict.get (sets_dict fs_name origin_feat) (snd old) = Some origin_fs /\
            In dest_fs dest_feat /\
            snd new = fs_name dest_fs /\
            forall fs, In fs dest_feat ->
              intersection fs origin_fs <= intersection dest_fs origin_fs)
       (antecedent rule) (antecedent new_rule)).
Proof.
  split.
  - unfold map_rule_variables.
    destruct (same_keys (variables_dict origin) (variables_dict dest)) eqn:Ek;
      cbn [negb].
    + split.
      * intros H.
        destruct (mapM (map_pair origin dest) (antecedent rule)) as [ys|e] eqn:Em;
          cbn [bind] in H; [discriminate|].
        apply mapM_Raise in Em. destruct Em as (fv & _ & Hfv).
        apply map_pair_raises in Hfv. injection H as ->.
        destruct Hfv as [Hfv|Hfv]; discriminate.
      * intros Hdiff. exfalso. apply Hdiff. now apply same_names.
    + split; [|reflexivity].
      intros _ Hsame. apply same_names in Hsame. congruence.
  - intros Hsame Hante.
    apply same_names in Hsame.
    assert (Hpair : forall fv, In fv (antecedent rule) ->
              exists new : string * string,
                map_pair origin dest fv = Ok new /\
                fst new = fst fv /\
                exists origin_feat dest_feat origin_fs dest_fs,
                  Dict.get (variables_dict origin) (fst fv) = Some origin_feat /\
                  Dict.get (variables_dict dest) (fst fv) = Some dest_feat /\
                  Dict.get (sets_dict fs_name origin_feat) (snd fv) = Some origin_fs /\
                  In dest_fs dest_feat /\
                  snd new = fs_name dest_fs /\
                  forall fs, In fs dest_feat ->
                    intersection fs origin_fs <= intersection dest_fs origin_fs).
    { intros [feat value] Hin.
      destruct (Hante feat value Hin) as (origin_feat & dest_feat & H1 & H2 & H3 & H4).
      unfold Dict.mem in H2.
      destruct (Dict.get (sets_dict fs_name origin_feat) value) as [origin_fs|] eqn:E;
        [|discriminate].
      destruct (map_pair_ok origin dest feat value _ _ _ H1 H3 E H4)
        as (dest_fs & Eok & Hin' & Hmax).
      exists (feat, fs_name dest_fs). split; [exact Eok|]. split; [reflexivity|].
      exists origin_feat, dest_feat, origin_fs, dest_fs. cbn [fst snd].
      repeat split; try assumption; reflexivity. }
    assert (Hall : exists ys,
              mapM (map_pair origin dest) (antecedent rule) = Ok ys).
    { apply mapM_total. intros fv Hin.
      destruct (Hpair fv Hin) as (new & E & _). eauto. }
    destruct Hall as [ys Hys].
    exists {| antecedent := ys; consequent := consequent rule;
              weight := weight rule |}.
    split.
    { unfold map_rule_variables. cbv zeta in Hys |- *.
      rewrite Hsame. cbn [negb]. rewrite Hys. reflexivity. }
    split; [reflexivity|]. split; [reflexivity|].
    cbn [antecedent]. apply (Forall2_mapM _ _ _ _ Hys).
    intros fv new Hin Hfv.
    destruct (Hpair fv Hin) as (new' & E & Hnew).
    cbv zeta in E, Hfv. rewrite Hfv in E. injection E as <-. exact Hnew.
Qed.
End MapRuleVariablesFacts.

(** C6, as stated, at a destination variable without fuzzy sets: the name sets
    are equal and the antecedent value names an existing origin set, yet the
    call returns no rule: it raises the [ValueError] of [max] on an empty
    sequence. *)
Lemma map_rule_variables_empty_destination :
  (forall name,
     In name (map fv_name [{| fv_name := "x"; fuzzy_sets := ["lo"] |}])
     <-> In name (map fv_name [{| fv_name := "x"; fuzzy_sets := @nil string |}]))
  /\
  Dict.get (sets_dict (fun fs : string => fs) ["lo"]) "lo" = Some "lo" /\
  map_rule_variables (fun fs : string => fs) (fun _ _ => 0)
    {| antecedent := [("x", "lo")]; consequent := "A"; weight := 1 |}
    [{| fv_name := "x"; fuzzy_sets := ["lo"] |}]
    [{| fv_name := "x"; fuzzy_sets := [] |}]
  = Raise (ValueError "max() arg is an empty sequence").
Proof.
  split; [simpl; tauto|]. split; reflexivity.
Qed.

(** ** [np.unique] *)

Section UniqueFacts.
Context {A : Type} (cmp : A -> A -> comparison).
Hypothesis cmp_eq : forall x y, cmp x y = Eq <-> x = y.
Hypothesis cmp_antisym : forall x y, cmp x y = CompOpp (cmp y x).
Hypothesis cmp_trans : forall x y z, cmp x y = Lt -> cmp y z = Lt -> cmp x z = Lt.

Local Abbreviation lt := (fun x y => cmp x y = Lt).

Lemma insert_unique_In (x : A) (l : list A) (z : A) :
  In z (insert_unique cmp x l) <-> z = x \/ In z l.
Proof.
  induction l as [|y l IH]; simpl.
  - intuition.
  - destruct (cmp x y) eqn:E; simpl.
    + apply cmp_eq in E. subst. intuition.
    + intuition.
    + rewrite IH. intuition.
Qed.

Lemma insert_unique_sorted (x : A) (l : list A) :
  StronglySorted lt l -> StronglySorted lt (insert_unique cmp x l).
Proof.
  induction 1 as [|y l Hs IH Hall]; simpl.
  - repeat constructor.
  - destruct (cmp x y) eqn:E.
    + now constructor.
    + constructor; [now constructor|].
      constructor; [exact E|].
      rewrite Forall_forall in *. intros z Hz. eapply cmp_trans; eauto.
    + constructor; [exact IH|].
      rewrite Forall_forall in *. intros z Hz.
      apply insert_unique_In in Hz. destruct Hz as [->|Hz]; [|auto].
      rewrite cmp_antisym, E. reflexivity.
Qed.

Lemma unique_In (l : list A) (z : A) : In z (unique cmp l) <-> In z l.
Proof.
  induction l as [|x l IH]; simpl; [tauto|].
  rewrite insert_unique_In, IH. intuition.
Qed.

Lemma unique_sorted (l : list A) : StronglySorted lt (unique cmp l).
Proof.
  induction l as [|x l IH]; simpl; [constructor|].
  now apply insert_unique_sorted.
Qed.

Lemma sorted_NoDup (l : list A) : StronglySorted lt l -> NoDup l.
Proof.
  induction 1 as [|y l Hs IH Hall]; constructor; [|exact IH].
  intros Hin. rewrite Forall_forall in Hall. specialize (Hall _ Hin).
  assert (E : cmp y y = Eq) by now apply cmp_eq. congruence.
Qed.

Lemma unique_NoDup (l : list A) : NoDup (unique cmp l).
Proof. apply sorted_NoDup, unique_sorted. Qed.
End UniqueFacts.

Lemma np_unique_labels_In (l : list string) (z : string) :
  In z (np_unique_labels l) <-> In z l.
Proof. apply unique_In. apply OrderedTypeEx.String_as_OT.cmp_eq. Qed.

Lemma np_unique_labels_NoDup (l : list string) : NoDup (np_unique_labels l).
Proof.
  apply unique_NoDup.
  - apply OrderedTypeEx.String_as_OT.cmp_eq.
  - apply OrderedTypeEx.String_as_OT.cmp_antisym.
  - intros x y z H1 H2.
    apply OrderedTypeEx.String_as_OT.cmp_lt in H1, H2.
    apply OrderedTypeEx.String_as_OT.cmp_lt.
    eapply OrderedTypeEx.String_as_OT.lt_trans; eauto.
Qed.

Lemma Rcompare_Lt x y : Rcompare x y = Lt <-> x < y.
Proof.
  unfold Rcompare. destruct (total_order_T x y) as [[H|H]|H];
    split; intros; try discriminate; try reflexivity; lra.
Qed.

Lemma Rcompare_Eq x y : Rcompare x y = Eq <-> x = y.
Proof.
  unfold Rcompare. destruct (total_order_T x y) as [[H|H]|H];
    split; intros; try discriminate; try reflexivity; lra.
Qed.

Lemma Rcompare_antisym x y : Rcompare x y = CompOpp (Rcompare y x).
Proof.
  unfold Rcompare.
  destruct (total_order_T x y) as [[H|H]|H];
    destruct (total_order_T y x) as [[H'|H']|H']; simpl;
    try reflexivity; lra.
Qed.

Lemma np_unique_In (l : list R) (z : R) : In z (np_unique l) <-> In z l.
Proof. apply unique_In. apply Rcompare_Eq. Qed.

Lemma np_unique_sorted (l : list R) : StronglySorted Rlt (np_unique l).
Proof.
  assert (H : StronglySorted (fun x y => Rcompare x y = Lt) (np_unique l)).
  { apply unique_sorted.
    - apply Rcompare_Eq.
    - apply Rcompare_antisym.
    - intros x y z H1 H2. apply Rcompare_Lt in H1, H2. apply Rcompare_Lt. lra. }
  induction H as [|x l' Hs IH Hall]; constructor; [exact IH|].
  rewrite Forall_forall in *. intros z Hz. now apply Rcompare_Lt, Hall.
Qed.

(** ** Fuzzy entropy *)

Lemma Rsum_map_perm {A : Type} (f : A -> R) (l l' : list A) :
  Permutation l l' -> Rsum (map f l) = Rsum (map f l').
Proof.
  induction 1; simpl; rewrite ?Rsum_cons; lra.
Qed.

Lemma class_cardinality_nil_l value classes :
  class_cardinality value [] classes = 0.
Proof. reflexivity. Qed.

Lemma class_cardinality_cons value t triangle c classes :
  class_cardinality value (t :: triangle) (c :: classes)
  = (if String.eqb c value then t else 0)
    + class_cardinality value triangle classes.
Proof.
  unfold class_cardinality. cbn [combine filter snd].
  destruct (String.eqb c value); cbn [map fst].
  - now rewrite Rsum_cons.
  - lra.
Qed.

Lemma class_fuzzy_cardinality_ok value triangle : forall classes acc,
  List.length triangle = List.length classes ->
  class_fuzzy_cardinality value triangle classes acc
  = Ok (acc + class_cardinality value triangle classes).
Proof.
  induction triangle as [|t triangle IH]; intros classes acc Hlen.
  - simpl. rewrite class_cardinality_nil_l. f_equal. lra.
  - destruct classes as [|c classes]; [discriminate|].
    simpl in Hlen. cbn [class_fuzzy_cardinality].
    rewrite IH by lia. rewrite class_cardinality_cons.
    f_equal. destruct (String.eqb c value); lra.
Qed.

Lemma class_cardinality_bounds value triangle : forall classes,
  Forall (fun d => 0 <= d) triangle ->
  List.length triangle = List.length classes ->
  0 <= class_cardinality value triangle classes <= Rsum triangle.
Proof.
  induction triangle as [|t triangle IH]; intros classes Hpos Hlen.
  - rewrite class_cardinality_nil_l, Rsum_nil. lra.
  - destruct classes as [|c classes]; [discriminate|].
    inversion Hpos as [|? ? Ht Hpos']; subst.
    rewrite class_cardinality_cons, Rsum_cons.
    specialize (IH classes Hpos' ltac:(simpl in Hlen; lia)).
    destruct (String.eqb c value); lra.
Qed.


(** The contribution of one class value to the loop of [fuzzy_entropy]. *)
Lemma entropy_step triangle classes fe value :
  Forall (fun d => 0 <= d) triangle ->
  List.length triangle = List.length classes ->
  (cfc <- class_fuzzy_cardinality value triangle classes 0 ;;
   if Rlt_dec 0 cfc then
     let fuzzy_cardinality := Rsum triangle in
     ratio <- np_divide cfc fuzzy_cardinality ;;
     l <- log2 ratio ;;
     Ok (fe + - ratio * l)
   else Ok fe)
  = Ok (if Rltb 0 (class_cardinality value triangle classes)
        then fe + entropy_term triangle classes value else fe).
Proof.
  intros Hpos Hlen.
  rewrite class_fuzzy_cardinality_ok by exact Hlen. cbn [bind].
  rewrite Rplus_0_l.
  pose proof (class_cardinality_bounds value triangle classes Hpos Hlen) as Hb.
  unfold Rltb.
  destruct (Rlt_dec 0 (class_cardinality value triangle classes)) as [Hlt|Hge];
    [|reflexivity].
  cbv zeta. unfold np_divide.
  destruct (Req_dec_T (Rsum triangle) 0) as [E0|Hne]; [lra|].
  cbn [bind]. unfold log2.
  assert (Hr : 0 < class_cardinality value triangle classes / Rsum triangle).
  { apply Rdiv_lt_0_compat; lra. }
  destruct (Rlt_dec 0 (class_cardinality value triangle classes / Rsum triangle));
    [|contradiction].
  reflexivity.
Qed.

Lemma fuzzy_entropy_fold triangle classes :
  Forall (fun d => 0 <= d) triangle ->
  List.length triangle = List.length classes ->
  forall values acc,
    foldM (fun fe value =>
             cfc <- class_fuzzy_cardinality value triangle classes 0 ;;
             if Rlt_dec 0 cfc then
               let fuzzy_cardinality := Rsum triangle in
               ratio <- np_divide cfc fuzzy_cardinality ;;
               l <- log2 ratio ;;
               Ok (fe + - ratio * l)
             else Ok fe)
          values acc
    = Ok (acc + Rsum (map (entropy_term triangle classes)
                        (filter (fun value =>
                                   Rltb 0 (class_cardinality value triangle classes))
                           values))).
Proof.
  intros Hpos Hlen values.
  induction values as [|value values IH]; intros acc.
  - simpl. rewrite Rsum_nil. f_equal. lra.
  - cbn [foldM filter].
    rewrite entropy_step by assumption. cbn [bind]. rewrite IH.
    destruct (Rltb 0 (class_cardinality value triangle classes)).
    + cbn [map]. rewrite Rsum_cons. f_equal. lra.
    + reflexivity.
Qed.

Lemma fuzzy_entropy_sorted_formula triangle classes :
  Forall (fun d => 0 <= d) triangle ->
  List.length triangle = List.length classes ->
  fuzzy_entropy triangle classes
  = Ok (Rsum (map (entropy_term triangle classes)
                (filter (fun value =>
                           Rltb 0 (class_cardinality value triangle classes))
                   (np_unique_labels classes)))).
Proof.
  intros Hpos Hlen. unfold fuzzy_entropy.
  etransitivity; [apply (fuzzy_entropy_fold triangle classes Hpos Hlen)|].
  f_equal. lra.
Qed.

Lemma filter_perm {A : Type} (p : A -> bool) (l l' : list A) :
  Permutation l l' -> Permutation (filter p l) (filter p l').
Proof.
  induction 1; simpl.
  - constructor.
  - destruct (p x); [now constructor|assumption].
  - destruct (p x), (p y); try reflexivity. constructor.
  - etransitivity; eauto.
Qed.

Lemma fuzzy_entropy_formula triangle classes :
  Forall (fun d => 0 <= d) triangle ->
  List.length triangle = List.length classes ->
  fuzzy_entropy triangle classes = Ok (entropy_formula triangle classes).
Proof.
  intros Hpos Hlen. rewrite fuzzy_entropy_sorted_formula by assumption.
  f_equal. unfold entropy_formula. apply Rsum_map_perm, filter_perm.
  apply NoDup_Permutation.
  - apply np_unique_labels_NoDup.
  - apply NoDup_nodup.
  - intros x. rewrite np_unique_labels_In, nodup_In. reflexivity.
Qed.




Lemma Rsum_map_zero {A : Type} (f : A -> R) (l : list A) :
  (forall x, In x l -> f x = 0) -> Rsum (map f l) = 0.
Proof.
  induction l as [|x l IH]; intros H; simpl.
  - apply Rsum_nil.
  - rewrite Rsum_cons, IH, H.
    + lra.
    + simpl; auto.
    + intros y Hy. apply H. simpl; auto.
Qed.




(** ** Fuzzy entropy of crisp sets *)



(** ** The discretizer: maximum, triangles and their cardinalities *)

Lemma fold_max_R (l : list R) : forall x,
  let M := fold_left Rmax l x in
  In M (x :: l) /\ Forall (fun y => y <= M) (x :: l).
Proof.
  induction l as [|y l IH]; intros x; simpl.
  - split; [auto|]. constructor; [lra|constructor].
  - destruct (IH (Rmax x y)) as [Hin Hall].
    inversion Hall as [|? ? Hm Hl]; subst. split.
    + destruct Hin as [Hin|Hin]; [|auto].
      rewrite <- Hin. unfold Rmax. destruct (Rle_dec x y); auto.
    + pose proof (Rmax_l x y). pose proof (Rmax_r x y).
      constructor; [lra|]. constructor; [lra|exact Hl].
Qed.

Lemma array_max_spec (variable : list R) :
  variable <> [] ->
  exists M, array_max variable = Ok M /\ In M variable /\
            Forall (fun y => y <= M) variable.
Proof.
  destruct variable as [|x l]; [easy|]. intros _.
  eexists. split; [reflexivity|]. apply fold_max_R.
Qed.

Lemma triangle_low_high variable m M :
  m <= M ->
  get_fuzzy_triangle variable [("low", m); ("high", M)]
  = Ok (low_high variable m M).
Proof.
  intros H. unfold get_fuzzy_triangle, index. cbn [nth_error bind snd fst].
  rewrite trimf_ok by lra. cbn [bind List.length Nat.sub interior_triangles].
  cbn [nth_error bind snd fst].
  rewrite trimf_ok by lra. reflexivity.
Qed.

Lemma triangle_low_mid_high variable m p M :
  m <= p -> p <= M ->
  get_fuzzy_triangle variable [("low", m); ("mid", p); ("high", M)]
  = Ok (low_mid_high variable m p M).
Proof.
  intros H1 H2. unfold get_fuzzy_triangle, index. cbn [nth_error bind snd fst].
  rewrite trimf_ok by lra.
  cbn [bind List.length Nat.sub interior_triangles].
  unfold index. cbn [nth_error bind snd fst Nat.add].
  rewrite trimf_ok by lra. cbn [bind interior_triangles nth_error snd fst].
  rewrite trimf_ok by lra. reflexivity.
Qed.

Lemma trimf_degrees a b c (variable : list R) (n : nat) :
  List.length variable = n ->
  Forall (fun x => 0 <= x) (map (trimf_at a b c) variable) /\
  List.length (map (trimf_at a b c) variable) = n.
Proof.
  intros <-. split; [|apply length_map].
  apply Forall_forall. intros x Hx. apply in_map_iff in Hx.
  destruct Hx as (y & <- & _). apply trimf_at_range.
Qed.

Lemma low_high_table variable m M :
  degree_table (List.length variable) (low_high variable m M).
Proof.
  unfold degree_table, low_high.
  repeat (apply Forall_cons; [apply trimf_degrees; reflexivity|]).
  apply Forall_nil.
Qed.

Lemma low_mid_high_table variable m p M :
  degree_table (List.length variable) (low_mid_high variable m p M).
Proof.
  unfold degree_table, low_mid_high.
  repeat (apply Forall_cons; [apply trimf_degrees; reflexivity|]).
  apply Forall_nil.
Qed.

Lemma Rsum_ge_member (l : list R) (x : R) :
  Forall (fun y => 0 <= y) l -> In x l -> x <= Rsum l.
Proof.
  induction 1 as [|y l Hy Hl IH]; intros Hin; [easy|].
  rewrite Rsum_cons. pose proof (Rsum_nonneg l Hl).
  destruct Hin as [->|Hin]; [lra|]. specialize (IH Hin). lra.
Qed.

Lemma high_cardinality a M (variable : list R) :
  In M variable -> 1 <= Rsum (map (trimf_at a M M) variable).
Proof.
  intros Hin. apply Rsum_ge_member.
  - apply (trimf_degrees a M M variable _ eq_refl).
  - apply in_map_iff. exists M. split; [apply trimf_at_peak|exact Hin].
Qed.

(** ** Weighted fuzzy entropy *)

Lemma wfe_fold (classes : list string) (d : Dict.t (list R)) :
  degree_table (List.length classes) d ->
  forall acc : R * R,
    foldM (fun (acc : R * R) (entry : string * list R) =>
             let (wef, crisp_cardinality) := acc in
             let fuzzy_cardinality := Rsum (snd entry) in
             fent <- fuzzy_entropy (snd entry) classes ;;
             Ok (wef + fuzzy_cardinality * fent,
                 crisp_cardinality + fuzzy_cardinality))
          d acc
    = Ok (fst acc
          + Rsum (map (fun e : string * list R =>
                         Rsum (snd e) * entropy_formula (snd e) classes) d),
          snd acc + Rsum (map (fun e : string * list R => Rsum (snd e)) d)).
Proof.
  induction 1 as [|e d [Hpos Hlen] _ IH]; intros [wef crisp].
  - simpl. rewrite !Rsum_nil. do 2 f_equal; lra.
  - cbn [foldM]. cbv zeta.
    rewrite fuzzy_entropy_formula by assumption. cbn [bind].
    rewrite IH. cbn [fst snd map]. rewrite !Rsum_cons. do 2 f_equal; lra.
Qed.

Lemma wfe_ok (classes : list string) (d : Dict.t (list R)) :
  degree_table (List.length classes) d ->
  0 < Rsum (map (fun e : string * list R => Rsum (snd e)) d) ->
  weighted_fuzzy_entropy d classes = Ok (wfe_formula d classes).
Proof.
  intros Ht Hpos. unfold weighted_fuzzy_entropy.
  destruct d as [|e d]; [simpl in Hpos; rewrite Rsum_nil in Hpos; lra|].
  pose proof (wfe_fold classes (e :: d) Ht (0, 0)) as E.
  cbv beta iota zeta in E |- *. rewrite E. cbn [bind fst snd].
  unfold np_divide. rewrite !Rplus_0_l.
  destruct (Req_dec_T _ 0) as [E0|_]; [lra|]. reflexivity.
Qed.

Lemma low_high_cardinality variable m M :
  In M variable ->
  0 < Rsum (map (fun e : string * list R => Rsum (snd e)) (low_high variable m M)).
Proof.
  intros Hin. unfold low_high. cbn [map snd].
  rewrite !Rsum_cons, Rsum_nil.
  pose proof (high_cardinality m M variable Hin).
  pose proof (Rsum_nonneg _ (proj1 (trimf_degrees m m M variable _ eq_refl))).
  lra.
Qed.

Lemma low_mid_high_cardinality variable m p M :
  In M variable ->
  0 < Rsum (map (fun e : string * list R => Rsum (snd e))
              (low_mid_high variable m p M)).
Proof.
  intros Hin. unfold low_mid_high. cbn [map snd].
  rewrite !Rsum_cons, Rsum_nil.
  pose proof (high_cardinality p M variable Hin).
  pose proof (Rsum_nonneg _ (proj1 (trimf_degrees m m p variable _ eq_refl))).
  pose proof (Rsum_nonneg _ (proj1 (trimf_degrees m p M variable _ eq_refl))).
  lra.
Qed.

(** ** The delta of the stopping rule *)

Lemma unique_count (l : list string) :
  List.length (np_unique_labels l) = distinct_count l.
Proof.
  unfold distinct_count. apply Permutation_length, NoDup_Permutation.
  - apply np_unique_labels_NoDup.
  - apply NoDup_nodup.
  - intros x. rewrite np_unique_labels_In, nodup_In. reflexivity.
Qed.

Lemma distinct_count_pos (l : list string) : l <> [] -> (1 <= distinct_count l)%nat.
Proof.
  destruct l as [|x l]; [easy|]. intros _. unfold distinct_count.
  assert (H : In x (nodup string_dec (x :: l))) by (apply nodup_In; simpl; auto).
  destruct (nodup string_dec (x :: l)); [easy|]. simpl. lia.
Qed.

Lemma pow3_minus2 (k : nat) : (1 <= k)%nat -> 0 < 3 ^ k - 2.
Proof.
  intros Hk. destruct k as [|k]; [lia|].
  assert (1 <= 3 ^ k) by (apply pow_R1_Rle; lra).
  simpl. lra.
Qed.

Lemma boolean_index_ok (arr : list R) : forall classes : list string,
  List.length arr = List.length classes ->
  boolean_index classes (map (Rltb 0) arr) = Ok (positive_classes arr classes).
Proof.
  induction arr as [|t arr IH]; intros [|c classes] Hlen; try discriminate.
  - reflexivity.
  - cbn [map boolean_index]. rewrite IH by (simpl in Hlen; lia).
    cbn [bind]. unfold positive_classes. cbn [combine filter fst].
    now destruct (Rltb 0 t).
Qed.

Lemma old_entropy_fold (classes : list string) (k : nat) (d : Dict.t (list R)) :
  degree_table (List.length classes) d ->
  forall acc,
    foldM (fun acc (entry : string * list R) =>
             fe <- fuzzy_entropy (snd entry) classes ;;
             Ok (acc + INR k * fe))
          d acc
    = Ok (acc + Rsum (map (fun e : string * list R =>
                             INR k * entropy_formula (snd e) classes) d)).
Proof.
  induction 1 as [|e d [Hpos Hlen] _ IH]; intros acc.
  - simpl. rewrite Rsum_nil. f_equal; lra.
  - cbn [foldM]. rewrite fuzzy_entropy_formula by assumption. cbn [bind].
    rewrite IH. cbn [map]. rewrite Rsum_cons. f_equal; lra.
Qed.

Lemma new_entropy_fold (classes : list string) (d : Dict.t (list R)) :
  degree_table (List.length classes) d ->
  forall acc,
    foldM (fun acc (entry : string * list R) =>
             let bft := snd entry in
             classes' <- boolean_index classes (map (Rltb 0) bft) ;;
             let new_n_classes := List.length (np_unique_labels classes') in
             fe <- fuzzy_entropy bft classes ;;
             Ok (acc + INR new_n_classes * fe))
          d acc
    = Ok (acc + Rsum (map (fun e : string * list R =>
                             INR (distinct_count (positive_classes (snd e) classes))
                             * entropy_formula (snd e) classes) d)).
Proof.
  induction 1 as [|e d [Hpos Hlen] _ IH]; intros acc.
  - simpl. rewrite Rsum_nil. f_equal; lra.
  - cbn [foldM]. cbv zeta. rewrite boolean_index_ok by assumption.
    cbn [bind]. rewrite fuzzy_entropy_formula by assumption. cbn [bind].
    cbv zeta in IH. rewrite IH. cbn [map]. rewrite Rsum_cons, unique_count.
    f_equal; lra.
Qed.

(** [math.pow(3, k)] overflows from [k = 647] on. *)
Lemma pow3_IZR (n : nat) : 3 ^ n = IZR (3 ^ Z.of_nat n).
Proof. exact (pow_IZR 3 n). Qed.

Lemma pow3_below_overflow (n : nat) : (n < 647)%nat -> 3 ^ n < double_overflow.
Proof.
  intros Hn. apply Rle_lt_trans with (3 ^ 646).
  - apply Rle_pow; [lra|lia].
  - rewrite pow3_IZR. unfold double_overflow. apply IZR_lt.
    vm_compute. reflexivity.
Qed.

Lemma pow3_above_overflow (n : nat) : (647 <= n)%nat -> double_overflow <= 3 ^ n.
Proof.
  intros Hn. apply Rle_trans with (3 ^ 647).
  - rewrite pow3_IZR. unfold double_overflow. apply IZR_le.
    vm_compute. discriminate.
  - apply Rle_pow; [lra|lia].
Qed.

Lemma math_pow_3 (n : nat) :
  math_pow 3 n = if (n <? 647)%nat then Ok (3 ^ n) else Raise OverflowError.
Proof.
  unfold math_pow.
  assert (Hpos : 0 < 3 ^ n) by (apply pow_lt; lra).
  rewrite Rabs_pos_eq by lra.
  destruct (n <? 647)%nat eqn:E.
  - apply Nat.ltb_lt in E. pose proof (pow3_below_overflow n E).
    destruct (Rle_dec double_overflow (3 ^ n)); [lra|reflexivity].
  - apply Nat.ltb_ge in E. pose proof (pow3_above_overflow n E).
    destruct (Rle_dec double_overflow (3 ^ n)); [reflexivity|lra].
Qed.

Lemma get_delta_point_eq (classes : list string) (global best : Dict.t (list R)) :
  degree_table (List.length classes) global ->
  degree_table (List.length classes) best ->
  classes <> [] ->
  get_delta_point global best classes
  = if (distinct_count classes <? 647)%nat
    then Ok (spec_delta global best classes)
    else Raise OverflowError.
Proof.
  intros Hg Hb Hne. unfold get_delta_point. cbv zeta.
  rewrite (old_entropy_fold classes _ global Hg). cbn [bind].
  pose proof (new_entropy_fold classes best Hb 0) as E.
  cbv zeta in E. rewrite E. cbn [bind].
  rewrite unique_count, math_pow_3.
  destruct (distinct_count classes <? 647)%nat; [|reflexivity].
  cbn [bind]. unfold log2.
  pose proof (pow3_minus2 _ (distinct_count_pos classes Hne)).
  destruct (Rlt_dec 0 (3 ^ distinct_count classes - 2)); [|contradiction].
  cbn [bind]. unfold spec_delta, old_entropy_term, new_entropy_term.
  f_equal. lra.
Qed.

Lemma get_delta_point_ok (classes : list string) (global best : Dict.t (list R)) :
  degree_table (List.length classes) global ->
  degree_table (List.length classes) best ->
  classes <> [] ->
  (distinct_count classes < 647)%nat ->
  get_delta_point global best classes = Ok (spec_delta global best classes).
Proof.
  intros Hg Hb Hne Hk. rewrite get_delta_point_eq by assumption.
  apply Nat.ltb_lt in Hk. now rewrite Hk.
Qed.

(** ** The search for the best point *)

Section Search.
Variables (variable : list R) (classes : list string) (m M : R).
Hypothesis Hlen : List.length variable = List.length classes.
Hypothesis HM : In M variable.
Hypothesis Hlow : Forall (fun x => m <= x) variable.
Hypothesis Hhigh : Forall (fun x => x <= M) variable.

Lemma candidate_entropy point :
  In point variable ->
  get_fuzzy_triangle variable [("low", m); ("mid", point); ("high", M)]
  = Ok (low_mid_high variable m point M) /\
  weighted_fuzzy_entropy (low_mid_high variable m point M) classes
  = Ok (wfe_formula (low_mid_high variable m point M) classes).
Proof.
  intros Hin. rewrite Forall_forall in Hlow, Hhigh.
  split.
  - apply triangle_low_mid_high; auto.
  - apply wfe_ok.
    + rewrite <- Hlen. apply low_mid_high_table.
    + now apply low_mid_high_cardinality.
Qed.

Lemma search_step_ok st point :
  In point variable ->
  search_invariant variable classes m M st ->
  exists st',
    search_step variable classes m M st point = Ok st' /\
    search_invariant variable classes m M st' /\
    (point = m \/ point = M -> st' = st) /\
    (best_wef st <> None \/ (point <> m /\ point <> M) -> best_wef st' <> None).
Proof.
  intros Hin Hinv. unfold search_step.
  destruct (Reqb point m) eqn:E1; cbn [negb andb].
  { apply Reqb_true in E1. exists st. repeat split; auto. tauto. }
  destruct (Reqb point M) eqn:E2; cbn [negb andb].
  { apply Reqb_true in E2. exists st. repeat split; auto. tauto. }
  apply Reqb_false in E1, E2.
  destruct (candidate_entropy point Hin) as [Ht Hw].
  cbv zeta. rewrite Ht. cbn [bind]. rewrite Hw. cbn [bind].
  destruct (best_wef st) as [b|] eqn:Eb; cbn [lt_best].
  - destruct (Rltb _ b).
    + eexists. split; [reflexivity|]. split; [|split; [tauto|]].
      * unfold search_invariant. cbn [best_wef best_point best_fuzzy_triangle].
        auto.
      * intros _. cbn [best_wef]. discriminate.
    + exists st. split; [reflexivity|]. split; [exact Hinv|].
      split; [tauto|]. intros _. rewrite Eb. discriminate.
  - eexists. split; [reflexivity|]. split; [|split; [tauto|]].
    + unfold search_invariant. cbn [best_wef best_point best_fuzzy_triangle].
      auto.
    + intros _. cbn [best_wef]. discriminate.
Qed.

Lemma search_fold_ok (pts : list R) : forall st,
  incl pts variable ->
  search_invariant variable classes m M st ->
  exists st',
    foldM (search_step variable classes m M) pts st = Ok st' /\
    search_invariant variable classes m M st' /\
    (Forall (fun p => p = m \/ p = M) pts -> st' = st) /\
    (best_wef st <> None \/ Exists (fun p => p <> m /\ p <> M) pts ->
     best_wef st' <> None).
Proof.
  induction pts as [|p pts IH]; intros st Hincl Hinv.
  - exists st. simpl. repeat split; auto.
    intros [H|H]; [exact H|]. inversion H.
  - destruct (search_step_ok st p) as (st1 & E1 & Hinv1 & Hsame1 & Hsome1);
      [apply Hincl; simpl; auto|exact Hinv|].
    destruct (IH st1) as (st' & E' & Hinv' & Hsame' & Hsome');
      [intros x Hx; apply Hincl; simpl; auto|exact Hinv1|].
    exists st'. cbn [foldM]. rewrite E1. cbn [bind].
    split; [exact E'|]. split; [exact Hinv'|]. split.
    + intros Hall. inversion Hall as [|? ? Hp Hpts]; subst.
      rewrite Hsame' by exact Hpts. now apply Hsame1.
    + intros [H|H].
      * apply Hsome'. left. apply Hsome1. now left.
      * inversion H as [? ? Hp|? ? Hp]; subst.
        -- apply Hsome'. left. apply Hsome1. now right.
        -- apply Hsome'. now right.
Qed.

Lemma best_split_ok :
  exists st,
    best_split variable classes m M = Ok st /\
    search_invariant variable classes m M st /\
    (Forall (fun p => p = m \/ p = M) variable -> best_wef st = None) /\
    (Exists (fun p => p <> m /\ p <> M) variable -> best_wef st <> None).
Proof.
  destruct (search_fold_ok variable initial_best)
    as (st & E & Hinv & Hsame & Hsome).
  - apply incl_refl.
  - reflexivity.
  - exists st. split; [exact E|]. split; [exact Hinv|]. split.
    + intros Hall. now rewrite Hsame.
    + intros H. apply Hsome. now right.
Qed.

Lemma search_invariant_table st :
  search_invariant variable classes m M st ->
  degree_table (List.length classes) (best_fuzzy_triangle st).
Proof.
  unfold search_invariant. destruct (best_wef st).
  - intros (_ & _ & _ & -> & _). rewrite <- Hlen. apply low_mid_high_table.
  - intros ->. constructor.
Qed.

Lemma accept_split_eq st :
  (2 <= List.length variable)%nat ->
  search_invariant variable classes m M st ->
  accept_split variable classes m M st
  = if (distinct_count classes <? 647)%nat
    then Ok (negb (gain_below (wfe_formula (low_high variable m M) classes)
                     (best_wef st)
                     (spec_threshold (List.length variable) (low_high variable m M)
                        (best_fuzzy_triangle st) classes)))
    else Raise OverflowError.
Proof.
  intros Hn Hinv. unfold accept_split. cbv zeta.
  assert (HmM : m <= M) by (rewrite Forall_forall in Hlow; auto).
  rewrite triangle_low_high by exact HmM. cbn [bind].
  rewrite wfe_ok;
    [|rewrite <- Hlen; apply low_high_table|now apply low_high_cardinality].
  cbn [bind].
  rewrite get_delta_point_eq;
    [|rewrite <- Hlen; apply low_high_table
     |now apply search_invariant_table
     |intros ->; simpl in Hlen; lia].
  destruct (distinct_count classes <? 647)%nat; [|reflexivity].
  cbn [bind]. unfold log2.
  assert (Hn' : 2 <= INR (List.length variable)).
  { apply le_INR in Hn. simpl in Hn. lra. }
  destruct (Rlt_dec 0 (INR (List.length variable) - 1)); [|lra].
  cbn [bind]. reflexivity.
Qed.

Lemma accept_split_ok st :
  (2 <= List.length variable)%nat ->
  search_invariant variable classes m M st ->
  (distinct_count classes < 647)%nat ->
  accept_split variable classes m M st
  = Ok (negb (gain_below (wfe_formula (low_high variable m M) classes)
                (best_wef st)
                (spec_threshold (List.length variable) (low_high variable m M)
                   (best_fuzzy_triangle st) classes))).
Proof.
  intros Hn Hinv Hk. rewrite accept_split_eq by assumption.
  apply Nat.ltb_lt in Hk. now rewrite Hk.
Qed.
End Search.

(** ** C1: the stopping rule *)


(** ** The recursion of the discretizer *)

Lemma combine_fst {A B : Type} (l : list A) : forall l' : list B,
  List.length l = List.length l' -> map fst (combine l l') = l.
Proof.
  induction l as [|x l IH]; intros [|y l'] H; try discriminate; [reflexivity|].
  simpl. f_equal. apply IH. simpl in H. lia.
Qed.

Lemma in_combine_fst {A B : Type} (l : list A) (l' : list B) (x : A) :
  List.length l = List.length l' -> In x l ->
  exists y, In (x, y) (combine l l').
Proof.
  intros Hlen Hin. rewrite <- (combine_fst l l' Hlen) in Hin.
  apply in_map_iff in Hin. destruct Hin as ([x' y] & <- & Hin). eauto.
Qed.

Lemma filter_length_lt {A : Type} (p : A -> bool) (l : list A) (x : A) :
  In x l -> p x = false -> (List.length (filter p l) < List.length l)%nat.
Proof.
  induction l as [|y l IH]; intros Hin Hp; [easy|].
  simpl. pose proof (filter_length_le p l).
  destruct Hin as [->|Hin].
  - rewrite Hp. lia.
  - specialize (IH Hin Hp). destruct (p y); simpl; lia.
Qed.

Lemma two_members {A : Type} (l : list A) (x y : A) :
  In x l -> In y l -> x <> y -> (2 <= List.length l)%nat.
Proof.
  intros Hx Hy Hne. destruct l as [|a [|b l]]; simpl in *; try lia.
  exfalso. destruct Hx as [<-|[]], Hy as [<-|[]]. contradiction.
Qed.

Lemma unzip_ok {A B : Type} (pairs : list (A * B)) :
  pairs <> [] -> unzip pairs = Ok (map fst pairs, map snd pairs).
Proof. destruct pairs; [easy|reflexivity]. Qed.

Lemma sorted_lt_le (l : list R) : StronglySorted Rlt l -> StronglySorted Rle l.
Proof.
  induction 1 as [|x l Hs IH Hall]; constructor; [exact IH|].
  eapply Forall_impl; [|exact Hall]. simpl. intros; lra.
Qed.

Lemma distinct_count_incl (l1 l2 : list string) :
  incl l1 l2 -> (distinct_count l1 <= distinct_count l2)%nat.
Proof.
  intros H. unfold distinct_count. apply NoDup_incl_length; [apply NoDup_nodup|].
  intros x Hx. apply nodup_In. apply H. now apply nodup_In in Hx.
Qed.

Lemma side_classes (p : R * string -> bool) (variable : list R)
    (classes : list string) :
  (distinct_count (map snd (filter p (combine variable classes)))
   <= distinct_count classes)%nat.
Proof.
  apply distinct_count_incl. intros c Hc. apply in_map_iff in Hc.
  destruct Hc as ([x c'] & <- & Hc). apply filter_In in Hc.
  destruct Hc as [Hc _]. apply in_combine_r in Hc. exact Hc.
Qed.

(** What a call of the discretizer returns, below the overflow of
    [math.pow]. *)
Lemma partition_rec_props (fuel : nat) :
  forall variable classes min_point,
    (List.length variable < fuel)%nat ->
    valid_call variable classes min_point ->
    (distinct_count classes < 647)%nat ->
    exists points,
      fuzzy_partitioning_rec fuel variable classes min_point = Ok points /\
      Forall (fun x => min_point <= x) points /\
      StronglySorted Rle points /\
      (In min_point variable -> In min_point points) /\
      (forall M, array_max variable = Ok M -> min_point < M ->
                 StronglySorted Rlt points).
Proof.
  induction fuel as [|fuel IH]; intros variable classes m Hfuel Hvalid Hk; [lia|].
  destruct Hvalid as (Hlen & Hn & Hlow).
  destruct (array_max_spec variable) as (M & Emax & HM & Hhigh).
  { intros ->. simpl in Hn. lia. }
  destruct (best_split_ok variable classes m M Hlen HM Hlow Hhigh)
    as (st & Est & Hinv & _ & _).
  assert (HmM : m <= M) by (rewrite Forall_forall in Hlow; auto).
  assert (Hreject :
            exists points,
              Ok [m; M] = Ok points /\
              Forall (fun x => m <= x) points /\
              StronglySorted Rle points /\
              (In m variable -> In m points) /\
              (forall M', array_max variable = Ok M' -> m < M' ->
                          StronglySorted Rlt points)).
  { exists [m; M]. split; [reflexivity|]. split.
    - constructor; [lra|]. constructor; [exact HmM|constructor].
    - split; [|split].
      + constructor; [repeat constructor|].
        constructor; [exact HmM|constructor].
      + intros _. simpl. auto.
      + intros M' E HM'. rewrite Emax in E. injection E as <-.
        repeat constructor. exact HM'. }
  cbn [fuzzy_partitioning_rec]. rewrite Emax in Hreject |- *. cbn [bind].
  rewrite Est. cbn [bind]. cbv zeta.
  rewrite (accept_split_ok variable classes m M Hlen HM Hlow st Hn Hinv Hk).
  cbn [bind].
  destruct (gain_below _ (best_wef st) _) eqn:Egain; cbn [negb];
    [exact Hreject|].
  clear Hreject.
  (* the split is accepted: a best point exists *)
  unfold search_invariant in Hinv.
  destruct (best_wef st) as [bw|] eqn:Ebw; [|discriminate].
  destruct Hinv as (Hbp & Hbm & HbM & _ & _).
  set (bp := best_point st) in *.
  set (pairs := combine variable classes).
  set (left := filter (fun pc : R * string => Rleb (fst pc) bp) pairs).
  set (right := filter (fun pc : R * string => Rltb bp (fst pc)) pairs).
  assert (Hbounds : m < bp < M).
  { rewrite Forall_forall in Hlow, Hhigh.
    specialize (Hlow _ Hbp). specialize (Hhigh _ Hbp). lra. }
  destruct (in_combine_fst variable classes bp Hlen Hbp) as [cb Hcb].
  destruct (in_combine_fst variable classes M Hlen HM) as [cM HcM].
  assert (Hpairs : List.length pairs = List.length variable).
  { unfold pairs. rewrite length_combine. lia. }
  assert (Hleft_in : In (bp, cb) left).
  { apply filter_In. split; [exact Hcb|]. apply Rleb_true. simpl. lra. }
  assert (Hright_in : In (M, cM) right).
  { apply filter_In. split; [exact HcM|]. apply Rltb_true. simpl. lra. }
  assert (Hleft_len : (List.length left < fuel)%nat).
  { assert (List.length left < List.length pairs)%nat; [|lia].
    apply (filter_length_lt _ pairs (M, cM) HcM).
    apply Rleb_false. simpl. lra. }
  assert (Hright_len : (List.length right < fuel)%nat).
  { assert (List.length right < List.length pairs)%nat; [|lia].
    apply (filter_length_lt _ pairs (bp, cb) Hcb).
    apply Rltb_false. simpl. lra. }
  rewrite (unzip_ok left) by (intros E; rewrite E in Hleft_in; inversion Hleft_in).
  cbn [bind].
  rewrite (unzip_ok right) by (intros E; rewrite E in Hright_in; inversion Hright_in).
  cbn [bind fst snd].
  (* the left call *)
  assert (Hleft_low : Forall (fun x => m <= x) (map fst left)).
  { apply Forall_forall. intros x Hx. apply in_map_iff in Hx.
    destruct Hx as ([x' c] & <- & Hx). apply filter_In in Hx.
    destruct Hx as [Hx _]. rewrite Forall_forall in Hlow. apply Hlow.
    rewrite <- (combine_fst variable classes Hlen).
    apply in_map_iff. exists (x', c). auto. }
  assert (Hleft_call :
            exists left_points,
              (if (1 <? List.length (map fst left))%nat
               then fuzzy_partitioning_rec fuel (map fst left) (map snd left) m
               else Ok []) = Ok left_points /\
              Forall (fun x => m <= x) left_points /\
              (In m variable -> In m left_points)).
  { destruct (1 <? List.length (map fst left))%nat eqn:E.
    - apply Nat.ltb_lt in E.
      destruct (IH (map fst left) (map snd left) m) as (lp & Elp & H1 & _ & H3 & _).
      + now rewrite length_map.
      + split; [now rewrite !length_map|]. split; [lia|exact Hleft_low].
      + pose proof (side_classes (fun pc : R * string => Rleb (fst pc) bp)
                      variable classes). fold pairs in H. fold left in H. lia.
      + exists lp. split; [exact Elp|]. split; [exact H1|].
        intros Hm. apply H3.
        destruct (in_combine_fst variable classes m Hlen Hm) as [cm Hcm].
        apply in_map_iff. exists (m, cm). split; [reflexivity|].
        apply filter_In. split; [exact Hcm|]. apply Rleb_true. simpl. lra.
    - exists []. split; [reflexivity|]. split; [constructor|].
      intros Hm. exfalso. apply Nat.ltb_ge in E.
      destruct (in_combine_fst variable classes m Hlen Hm) as [cm Hcm].
      assert (In (m, cm) left).
      { apply filter_In. split; [exact Hcm|]. apply Rleb_true. simpl. lra. }
      assert (2 <= List.length left)%nat.
      { apply (two_members left (m, cm) (bp, cb)); auto.
        intros Heq. injection Heq as Heq _. lra. }
      rewrite length_map in E. lia. }
  destruct Hleft_call as (left_points & Elp & Hlp & Hlm).
  rewrite Elp. cbn [bind].
  (* the right call *)
  assert (Hright_low : Forall (fun x => bp <= x) (map fst right)).
  { apply Forall_forall. intros x Hx. apply in_map_iff in Hx.
    destruct Hx as ([x' c] & <- & Hx). apply filter_In in Hx.
    destruct Hx as [_ Hx]. apply Rltb_true in Hx. simpl in *. lra. }
  assert (Hright_call :
            exists right_points,
              (if (1 <? List.length (map fst right))%nat
               then fuzzy_partitioning_rec fuel (map fst right) (map snd right) bp
               else Ok []) = Ok right_points /\
              Forall (fun x => bp <= x) right_points).
  { destruct (1 <? List.length (map fst right))%nat eqn:E.
    - apply Nat.ltb_lt in E.
      destruct (IH (map fst right) (map snd right) bp) as (rp & Erp & H1 & _).
      + now rewrite length_map.
      + split; [now rewrite !length_map|]. split; [lia|exact Hright_low].
      + pose proof (side_classes (fun pc : R * string => Rltb bp (fst pc))
                      variable classes). fold pairs in H. fold right in H. lia.
      + exists rp. auto.
    - exists []. split; [reflexivity|constructor]. }
  destruct Hright_call as (right_points & Erp & Hrp).
  rewrite Erp. cbn [bind].
  eexists. split; [reflexivity|].
  pose proof (np_unique_sorted (left_points ++ right_points)) as Hsorted.
  split; [|split; [|split]].
  - apply Forall_forall. intros x Hx.
    apply (proj1 (np_unique_In _ _)) in Hx.
    apply in_app_or in Hx. rewrite Forall_forall in Hlp, Hrp.
    destruct Hx as [Hx|Hx]; [now apply Hlp|].
    specialize (Hrp _ Hx). lra.
  - now apply sorted_lt_le.
  - intros Hm. apply np_unique_In, in_or_app. left. now apply Hlm.
  - intros _ _ _. exact Hsorted.
Qed.

(** From 647 distinct classes on, a call ends in the [OverflowError] of
    [math.pow]. *)
Lemma partition_rec_overflow (fuel : nat) (variable : list R)
    (classes : list string) (m : R) :
  valid_call variable classes m ->
  (647 <= distinct_count classes)%nat ->
  fuzzy_partitioning_rec (S fuel) variable classes m = Raise OverflowError.
Proof.
  intros (Hlen & Hn & Hlow) Hk.
  destruct (array_max_spec variable) as (M & Emax & HM & Hhigh).
  { intros ->. simpl in Hn. lia. }
  destruct (best_split_ok variable classes m M Hlen HM Hlow Hhigh)
    as (st & Est & Hinv & _ & _).
  cbn [fuzzy_partitioning_rec]. rewrite Emax. cbn [bind].
  rewrite Est. cbn [bind]. cbv zeta.
  rewrite (accept_split_eq variable classes m M Hlen HM Hlow st Hn Hinv).
  apply Nat.ltb_ge in Hk. rewrite Hk. reflexivity.
Qed.

(** A sample without candidate point. *)
Lemma partition_no_candidate (variable : list R) (classes : list string) (m M : R) :
  valid_call variable classes m ->
  array_max variable = Ok M ->
  Forall (fun p => p = m \/ p = M) variable ->
  fuzzy_partitioning variable classes m
  = if (distinct_count classes <? 647)%nat then Ok [m; M]
    else Raise OverflowError.
Proof.
  intros (Hlen & Hn & Hlow) Emax Hall.
  destruct (array_max_spec variable) as (M' & Emax' & HM & Hhigh).
  { intros ->. simpl in Hn. lia. }
  rewrite Emax in Emax'. apply Ok_inj in Emax'. subst M'.
  destruct (best_split_ok variable classes m M Hlen HM Hlow Hhigh)
    as (st & Est & Hinv & Hnone & _).
  unfold fuzzy_partitioning. cbn [fuzzy_partitioning_rec].
  rewrite Emax. cbn [bind]. rewrite Est. cbn [bind]. cbv zeta.
  rewrite (accept_split_eq variable classes m M Hlen HM Hlow st Hn Hinv).
  destruct (distinct_count classes <? 647)%nat; [|reflexivity].
  cbn [bind]. rewrite (Hnone Hall). reflexivity.
Qed.

Lemma fuzzy_partitioning_constant (variable : list R) (classes : list string) (m : R) :
  List.length variable = List.length classes ->
  (2 <= List.length variable)%nat ->
  (distinct_count classes < 647)%nat ->
  Forall (fun x => x = m) variable ->
  fuzzy_partitioning variable classes m = Ok [m; m].
Proof.
  intros Hlen Hn Hk Hall.
  destruct (array_max_spec variable) as (M & Emax & HM & Hhigh).
  { intros ->. simpl in Hn. lia. }
  assert (M = m) as -> by (rewrite Forall_forall in Hall; auto).
  rewrite (partition_no_candidate variable classes m m).
  - apply Nat.ltb_lt in Hk. now rewrite Hk.
  - split; [exact Hlen|]. split; [exact Hn|].
    eapply Forall_impl; [|exact Hall]. simpl. intros; lra.
  - exact Emax.
  - eapply Forall_impl; [|exact Hall]. simpl. auto.
Qed.

(** A sample of one element: [log2(cardinality - 1)] is [log2(0)]. *)
Lemma fuzzy_partitioning_single (x : R) (c : string) :
  fuzzy_partitioning [x] [c] x = Raise (ValueError "math domain error").
Proof.
  unfold fuzzy_partitioning. cbn [fuzzy_partitioning_rec List.length array_max fold_left].
  cbn [bind]. unfold best_split. cbn [foldM]. unfold search_step.
  assert (E : Reqb x x = true) by now apply Reqb_true.
  rewrite E. cbn [negb andb bind]. cbv zeta.
  unfold accept_split. cbv zeta.
  rewrite triangle_low_high by lra. cbn [bind].
  rewrite wfe_ok;
    [|apply (low_high_table [x])|apply low_high_cardinality; simpl; auto].
  cbn [bind].
  rewrite get_delta_point_ok;
    [|apply (low_high_table [x])|constructor|discriminate
     |unfold distinct_count; simpl; lia].
  cbn [bind List.length INR]. unfold log2.
  destruct (Rlt_dec 0 (1 - 1)); [lra|]. reflexivity.
Qed.

Lemma sorted_lt_NoDup (l : list R) : StronglySorted Rlt l -> NoDup l.
Proof.
  induction 1 as [|x l Hs IH Hall]; constructor; [|exact IH].
  intros Hin. rewrite Forall_forall in Hall. specialize (Hall _ Hin). lra.
Qed.

(** A call on a valid sample returns or ends in [OverflowError]: the fuel is
    never used up. *)
Lemma partition_rec_outcome (fuel : nat) (variable : list R)
    (classes : list string) (m : R) :
  (List.length variable < fuel)%nat ->
  valid_call variable classes m ->
  (exists points, fuzzy_partitioning_rec fuel variable classes m = Ok points)
  \/ fuzzy_partitioning_rec fuel variable classes m = Raise OverflowError.
Proof.
  intros Hfuel Hvalid.
  destruct (Nat.lt_ge_cases (distinct_count classes) 647) as [Hk|Hk].
  - left.
    destruct (partition_rec_props fuel variable classes m Hfuel Hvalid Hk)
      as (points & E & _).
    eauto.
  - right. destruct fuel as [|fuel]; [lia|].
    now apply partition_rec_overflow.
Qed.

(** What the list returned by a call started at a value of the sample looks
    like. *)
Lemma partition_returned (variable : list R) (classes : list string) (m : R)
    (points : list R) :
  valid_call variable classes m ->
  In m variable ->
  fuzzy_partitioning variable classes m = Ok points ->
  StronglySorted Rle points /\
  hd_error points = Some m /\
  (forall M, array_max variable = Ok M -> m < M -> StronglySorted Rlt points).
Proof.
  intros Hvalid Hmin E.
  destruct (Nat.lt_ge_cases (distinct_count classes) 647) as [Hk|Hk].
  2:{ unfold fuzzy_partitioning in E.
      rewrite partition_rec_overflow in E by assumption. discriminate. }
  destruct (partition_rec_props (S (List.length variable)) variable classes
              m ltac:(lia) Hvalid Hk)
    as (points' & E' & Hge & Hsorted & Hin & Hstrict).
  unfold fuzzy_partitioning in E. rewrite E' in E. apply Ok_inj in E.
  subst points'.
  split; [exact Hsorted|]. split; [|exact Hstrict].
  specialize (Hin Hmin). destruct points as [|p0 ps]; [easy|].
  simpl. f_equal.
  inversion Hsorted as [|? ? _ Hall]; subst.
  inversion Hge as [|? ? Hp0 _]; subst.
  destruct Hin as [->|Hin]; [reflexivity|].
  rewrite Forall_forall in Hall. specialize (Hall _ Hin). lra.
Qed.

(** ** C2: the breakpoints *)

(** C2, as stated, at the constant sample [[5, 5]] with labels [['A', 'A']]
    and [min_point = 5], its true minimum: the discretizer finds no candidate
    point, rejects the split and returns [[5, 5]], which repeats a value. *)
Lemma breakpoints_constant_sample :
  In 5 [5; 5] /\ Forall (fun x => 5 <= x) [5; 5] /\
  fuzzy_partitioning [5; 5] ["A"; "A"] 5 = Ok [5; 5] /\
  ~ NoDup [5; 5].
Proof.
  split; [simpl; auto|].
  split; [repeat (constructor; [lra|]); constructor|].
  split.
  - apply fuzzy_partitioning_constant;
      [reflexivity|simpl; lia|vm_compute; lia|].
    repeat constructor.
  - intros H. inversion H as [|? ? Hni _]; subst. apply Hni. simpl. auto.
Qed.

(** C2 (amended): for every non-empty numeric sample with parallel class
    labels, the recursion of [fuzzy_partitioning] called with the true
    minimum of the sample ends within its fuel, and the breakpoint list it
    returns is sorted ascending and begins with that minimum; when the sample
    has two distinct values the list is strictly increasing, so without
    duplicates. *)
Theorem fuzzy_partitioning_breakpoints (variable : list R) (classes : list string)
    (min_point : R) :
  List.length variable = List.length classes ->
  variable <> [] ->
  In min_point variable ->
  Forall (fun x => min_point <= x) variable ->
  fuzzy_partitioning variable classes min_point <> Raise RecursionError /\
  forall points,
    fuzzy_partitioning variable classes min_point = Ok points ->
    StronglySorted Rle points /\
    hd_error points = Some min_point /\
    ((exists x, In x variable /\ x <> min_point) ->
     StronglySorted Rlt points /\ NoDup points).
Proof.
  intros Hlen Hne Hmin Hlow.
  destruct variable as [|x [|y rest]]; [contradiction| |].
  { (* one element *)
    destruct Hmin as [->|[]].
    destruct classes as [|c [|c' classes]]; try discriminate.
    rewrite fuzzy_partitioning_single. split; [discriminate|].
    intros points H. discriminate. }
  set (variable := x :: y :: rest) in *.
  assert (Hvalid : valid_call variable classes min_point).
  { split; [exact Hlen|]. split; [simpl; lia|exact Hlow]. }
  split.
  { unfold fuzzy_partitioning.
    destruct (partition_rec_outcome (S (List.length variable)) variable classes
                min_point ltac:(lia) Hvalid) as [[points E]|E];
      rewrite E; discriminate. }
  intros points E.
  destruct (partition_returned variable classes min_point points Hvalid Hmin E)
    as (Hsorted & Hhead & Hstrict).
  split; [exact Hsorted|]. split; [exact Hhead|].
  intros (z & Hz & Hzne).
  destruct (array_max_spec variable) as (M & Emax & HM & Hhigh).
  { discriminate. }
  assert (Hlt : min_point < M).
  { rewrite Forall_forall in Hlow, Hhigh.
    specialize (Hlow _ Hz). specialize (Hhigh _ Hz). lra. }
  pose proof (Hstrict M Emax Hlt) as Hs.
  split; [exact Hs|now apply sorted_lt_NoDup].
Qed.

Lemma fuzzy_partitioning_breakpoints_witness :
  fuzzy_partitioning [0; 10; 0] ["A"; "B"; "B"] 0 <> Raise RecursionError /\
  StronglySorted Rle [0; 10] /\
  hd_error [0; 10] = Some 0 /\
  ((exists x, In x [0; 10; 0] /\ x <> 0) ->
   StronglySorted Rlt [0; 10] /\ NoDup [0; 10]).
Proof.
  assert (Hlow : Forall (fun x => 0 <= x) [0; 10; 0]).
  { repeat (constructor; [lra|]). constructor. }
  destruct (fuzzy_partitioning_breakpoints [0; 10; 0] ["A"; "B"; "B"] 0
              eq_refl ltac:(discriminate) ltac:(simpl; auto) Hlow) as [H1 H2].
  split; [exact H1|]. apply H2.
  rewrite (partition_no_candidate [0; 10; 0] ["A"; "B"; "B"] 0 10).
  - reflexivity.
  - split; [reflexivity|]. split; [simpl; lia|exact Hlow].
  - cbn [array_max fold_left]. f_equal.
    rewrite (Rmax_right 0 10) by lra. apply Rmax_left. lra.
  - repeat (constructor; [auto|]). constructor.
Defined.

Lemma map_rule_variables_spec_witness :
  exists new_rule,
    map_rule_variables (fun fs : string => fs)
      (fun a b => if String.eqb a b then 1 else 0)
      {| antecedent := [("x", "lo")]; consequent := "A"; weight := 1 |}
      [{| fv_name := "x"; fuzzy_sets := ["lo"; "hi"] |}]
      [{| fv_name := "x"; fuzzy_sets := ["hi"; "lo"] |}]
    = Ok new_rule /\
    consequent new_rule = "A" /\
    weight new_rule = 1 /\
    Forall2
      (fun old new : string * string =>
         fst new = fst old /\
         exists origin_feat dest_feat origin_fs dest_fs,
           Dict.get (variables_dict [{| fv_name := "x"; fuzzy_sets := ["lo"; "hi"] |}])
                    (fst old) = Some origin_feat /\
           Dict.get (variables_dict [{| fv_name := "x"; fuzzy_sets := ["hi"; "lo"] |}])
                    (fst old) = Some dest_feat /\
           Dict.get (sets_dict (fun fs : string => fs) origin_feat) (snd old)
             = Some origin_fs /\
           In dest_fs dest_feat /\
           snd new = dest_fs /\
           forall fs, In fs dest_feat ->
             (if String.eqb fs origin_fs then 1 else 0)
             <= (if String.eqb dest_fs origin_fs then 1 else 0))
      [("x", "lo")] (antecedent new_rule).
Proof.
  apply (proj2 (map_rule_variables_spec (fun fs : string => fs)
                  (fun a b => if String.eqb a b then 1 else 0)
                  {| antecedent := [("x", "lo")]; consequent := "A"; weight := 1 |}
                  [{| fv_name := "x"; fuzzy_sets := ["lo"; "hi"] |}]
                  [{| fv_name := "x"; fuzzy_sets := ["hi"; "lo"] |}])).
  - simpl. tauto.
  - intros feat value [H|[]]. injection H as <- <-.
    exists ["lo"; "hi"], ["hi"; "lo"].
    repeat split; discriminate.
Defined.


Lemma matching_empty_antecedent_witness :
  matching {| antecedent := []; consequent := "A"; weight := 1 |}
           [("age", [("young", 0.3)])] py_min
  = Raise (ValueError "min() arg is an empty sequence").
Proof.
  apply (proj1 (matching_empty_antecedent
                  {| antecedent := []; consequent := "A"; weight := 1 |}
                  [("age", [("young", 0.3)])])).
  reflexivity.
Defined.

Lemma leaf_votes_witness :
  Dict.get (_aggregated_vote [([("A", 0.2); ("B", 0.8)], 1.0); ([("A", 0.5)], 0.5)]) "B"
  = Some (leaf_sum "B" [([("A", 0.2); ("B", 0.8)], 1.0); ([("A", 0.5)], 0.5)]) /\
  Dict.get (_maximum_matching [([("A", 0.2); ("B", 0.8)], 1.0); ([("A", 0.5)], 0.5)]) "B"
  = Some (leaf_max "B" [([("A", 0.2); ("B", 0.8)], 1.0); ([("A", 0.5)], 0.5)]).
Proof.
  apply (proj1 leaf_votes
           [([("A", 0.2); ("B", 0.8)], 1.0); ([("A", 0.5)], 0.5)] "B").
  - repeat constructor; simpl; intuition discriminate.
  - constructor. simpl. auto.
Defined.

(** * Further properties of the code *)

(** ** [get_fuzzy_triangle]: when it raises *)

Lemma trimf_fail x a b c :
  ~ (a <= b /\ b <= c) -> trimf x [a; b; c] = Raise AssertionError.
Proof.
  intros H. unfold trimf.
  destruct (Rleb a b) eqn:E1; [|reflexivity].
  destruct (Rleb b c) eqn:E2; [|reflexivity].
  apply Rleb_true in E1, E2. tauto.
Qed.

Lemma sorted_le_cons2 a b (l : list R) :
  Sorted Rle (a :: b :: l) <-> a <= b /\ Sorted Rle (b :: l).
Proof.
  split.
  - intros H. apply Sorted_inv in H. destruct H as [Hs Hh].
    apply HdRel_inv in Hh. tauto.
  - intros [Hab Hs]. constructor; [exact Hs|]. now constructor.
Qed.

Lemma nondecreasingb_spec (peaks : list R) :
  nondecreasingb peaks = true <-> Sorted Rle peaks.
Proof.
  induction peaks as [|a tl IH]; [split; [constructor|reflexivity]|].
  destruct tl as [|b tl].
  - split; [repeat constructor|reflexivity].
  - cbn [nondecreasingb]. rewrite andb_true_iff, IH, Rleb_true, sorted_le_cons2.
    reflexivity.
Qed.

Lemma finish_triangles_eq variable divs :
  forall pre fuzz_dict len,
    (2 <= List.length divs)%nat ->
    len = (List.length pre + List.length divs)%nat ->
    finish_triangles variable pre divs len fuzz_dict
    = if nondecreasingb (map snd divs)
      then Ok (Dict.update fuzz_dict (tail_entries variable divs))
      else Raise AssertionError.
Proof.
  unfold finish_triangles.
  induction divs as [|d0 tl IH]; intros pre fuzz_dict len Hlen ->.
  - simpl in Hlen; lia.
  - destruct tl as [|d1 [|d2 rest]].
    + simpl in Hlen; lia.
    + simpl List.length. simpl interior_triangles. simpl bind.
      replace (List.length pre + 2 - 1)%nat with (List.length pre + 1)%nat by lia.
      replace (List.length pre + 2 - 2)%nat with (List.length pre + 0)%nat by lia.
      rewrite !index_app_at. simpl.
      destruct (Rleb (snd d0) (snd d1)) eqn:E; cbn [andb].
      * apply Rleb_true in E. rewrite trimf_ok by lra. reflexivity.
      * apply Rleb_false in E. rewrite trimf_fail by tauto. reflexivity.
    + simpl List.length.
      replace (S (S (S (List.length rest))) - 2)%nat
        with (S (List.length rest)) by lia.
      cbn [interior_triangles].
      rewrite <- (Nat.add_0_r (List.length pre)) at 1.
      rewrite !index_app_at. unfold index at 1 2 3. cbn [nth_error bind].
      cbn [map nondecreasingb].
      destruct (Rleb (snd d0) (snd d1)) eqn:E01; cbn [andb];
        [destruct (Rleb (snd d1) (snd d2)) eqn:E12; cbn [andb]|].
      * apply Rleb_true in E01. pose proof E12 as H12. apply Rleb_true in H12.
        rewrite trimf_ok by lra. cbn [bind].
        specialize (IH (pre ++ [d0])
                      (Dict.set fuzz_dict (fst d1)
                         (map (trimf_at (snd d0) (snd d1) (snd d2)) variable))
                      (List.length (pre ++ [d0]) + List.length (d1 :: d2 :: rest))%nat).
        rewrite <- app_assoc in IH. simpl app in IH.
        rewrite length_app in IH. simpl List.length in IH.
        replace (List.length pre + 1)%nat with (S (List.length pre)) in IH by lia.
        replace (S (S (List.length rest)) - 2)%nat with (List.length rest) in IH by lia.
        replace (List.length pre + S (S (S (List.length rest))))%nat
          with (S (List.length pre) + S (S (List.length rest)))%nat by lia.
        rewrite IH by (lia || reflexivity).
        cbn [map nondecreasingb]. rewrite E12. reflexivity.
      * apply Rleb_false in E12. rewrite trimf_fail by tauto. reflexivity.
      * apply Rleb_false in E01. rewrite trimf_fail by tauto. reflexivity.
Qed.

Lemma get_fuzzy_triangle_eq variable d0 d1 rest :
  get_fuzzy_triangle variable (d0 :: d1 :: rest)
  = if nondecreasingb (map snd (d0 :: d1 :: rest))
    then Ok (Dict.update
               [(fst d0, map (trimf_at (snd d0) (snd d0) (snd d1)) variable)]
               (tail_entries variable (d0 :: d1 :: rest)))
    else Raise AssertionError.
Proof.
  unfold get_fuzzy_triangle. unfold index at 1 2. cbn [nth_error bind].
  pose proof (finish_triangles_eq variable (d0 :: d1 :: rest) []
                (Dict.set Dict.empty (fst d0)
                   (map (trimf_at (snd d0) (snd d0) (snd d1)) variable))
                (List.length (d0 :: d1 :: rest))) as H.
  unfold finish_triangles in H. cbn [app List.length] in H.
  cbn [List.length].
  cbn [map nondecreasingb] in *.
  destruct (Rleb (snd d0) (snd d1)) eqn:E01; cbn [andb] in *.
  - apply Rleb_true in E01. rewrite trimf_ok by lra. cbn [bind].
    rewrite H by (simpl; lia || reflexivity). reflexivity.
  - apply Rleb_false in E01. rewrite trimf_fail by lra. reflexivity.
Qed.

(** X1: [get_fuzzy_triangle] raises [IndexError] on fewer than two divisions;
    on two or more it returns a table exactly when the peaks never decrease,
    and raises the [AssertionError] of [trimf] as soon as one peak is below
    its predecessor. *)
Theorem get_fuzzy_triangle_outcome (variable : list R) (divisions : list division) :
  ((List.length divisions < 2)%nat ->
   get_fuzzy_triangle variable divisions = Raise IndexError) /\
  ((2 <= List.length divisions)%nat ->
   (Sorted Rle (map snd divisions) ->
    exists d, get_fuzzy_triangle variable divisions = Ok d) /\
   (~ Sorted Rle (map snd divisions) ->
    get_fuzzy_triangle variable divisions = Raise AssertionError)).
Proof.
  split.
  - intros Hlen. destruct divisions as [|d0 [|d1 rest]];
      [reflexivity|reflexivity|simpl in Hlen; lia].
  - intros Hlen. destruct divisions as [|d0 [|d1 rest]]; simpl in Hlen; try lia.
    rewrite get_fuzzy_triangle_eq.
    destruct (nondecreasingb (map snd (d0 :: d1 :: rest))) eqn:E; split.
    + intros _. eauto.
    + intros Hs. apply nondecreasingb_spec in E. contradiction.
    + intros Hs. apply nondecreasingb_spec in Hs. congruence.
    + reflexivity.
Qed.

(** ** [get_fuzzy_triangle]: the shape of the table *)

Lemma Dict_update_keys {V : Type} (entries : list (string * V)) :
  forall d : Dict.t V,
    Dict.keys (Dict.update d entries)
    = Dict.keys d
        ++ filter (fun k => negb (Dict.mem d k)) (first_seen (map fst entries)).
Proof.
  induction entries as [|[k v] entries IH]; intros d.
  - simpl. now rewrite app_nil_r.
  - unfold Dict.update in *. cbn [fold_left map fst snd first_seen filter].
    rewrite IH, Dict_keys_set.
    destruct (Dict.mem d k) eqn:Emem; cbn [negb].
    + f_equal. rewrite filter_filter. apply filter_ext_in.
      intros c _. rewrite Dict_mem_set.
      destruct (String.eqb_spec c k) as [->|_].
      * rewrite Emem. reflexivity.
      * cbn [negb]. now rewrite orb_false_r.
    + rewrite <- app_assoc. cbn [app]. do 2 f_equal.
      rewrite filter_filter. apply filter_ext_in.
      intros c _. rewrite Dict_mem_set, negb_orb. apply andb_comm.
Qed.




Lemma tail_entries_interior variable (front : list division) A B C back :
  exists entries,
    tail_entries variable (front ++ A :: B :: C :: back)
    = entries
        ++ (fst B, map (trimf_at (snd A) (snd B) (snd C)) variable)
        :: tail_entries variable (B :: C :: back).
Proof.
  induction front as [|x front [entries IH]].
  - exists []. reflexivity.
  - destruct front as [|y front].
    + exists [(fst A, map (trimf_at (snd x) (snd A) (snd B)) variable)].
      cbn [app] in *. cbn [tail_entries]. cbn [tail_entries] in IH.
      reflexivity.
    + change ((x :: y :: front) ++ A :: B :: C :: back)
        with (x :: y :: (front ++ A :: B :: C :: back)).
      change ((y :: front) ++ A :: B :: C :: back)
        with (y :: (front ++ A :: B :: C :: back)) in IH.
      destruct (front ++ A :: B :: C :: back) as [|z rest] eqn:E.
      * destruct front; discriminate.
      * eexists (_ :: entries). cbn [tail_entries app].
        cbn [tail_entries] in IH. rewrite IH. reflexivity.
Qed.

(** X3: for strictly increasing peaks, the set of an interior entry
    [(label, b)] between the peaks [a] and [c], whose label no later entry
    reuses, is the triangle on [[a, c]]: degree 1 at [b], rising linearly as
    [(v - a) / (b - a)] on [(a, b)], falling linearly as [(c - v) / (c - b)]
    on [(b, c)], and 0 at [a], at [c] and outside. *)
Theorem interior_triangle variable front label_a a label b label_c c back :
  increasing (map snd (front ++ (label_a, a) :: (label, b) :: (label_c, c) :: back)) ->
  ~ In label (label_c :: map fst back) ->
  exists d arr,
    get_fuzzy_triangle variable
      (front ++ (label_a, a) :: (label, b) :: (label_c, c) :: back) = Ok d /\
    Dict.get d label = Some arr /\
    forall j, (j < List.length variable)%nat ->
      let v := nth j variable 0 in
      (v = b -> nth j arr 0 = 1) /\
      (a < v < b -> nth j arr 0 = (v - a) / (b - a)) /\
      (b < v < c -> nth j arr 0 = (c - v) / (c - b)) /\
      (v <= a -> nth j arr 0 = 0) /\
      (c <= v -> nth j arr 0 = 0).
Proof.
  intros Hinc Hfresh.
  assert (Habc : a < b /\ b < c).
  { unfold increasing in Hinc. rewrite map_app in Hinc.
    apply increasing_app_r in Hinc. cbn [map snd] in Hinc.
    inversion Hinc as [|? ? Hinc' Hall]; subst.
    inversion Hall as [|? ? Hab _]; subst.
    inversion Hinc' as [|? ? _ Hall']; subst.
    inversion Hall' as [|? ? Hbc _]; subst. lra. }
  destruct (tail_entries_interior variable front (label_a, a) (label, b)
              (label_c, c) back) as [entries Hsplit].
  cbn [fst snd] in Hsplit.
  destruct (front ++ (label_a, a) :: (label, b) :: (label_c, c) :: back)
    as [|d0 [|d1 rest]] eqn:E.
  - destruct front; discriminate.
  - destruct front as [|? [|? ?]]; discriminate.
  - exists (Dict.update
              [(fst d0, map (trimf_at (snd d0) (snd d0) (snd d1)) variable)]
              (tail_entries variable (d0 :: d1 :: rest))),
           (map (trimf_at a b c) variable).
    split; [now apply get_fuzzy_triangle_entries|]. split.
    + pose proof (eq_trans (f_equal (tail_entries variable) (eq_sym E)) Hsplit)
        as Hsplit'.
      rewrite Hsplit', Dict_update_app.
      change ((label, map (trimf_at a b c) variable)
                :: tail_entries variable ((label, b) :: (label_c, c) :: back))
        with ([(label, map (trimf_at a b c) variable)]
                ++ tail_entries variable ((label, b) :: (label_c, c) :: back)).
      rewrite Dict_update_app, Dict_get_update_notin.
      * unfold Dict.update at 1. cbn [fold_left fst snd].
        apply Dict_get_set_eq.
      * rewrite tail_entries_keys. exact Hfresh.
    + intros j Hj v. rewrite nth_map_at by exact Hj. fold v.
      repeat split; intros Hv.
      * subst v. rewrite Hv. apply trimf_at_peak.
      * apply trimf_at_rise; lra.
      * apply trimf_at_fall; lra.
      * apply trimf_at_below; lra.
      * apply trimf_at_above; lra.
Qed.

Lemma interior_triangle_witness :
  exists d arr,
    get_fuzzy_triangle [0; 1; 3]
      ([] ++ [("low", 0); ("mid", 2); ("high", 3)]) = Ok d /\
    Dict.get d "mid" = Some arr /\
    forall j, (j < 3)%nat ->
      let v := nth j [0; 1; 3] 0 in
      (v = 2 -> nth j arr 0 = 1) /\
      (0 < v < 2 -> nth j arr 0 = (v - 0) / (2 - 0)) /\
      (2 < v < 3 -> nth j arr 0 = (3 - v) / (3 - 2)) /\
      (v <= 0 -> nth j arr 0 = 0) /\
      (3 <= v -> nth j arr 0 = 0).
Proof.
  apply (interior_triangle [0; 1; 3] [] "low" 0 "mid" 2 "high" 3 []).
  - repeat constructor; simpl; lra.
  - simpl. intuition discriminate.
Defined.

(** ** Sums over the distinct values of a column *)

Lemma Rsum_indicator (x : string) (t : R) (D : list string) :
  NoDup D -> In x D ->
  Rsum (map (fun c => if String.eqb x c then t else 0) D) = t.
Proof.
  induction 1 as [|y D Hni Hnd IH]; intros Hin; [easy|].
  cbn [map]. rewrite Rsum_cons.
  destruct Hin as [->|Hin].
  - rewrite String.eqb_refl, Rsum_map_zero; [lra|].
    intros c Hc. destruct (String.eqb_spec x c) as [->|_]; [contradiction|reflexivity].
  - rewrite IH by exact Hin.
    destruct (String.eqb_spec x y) as [->|_]; [contradiction|lra].
Qed.

Lemma filter_true {A : Type} (l : list A) : filter (fun _ => true) l = l.
Proof. induction l as [|x l IH]; simpl; congruence. Qed.

(** ** Fuzzy entropy: labels that run short *)

Lemma class_fuzzy_cardinality_short value triangle : forall classes acc,
  (List.length classes < List.length triangle)%nat ->
  class_fuzzy_cardinality value triangle classes acc = Raise IndexError.
Proof.
  induction triangle as [|t triangle IH]; intros classes acc Hlen.
  - simpl in Hlen. lia.
  - destruct classes as [|c classes]; [reflexivity|].
    cbn [class_fuzzy_cardinality]. apply IH. simpl in Hlen. lia.
Qed.

(** X6: [fuzzy_entropy] returns 0 when there are no labels or no degrees, and
    raises [IndexError] when there are labels, but fewer than degrees. *)
Theorem fuzzy_entropy_short_labels (triangle : list R) (classes : list string) :
  fuzzy_entropy triangle [] = Ok 0 /\
  fuzzy_entropy [] classes = Ok 0 /\
  (classes <> [] ->
   (List.length classes < List.length triangle)%nat ->
   fuzzy_entropy triangle classes = Raise IndexError).
Proof.
  split; [reflexivity|]. split.
  - unfold fuzzy_entropy. cbv zeta.
    induction (np_unique_labels classes) as [|v l IH]; [reflexivity|].
    cbn [foldM class_fuzzy_cardinality bind] in IH |- *.
    destruct (Rlt_dec 0 0); [lra|]. cbn [bind]. exact IH.
  - intros Hne Hlen. unfold fuzzy_entropy.
    destruct (np_unique_labels classes) as [|v l] eqn:E.
    + destruct classes as [|c classes]; [easy|].
      assert (H : In c (np_unique_labels (c :: classes))).
      { apply np_unique_labels_In. simpl. auto. }
      rewrite E in H. inversion H.
    + cbn [foldM]. now rewrite class_fuzzy_cardinality_short.
Qed.

Lemma fuzzy_entropy_short_labels_witness :
  fuzzy_entropy [1; 0.5] ["A"] = Raise IndexError.
Proof.
  apply (proj2 (proj2 (fuzzy_entropy_short_labels [1; 0.5] ["A"]))).
  - discriminate.
  - simpl. lia.
Defined.

(** ** The search keeps the first candidate of least entropy *)

Section FirstMinimum.
Variables (variable : list R) (classes : list string) (m M : R).
Hypothesis Hlen : List.length variable = List.length classes.
Hypothesis HM : In M variable.
Hypothesis Hlow : Forall (fun x => m <= x) variable.
Hypothesis Hhigh : Forall (fun x => x <= M) variable.




End FirstMinimum.



(** ** The discretizer, one call at a time *)






(** X10: a sample whose values are all [min_point] or the maximum has no
    candidate point: with fewer than 647 distinct classes
    [fuzzy_partitioning] returns the two end points [[min_point, max_point]]
    unchanged, and from 647 distinct classes on it raises the [OverflowError]
    of [math.pow(3, n_classes)].  Every two-element sample called with its
    own minimum is such a sample. *)
Theorem fuzzy_partitioning_no_candidate (variable : list R) (classes : list string)
    (min_point max_point : R) :
  valid_call variable classes min_point ->
  array_max variable = Ok max_point ->
  Forall (fun p => p = min_point \/ p = max_point) variable ->
  ((distinct_count classes < 647)%nat ->
   fuzzy_partitioning variable classes min_point = Ok [min_point; max_point]) /\
  ((647 <= distinct_count classes)%nat ->
   fuzzy_partitioning variable classes min_point = Raise OverflowError).
Proof.
  intros Hvalid Emax Hall.
  rewrite (partition_no_candidate variable classes min_point max_point
             Hvalid Emax Hall).
  split; intros Hk.
  - apply Nat.ltb_lt in Hk. now rewrite Hk.
  - apply Nat.ltb_ge in Hk. now rewrite Hk.
Qed.

Lemma fuzzy_partitioning_no_candidate_witness :
  fuzzy_partitioning [0; 2; 2; 0] ["A"; "B"; "A"; "B"] 0 = Ok [0; 2].
Proof.
  apply (fuzzy_partitioning_no_candidate [0; 2; 2; 0] ["A"; "B"; "A"; "B"] 0 2).
  - split; [reflexivity|]. split; [simpl; lia|].
    repeat (constructor; [lra|]). constructor.
  - cbn [array_max fold_left]. f_equal.
    rewrite (Rmax_right 0 2) by lra. rewrite (Rmax_left 2 2) by lra.
    apply Rmax_left. lra.
  - repeat (constructor; [auto|]). constructor.
  - vm_compute. lia.
Defined.

(** X11: [fuzzy_partitioning] raises on every sample of fewer than two
    elements: on the empty sample when it takes the maximum; on a one-element
    sample at [log2(cardinality - 1)], or already in [trimf] when the element
    is below [min_point]. *)
Theorem fuzzy_partitioning_small_sample :
  (forall classes min_point,
     fuzzy_partitioning [] classes min_point
     = Raise (ValueError "zero-size array to reduction operation maximum")) /\
  (forall x c min_point,
     fuzzy_partitioning [x] [c] min_point
     = Raise (if Rleb min_point x then ValueError "math domain error"
              else AssertionError)).
Proof.
  split; [reflexivity|]. intros x c m.
  unfold fuzzy_partitioning.
  cbn [fuzzy_partitioning_rec List.length array_max fold_left].
  cbn [bind]. unfold best_split. cbn [foldM]. unfold search_step.
  assert (E : Reqb x x = true) by now apply Reqb_true.
  rewrite E, andb_false_r. cbn [bind]. cbv zeta.
  unfold accept_split. cbv zeta.
  destruct (Rleb m x) eqn:Emx.
  - apply Rleb_true in Emx.
    rewrite triangle_low_high by lra. cbn [bind].
    rewrite wfe_ok;
      [|apply (low_high_table [x])|apply low_high_cardinality; simpl; auto].
    cbn [bind].
    rewrite get_delta_point_ok;
      [|apply (low_high_table [x])|constructor|discriminate
       |unfold distinct_count; simpl; lia].
    cbn [bind List.length INR]. unfold log2.
    destruct (Rlt_dec 0 (1 - 1)); [lra|]. reflexivity.
  - apply Rleb_false in Emx.
    pose proof (get_fuzzy_triangle_eq [x] ("low", m) ("high", x) []) as Ht.
    cbn [map snd nondecreasingb] in Ht.
    assert (E' : Rleb m x = false) by (apply Rleb_false; lra).
    rewrite E' in Ht. unfold division in Ht. cbn [andb] in Ht.
    rewrite Ht. reflexivity.
Qed.

(** ** Samples of a single class *)










(** ** A split whose upper side has one element *)



(** ** Rules: matching and the vote *)

Lemma degree_at_fun (im : membership) fv d1 d2 :
  degree_at im fv d1 -> degree_at im fv d2 -> d1 = d2.
Proof.
  intros (b1 & H1 & H1') (b2 & H2 & H2'). congruence.
Qed.

Lemma Forall2_In_l {A B : Type} (P : A -> B -> Prop) (l : list A) (l' : list B) x :
  Forall2 P l l' -> In x l -> exists y, In y l' /\ P x y.
Proof.
  induction 1 as [|a b l l' Hab _ IH]; intros Hin; [easy|].
  destruct Hin as [<-|Hin].
  - exists b. simpl. auto.
  - destruct (IH Hin) as (y & Hy & Hp). exists y. simpl. auto.
Qed.

Lemma Forall2_In_r {A B : Type} (P : A -> B -> Prop) (l : list A) (l' : list B) y :
  Forall2 P l l' -> In y l' -> exists x, In x l /\ P x y.
Proof.
  induction 1 as [|a b l l' Hab _ IH]; intros Hin; [easy|].
  destruct Hin as [<-|Hin].
  - exists a. simpl. auto.
  - destruct (IH Hin) as (x & Hx & Hp). exists x. simpl. auto.
Qed.

Lemma matching_min_le (r1 r2 : Rule) (im : membership) degrees1 degrees2 m1 m2 :
  (forall fv, In fv (antecedent r1) -> In fv (antecedent r2)) ->
  Forall2 (degree_at im) (antecedent r1) degrees1 ->
  Forall2 (degree_at im) (antecedent r2) degrees2 ->
  In m1 degrees1 -> Forall (Rle m2) degrees2 -> m2 <= m1.
Proof.
  intros Hsub H1 H2 Hm1 Hm2.
  destruct (Forall2_In_r _ _ _ m1 H1 Hm1) as (fv & Hfv & Hd1).
  destruct (Forall2_In_l _ _ _ fv H2 (Hsub _ Hfv)) as (d & Hd & Hd2).
  rewrite (degree_at_fun im fv m1 d Hd1 Hd2).
  rewrite Forall_forall in Hm2. now apply Hm2.
Qed.

(** X14: with the default t-norm, the matching degree of a rule depends only
    on the set of (feature, value) pairs of its antecedent: two rules whose
    antecedents have the same pairs, in any order and with any repetitions,
    get the same result on every profile. *)
Theorem matching_antecedent_set (r1 r2 : Rule) (im : membership) :
  (forall fv, In fv (antecedent r1) <-> In fv (antecedent r2)) ->
  matching r1 im py_min = matching r2 im py_min.
Proof.
  intros Hsame.
  destruct (antecedent r1) as [|p1 a1] eqn:E1.
  { destruct (antecedent r2) as [|p2 a2] eqn:E2.
    - unfold matching. now rewrite E1, E2.
    - exfalso. apply (proj2 (Hsame p2)). simpl. auto. }
  assert (Hne1 : antecedent r1 <> []) by (rewrite E1; discriminate).
  assert (Hne2 : antecedent r2 <> []).
  { intros E2. rewrite E2 in Hsame. apply (proj1 (Hsame p1)). simpl. auto. }
  rewrite <- E1 in Hsame.
  destruct (present_or_absent im (antecedent r1)) as [Hall|Hex].
  - assert (Hall2 : Forall (present im) (antecedent r2)).
    { rewrite Forall_forall in Hall |- *. intros fv Hfv.
      apply Hall, Hsame, Hfv. }
    destruct (matching_present r1 im Hne1 Hall) as (dg1 & m1 & H1 & _ & Em1 & Hi1 & Hl1).
    destruct (matching_present r2 im Hne2 Hall2) as (dg2 & m2 & H2 & _ & Em2 & Hi2 & Hl2).
    rewrite Em1, Em2. f_equal. apply Rle_antisym.
    + apply (matching_min_le r2 r1 im dg2 dg1 m2 m1); auto.
      intros fv. apply Hsame.
    + apply (matching_min_le r1 r2 im dg1 dg2 m1 m2); auto.
      intros fv. apply Hsame.
  - assert (Hex2 : Exists (fun fv => ~ present im fv) (antecedent r2)).
    { apply Exists_exists in Hex. destruct Hex as (fv & Hfv & Hno).
      apply Exists_exists. exists fv. split; [now apply Hsame|exact Hno]. }
    rewrite (matching_absent r1 im Hex), (matching_absent r2 im Hex2).
    reflexivity.
Qed.

Lemma matching_antecedent_set_witness :
  matching {| antecedent := [("age", "young"); ("height", "tall")];
              consequent := "A"; weight := 1 |}
           [("age", [("young", 0.3); ("old", 0.7)]); ("height", [("tall", 0.6)])]
           py_min
  = matching {| antecedent := [("height", "tall"); ("age", "young");
                               ("height", "tall")];
                consequent := "B"; weight := 2 |}
             [("age", [("young", 0.3); ("old", 0.7)]); ("height", [("tall", 0.6)])]
             py_min.
Proof.
  apply (matching_antecedent_set
           {| antecedent := [("age", "young"); ("height", "tall")];
              consequent := "A"; weight := 1 |}
           {| antecedent := [("height", "tall"); ("age", "young");
                             ("height", "tall")];
              consequent := "B"; weight := 2 |}).
  intros fv. simpl. tauto.
Defined.

(** X15: when every degree of a membership profile lies in [0,1], the
    matching degree of a rule with a non-empty antecedent lies in [0,1] too,
    and the activation [matching * weight] of a rule of non-negative weight is
    between 0 and the weight. *)
Theorem matching_range (rule : Rule) (im : membership) :
  antecedent rule <> [] ->
  (forall feature by_value value degree,
     Dict.get im feature = Some by_value ->
     Dict.get by_value value = Some degree -> 0 <= degree <= 1) ->
  exists m,
    matching rule im py_min = Ok m /\ 0 <= m <= 1 /\
    (0 <= weight rule -> 0 <= activation im rule <= weight rule).
Proof.
  intros Hne Hrange.
  assert (Hm : exists m, matching rule im py_min = Ok m /\ 0 <= m <= 1).
  { destruct (present_or_absent im (antecedent rule)) as [Hall|Hex].
    - destruct (matching_present rule im Hne Hall) as (dg & m & H2 & _ & Em & Hi & _).
      exists m. split; [exact Em|].
      destruct (Forall2_In_r _ _ _ m H2 Hi) as (fv & _ & (bv & Hb & Hd)).
      apply (Hrange _ _ _ _ Hb Hd).
    - exists 0. split; [now apply matching_absent|lra]. }
  destruct Hm as (m & Em & Hm). exists m. split; [exact Em|]. split; [exact Hm|].
  intros Hw. unfold activation. rewrite Em. nra.
Qed.

Lemma matching_range_witness :
  exists m,
    matching {| antecedent := [("age", "young")]; consequent := "A"; weight := 2 |}
             [("age", [("young", 0.3); ("old", 0.7)])] py_min = Ok m /\
    0 <= m <= 1 /\
    (0 <= 2 ->
     0 <= activation [("age", [("young", 0.3); ("old", 0.7)])]
            {| antecedent := [("age", "young")]; consequent := "A"; weight := 2 |}
       <= 2).
Proof.
  apply (matching_range
           {| antecedent := [("age", "young")]; consequent := "A"; weight := 2 |}
           [("age", [("young", 0.3); ("old", 0.7)])]).
  - discriminate.
  - intros feature by_value value degree H1 H2.
    cbn [Dict.get] in H1.
    destruct (String.eqb "age" feature); [|discriminate].
    apply (f_equal (fun o => match o with Some b => b | None => [] end)) in H1.
    subst by_value. cbn [Dict.get] in H2.
    destruct (String.eqb "young" value).
    { assert (degree = 0.3) by congruence. lra. }
    destruct (String.eqb "old" value); [|discriminate].
    assert (degree = 0.7) by congruence. lra.
Defined.

Lemma matching_no_antecedent (rule : Rule) (im : membership) :
  antecedent rule = [] ->
  matching rule im py_min = Raise (ValueError "min() arg is an empty sequence").
Proof. intros E. unfold matching. rewrite E. reflexivity. Qed.

Lemma vote_loop_raises (im : membership) (rule_list : list Rule) : forall d,
  Exists (fun r => antecedent r = []) rule_list ->
  foldM (fun (conse_dict : Dict.t R) rule =>
           m <- matching rule im py_min ;;
           let AD := m * weight rule in
           Ok (Dict.set conse_dict (consequent rule)
                 (getd conse_dict (consequent rule) + AD)))
        rule_list d
  = Raise (ValueError "min() arg is an empty sequence").
Proof.
  induction rule_list as [|r l IH]; intros d Hex; [inversion Hex|].
  cbn [foldM].
  destruct (antecedent r) as [|p a] eqn:Ea.
  - rewrite matching_no_antecedent by exact Ea. reflexivity.
  - destruct (matching_returns r im) as [m Em]; [rewrite Ea; discriminate|].
    rewrite Em. cbn [bind]. apply IH.
    inversion Hex as [? ? H|? ? H]; subst; [congruence|exact H].
Qed.

(** X16: [weighted_vote] fails exactly on an empty rule list, with the
    [ValueError] of [max], and on a list holding a rule with an empty
    antecedent, with the [ValueError] of [min]; on every other list it returns
    a consequent. *)
Theorem weighted_vote_errors (im : membership) :
  weighted_vote [] im = Raise (ValueError "max() arg is an empty sequence") /\
  (forall rule_list,
     Exists (fun r => antecedent r = []) rule_list ->
     weighted_vote rule_list im
     = Raise (ValueError "min() arg is an empty sequence")) /\
  (forall rule_list,
     (exists conse, weighted_vote rule_list im = Ok conse)
     <-> rule_list <> [] /\ Forall (fun r => antecedent r <> []) rule_list).
Proof.
  split; [reflexivity|].
  assert (Hraise : forall rule_list,
            Exists (fun r => antecedent r = []) rule_list ->
            weighted_vote rule_list im
            = Raise (ValueError "min() arg is an empty sequence")).
  { intros rule_list Hex. unfold weighted_vote.
    now rewrite vote_loop_raises. }
  split; [exact Hraise|].
  intros rule_list. split.
  - intros [conse E]. split.
    + intros ->. discriminate.
    + apply Forall_forall. intros r Hr Hempty.
      rewrite Hraise in E; [discriminate|].
      apply Exists_exists. eauto.
  - intros [Hne Hall]. unfold weighted_vote.
    destruct (vote_fold im rule_list Dict.empty Hall) as (d' & E & _ & Hkeys).
    cbv zeta in E. rewrite E. cbn [bind].
    destruct (py_max_spec (getd d') (Dict.keys d')) as (c & _ & _ & Ec & _).
    + rewrite Hkeys. destruct rule_list as [|r l]; [contradiction|].
      cbn [map first_seen filter Dict.keys Dict.empty app Dict.mem Dict.get negb].
      discriminate.
    + eauto.
Qed.

(** ** [map_rule_variables]: unknown names, and mapping onto the same sets *)

Lemma Dict_set_In_inv {V : Type} (d : Dict.t V) k v kv :
  In kv (Dict.set d k v) -> In kv d \/ kv = (k, v).
Proof.
  induction d as [|[k' v'] d IH]; cbn [Dict.set].
  - intros [<-|[]]. now right.
  - destruct (String.eqb_spec k' k) as [->|Hne].
    + intros [<-|H]; [now right|left; simpl; auto].
    + intros [<-|H]; [left; simpl; auto|].
      destruct (IH H) as [H'|H']; [left; simpl; auto|now right].
Qed.

Lemma Dict_update_In_inv {V : Type} (entries : list (string * V)) :
  forall (d : Dict.t V) kv,
    In kv (Dict.update d entries) -> In kv d \/ In kv entries.
Proof.
  unfold Dict.update.
  induction entries as [|[k v] entries IH]; intros d kv H; [now left|].
  cbn [fold_left fst snd] in H. apply IH in H. destruct H as [H|H].
  - apply Dict_set_In_inv in H. destruct H as [H| ->]; [now left|].
    right. simpl. auto.
  - right. simpl. auto.
Qed.

Lemma mapM_first_raise {A B : Type} (f : A -> result B) (l : list A) (e : exn) :
  (forall x, In x l -> (exists y, f x = Ok y) \/ f x = Raise e) ->
  Exists (fun x => f x = Raise e) l ->
  mapM f l = Raise e.
Proof.
  induction l as [|x l IH]; intros Hf Hex; [inversion Hex|].
  cbn [mapM].
  destruct (Hf x (or_introl eq_refl)) as [[y Ey]|Ee].
  - rewrite Ey. cbn [bind]. rewrite IH; [reflexivity| |].
    + intros z Hz. apply Hf. simpl. auto.
    + inversion Hex as [? ? H|? ? H]; subst; [congruence|exact H].
  - rewrite Ee. reflexivity.
Qed.

Lemma Forall2_diag {A : Type} (P : A -> A -> Prop) (l : list A) :
  (forall x, In x l -> P x x) -> Forall2 P l l.
Proof.
  induction l as [|x l IH]; intros H; constructor.
  - apply H. simpl. auto.
  - apply IH. intros y Hy. apply H. simpl. auto.
Qed.

Section MapRuleVariablesMore.
Context {FuzzySet : Type}.
Variable fs_name : FuzzySet -> string.
Variable intersection : FuzzySet -> FuzzySet -> R.

Implicit Types (origin dest : list (FuzzyVariable FuzzySet)).

Lemma variables_dict_get origin feat sets :
  Dict.get (variables_dict origin) feat = Some sets ->
  exists fv, In fv origin /\ fv_name fv = feat /\ fuzzy_sets fv = sets.
Proof.
  intros H. apply Dict_get_Some_In in H. unfold variables_dict, dict_of in H.
  apply Dict_update_In_inv in H. destruct H as [[]|H].
  apply in_map_iff in H. destruct H as (fv & E & Hin).
  exists fv. split; [exact Hin|]. split; congruence.
Qed.

Lemma sets_dict_get (sets : list FuzzySet) value fs :
  Dict.get (sets_dict fs_name sets) value = Some fs ->
  In fs sets /\ fs_name fs = value.
Proof.
  intros H. apply Dict_get_Some_In in H. unfold sets_dict, dict_of in H.
  apply Dict_update_In_inv in H. destruct H as [[]|H].
  apply in_map_iff in H. destruct H as (fs' & E & Hin).
  split; congruence.
Qed.

Lemma names_origin_set_dec origin fv :
  names_origin_set fs_name origin fv \/ ~ names_origin_set fs_name origin fv.
Proof.
  unfold names_origin_set.
  destruct (Dict.get (variables_dict origin) (fst fv)) as [origin_feat|] eqn:Eo.
  - destruct (Dict.mem (sets_dict fs_name origin_feat) (snd fv)) eqn:Em.
    + left. eauto.
    + right. intros (x & Hx & Hm). congruence.
  - right. intros (x & Hx & _). discriminate.
Qed.

(** The body of the loop on a pair that names no origin set, and on a pair
    that names one. *)
Lemma map_pair_unknown origin dest feat value :
  (forall name, In name (map fv_name origin) <-> In name (map fv_name dest)) ->
  ~ names_origin_set fs_name origin (feat, value) ->
  (origin_feat <- Dict.item (variables_dict origin) feat ;;
   dest_feat <- Dict.item (variables_dict dest) feat ;;
   origin_fs <- Dict.item (sets_dict fs_name origin_feat) value ;;
   dest_fs <- py_max (fun fs => intersection fs origin_fs) dest_feat ;;
   Ok (feat, fs_name dest_fs))
  = Raise KeyError.
Proof.
  intros Hnames Hno. unfold Dict.item.
  destruct (Dict.get (variables_dict origin) feat) as [origin_feat|] eqn:Eo;
    [|reflexivity].
  cbn [bind].
  destruct (Dict.get (variables_dict dest) feat) as [dest_feat|] eqn:Ed;
    [|reflexivity].
  cbn [bind].
  destruct (Dict.get (sets_dict fs_name origin_feat) value) as [origin_fs|] eqn:Es;
    [|reflexivity].
  exfalso. apply Hno. exists origin_feat. cbn [fst snd].
  split; [exact Eo|]. unfold Dict.mem. now rewrite Es.
Qed.

Lemma map_pair_known origin dest feat value :
  (forall name, In name (map fv_name origin) <-> In name (map fv_name dest)) ->
  Forall (fun fv => fuzzy_sets fv <> []) dest ->
  names_origin_set fs_name origin (feat, value) ->
  exists dest_fs,
    (origin_feat <- Dict.item (variables_dict origin) feat ;;
     dest_feat <- Dict.item (variables_dict dest) feat ;;
     origin_fs <- Dict.item (sets_dict fs_name origin_feat) value ;;
     dest_fs <- py_max (fun fs => intersection fs origin_fs) dest_feat ;;
     Ok (feat, fs_name dest_fs))
    = Ok (feat, fs_name dest_fs).
Proof.
  intros Hnames Hdest (origin_feat & Eo & Em). cbn [fst snd] in *.
  destruct (Dict.get (variables_dict dest) feat) as [dest_feat|] eqn:Ed.
  2:{ exfalso. apply Dict_get_None in Ed. apply Ed.
      apply variables_dict_keys, Hnames, variables_dict_keys.
      apply Dict_mem_In. unfold Dict.mem. now rewrite Eo. }
  unfold Dict.mem in Em.
  destruct (Dict.get (sets_dict fs_name origin_feat) value) as [origin_fs|] eqn:Es;
    [|discriminate].
  destruct (variables_dict_get dest feat dest_feat Ed) as (fv & Hfv & _ & Hsets).
  assert (Hne : dest_feat <> []).
  { rewrite <- Hsets. rewrite Forall_forall in Hdest. now apply Hdest. }
  destruct (map_pair_ok fs_name intersection origin dest feat value
              origin_feat dest_feat origin_fs Eo Ed Es Hne)
    as (dest_fs & E & _).
  exists dest_fs. cbv zeta in E. exact E.
Qed.

(** X18: when origin and destination have the same variable names and every
    destination variable has at least one fuzzy set, [map_rule_variables]
    returns a rule with the same features if every antecedent pair names a
    fuzzy set of the origin variables, and raises [KeyError] if some pair
    does not. *)
Theorem map_rule_variables_key_error (rule : Rule) origin dest :
  (forall name, In name (map fv_name origin) <-> In name (map fv_name dest)) ->
  Forall (fun fv => fuzzy_sets fv <> []) dest ->
  (Forall (names_origin_set fs_name origin) (antecedent rule) ->
   exists new_rule,
     map_rule_variables fs_name intersection rule origin dest = Ok new_rule /\
     map fst (antecedent new_rule) = map fst (antecedent rule))
  /\
  (Exists (fun fv => ~ names_origin_set fs_name origin fv) (antecedent rule) ->
   map_rule_variables fs_name intersection rule origin dest = Raise KeyError).
Proof.
  intros Hnames Hdest.
  assert (Hkeys : same_keys (variables_dict origin) (variables_dict dest) = true)
    by now apply same_names.
  split.
  - intros Hall. unfold map_rule_variables. cbv zeta. rewrite Hkeys. cbn [negb].
    match goal with
    | |- context [mapM ?f (antecedent rule)] =>
        destruct (mapM_total f (antecedent rule)) as [ys Eys]
    end.
    { intros [feat value] Hfv. rewrite Forall_forall in Hall.
      destruct (map_pair_known origin dest feat value Hnames Hdest (Hall _ Hfv))
        as [dest_fs E].
      eexists. exact E. }
    rewrite Eys. cbn [bind]. eexists. split; [reflexivity|].
    cbn [antecedent].
    assert (HF : Forall2 (fun old new : string * string => fst new = fst old)
                   (antecedent rule) ys).
    { eapply Forall2_mapM; [exact Eys|].
      intros [feat value] y Hfv Ey. rewrite Forall_forall in Hall.
      destruct (map_pair_known origin dest feat value Hnames Hdest (Hall _ Hfv))
        as [dest_fs E].
      cbv beta iota in Ey. rewrite E in Ey. apply Ok_inj in Ey.
      now subst y. }
    clear -HF. induction HF as [|x y l l' Hxy _ IH]; [reflexivity|].
    simpl. now rewrite Hxy, IH.
  - intros Hex. unfold map_rule_variables. cbv zeta. rewrite Hkeys. cbn [negb].
    rewrite (mapM_first_raise _ (antecedent rule) KeyError); [reflexivity| |].
    + intros [feat value] Hfv.
      destruct (names_origin_set_dec origin (feat, value)) as [Hk|Hk].
      * left.
        destruct (map_pair_known origin dest feat value Hnames Hdest Hk)
          as [dest_fs E].
        eexists. exact E.
      * right. apply (map_pair_unknown origin dest feat value Hnames Hk).
    + eapply Exists_impl; [|exact Hex].
      intros [feat value] Hk.
      apply (map_pair_unknown origin dest feat value Hnames Hk).
Qed.

(** X19: mapping a rule onto the very variables it is written in gives the
    rule back, provided every antecedent pair names a fuzzy set whose
    intersection with itself is strictly larger than its intersection with
    the sets of other names of the same variable. *)
Theorem map_rule_variables_identity (rule : Rule) origin :
  (forall feat value,
     In (feat, value) (antecedent rule) ->
     exists sets fs,
       Dict.get (variables_dict origin) feat = Some sets /\
       Dict.get (sets_dict fs_name sets) value = Some fs /\
       forall fs', In fs' sets -> fs_name fs' <> value ->
                   intersection fs' fs < intersection fs fs) ->
  map_rule_variables fs_name intersection rule origin origin = Ok rule.
Proof.
  intros Hself.
  assert (Hkeys : same_keys (variables_dict origin) (variables_dict origin) = true).
  { apply same_names. tauto. }
  unfold map_rule_variables. cbv zeta. rewrite Hkeys. cbn [negb].
  match goal with
  | |- context [mapM ?f (antecedent rule)] =>
      assert (E : mapM f (antecedent rule) = Ok (antecedent rule))
  end.
  { apply mapM_Ok. apply Forall2_diag. intros [feat value] Hin.
    destruct (Hself feat value Hin) as (sets & fs & Eo & Es & Hbest).
    destruct (sets_dict_get sets value fs Es) as [Hfs Hname].
    assert (Hne : sets <> []) by (intros ->; inversion Hfs).
    destruct (map_pair_ok fs_name intersection origin origin feat value
                sets sets fs Eo Eo Es Hne) as (dest_fs & E & Hd & Hmax).
    cbv zeta in E. rewrite E. do 2 f_equal.
    destruct (string_dec (fs_name dest_fs) value) as [Heq|Hneq]; [exact Heq|].
    specialize (Hbest dest_fs Hd Hneq). specialize (Hmax fs Hfs). lra. }
  rewrite E. cbn [bind]. destruct rule. reflexivity.
Qed.
End MapRuleVariablesMore.

Lemma map_rule_variables_key_error_witness :
  map_rule_variables (fun fs : string => fs)
    (fun a b => if String.eqb a b then 1 else 0)
    {| antecedent := [("x", "lo"); ("x", "mid")]; consequent := "A"; weight := 1 |}
    [{| fv_name := "x"; fuzzy_sets := ["lo"; "hi"] |}]
    [{| fv_name := "x"; fuzzy_sets := ["hi"; "lo"] |}]
  = Raise KeyError.
Proof.
  apply (proj2 (map_rule_variables_key_error (fun fs : string => fs)
                  (fun a b => if String.eqb a b then 1 else 0)
                  {| antecedent := [("x", "lo"); ("x", "mid")];
                     consequent := "A"; weight := 1 |}
                  [{| fv_name := "x"; fuzzy_sets := ["lo"; "hi"] |}]
                  [{| fv_name := "x"; fuzzy_sets := ["hi"; "lo"] |}]
                  ltac:(simpl; tauto)
                  ltac:(repeat (constructor; [discriminate|]); constructor))).
  apply Exists_cons_tl, Exists_cons_hd.
  intros (origin_feat & Ho & Hm). cbn in Ho.
  apply (f_equal (fun o => match o with Some b => b | None => [] end)) in Ho.
  subst origin_feat. discriminate.
Defined.

Lemma map_rule_variables_identity_witness :
  map_rule_variables (fun fs : string => fs)
    (fun a b => if String.eqb a b then 1 else 0)
    {| antecedent := [("x", "lo")]; consequent := "A"; weight := 1 |}
    [{| fv_name := "x"; fuzzy_sets := ["lo"; "hi"] |}]
    [{| fv_name := "x"; fuzzy_sets := ["lo"; "hi"] |}]
  = Ok {| antecedent := [("x", "lo")]; consequent := "A"; weight := 1 |}.
Proof.
  apply (map_rule_variables_identity (fun fs : string => fs)
           (fun a b => if String.eqb a b then 1 else 0)
           {| antecedent := [("x", "lo")]; consequent := "A"; weight := 1 |}
           [{| fv_name := "x"; fuzzy_sets := ["lo"; "hi"] |}]).
  intros feat value [H|[]].
  apply (f_equal (fun p : string * string => (fst p, snd p))) in H.
  cbn [fst snd] in H.
  assert (Hf : feat = "x") by congruence.
  assert (Hv : value = "lo") by congruence.
  subst feat value.
  exists ["lo"; "hi"], "lo". split; [reflexivity|]. split; [reflexivity|].
  intros fs' [<-|[<-|[]]] Hne.
  - contradiction.
  - cbn. lra.
Defined.

(** ** The two leaf aggregations compared *)

Lemma Dict_keys_set_congr {V W : Type} (d1 : Dict.t V) (d2 : Dict.t W) k v1 v2 :
  Dict.keys d1 = Dict.keys d2 ->
  Dict.keys (Dict.set d1 k v1) = Dict.keys (Dict.set d2 k v2).
Proof.
  intros H. rewrite !Dict_keys_set.
  assert (Hm : Dict.mem d1 k = Dict.mem d2 k).
  { apply eq_true_iff_eq. rewrite !Dict_mem_In, H. reflexivity. }
  rewrite Hm, H. reflexivity.
Qed.

Lemma leaf_fold_keys_congr (op1 op2 : R -> R -> R) (all_classes : list leaf) :
  forall acc1 acc2,
    Dict.keys acc1 = Dict.keys acc2 ->
    Dict.keys (leaf_fold op1 all_classes acc1)
    = Dict.keys (leaf_fold op2 all_classes acc2).
Proof.
  unfold leaf_fold.
  induction all_classes as [|[entries a] ls IH]; intros acc1 acc2 H; [exact H|].
  cbn [fold_left fst snd]. apply IH. clear IH.
  revert acc1 acc2 H.
  induction entries as [|[k w] entries IHe]; intros acc1 acc2 H; [exact H|].
  cbn [fold_left fst snd]. apply IHe. now apply Dict_keys_set_congr.
Qed.

Lemma fold_max_le_sum (l : list R) : forall m s,
  Forall (fun x => 0 <= x) l -> 0 <= m -> m <= s ->
  fold_left Rmax l m <= fold_left Rplus l s.
Proof.
  induction l as [|x l IH]; intros m s Hpos Hm Hms; [exact Hms|].
  inversion Hpos as [|? ? Hx Hl]; subst. cbn [fold_left].
  apply IH; [exact Hl| |].
  - apply Rle_trans with m; [exact Hm|apply Rmax_l].
  - apply Rmax_lub; lra.
Qed.

Lemma leaf_products_nonneg (key : string) (all_classes : list leaf) :
  Forall (fun lf : leaf => 0 <= snd lf /\ Forall (fun kw : string * R => 0 <= snd kw) (fst lf))
         all_classes ->
  Forall (fun x => 0 <= x) (leaf_products key all_classes).
Proof.
  induction 1 as [|[entries a] ls [Ha Hentries] _ IH]; [constructor|].
  unfold leaf_products in *. cbn [flat_map fst snd] in *.
  apply Forall_app. split; [|exact IH].
  destruct (Dict.get entries key) as [w|] eqn:E; [|constructor].
  constructor; [|constructor].
  apply Dict_get_Some_In in E. rewrite Forall_forall in Hentries.
  specialize (Hentries _ E). cbn [snd] in Hentries.
  now apply Rmult_le_pos.
Qed.

(** X20: on leaves whose class mappings are dictionaries, [_aggregated_vote]
    and [_maximum_matching] have the same keys in the same order; no value of
    [_maximum_matching] is negative; and when the class weights and the leaf
    activations are non-negative, the maximum of a class never exceeds its
    aggregated vote. *)
Theorem maximum_below_aggregate (all_classes : list leaf) :
  leaves_wf all_classes ->
  Dict.keys (_aggregated_vote all_classes)
  = Dict.keys (_maximum_matching all_classes) /\
  (forall key, 0 <= getd (_maximum_matching all_classes) key) /\
  (Forall (fun lf : leaf =>
             0 <= snd lf /\ Forall (fun kw : string * R => 0 <= snd kw) (fst lf))
          all_classes ->
   forall key,
     getd (_maximum_matching all_classes) key
     <= getd (_aggregated_vote all_classes) key).
Proof.
  intros Hwf. rewrite aggregated_vote_fold, maximum_matching_fold.
  split; [now apply leaf_fold_keys_congr|]. split.
  - intros key. rewrite leaf_fold_getd by exact Hwf.
    destruct (fold_max_R (leaf_products key all_classes) (getd Dict.empty key))
      as [_ Hall].
    inversion Hall as [|? ? H0 _]; subst. exact H0.
  - intros Hpos key. rewrite !leaf_fold_getd by exact Hwf.
    apply fold_max_le_sum.
    + now apply leaf_products_nonneg.
    + unfold getd. simpl. lra.
    + lra.
Qed.

Lemma maximum_below_aggregate_witness :
  Dict.keys (_aggregated_vote [([("A", 0.2); ("B", 0.8)], 1.0); ([("A", 0.5)], 0.5)])
  = Dict.keys (_maximum_matching
                 [([("A", 0.2); ("B", 0.8)], 1.0); ([("A", 0.5)], 0.5)]) /\
  (forall key,
     0 <= getd (_maximum_matching
                  [([("A", 0.2); ("B", 0.8)], 1.0); ([("A", 0.5)], 0.5)]) key) /\
  (Forall (fun lf : leaf =>
             0 <= snd lf /\ Forall (fun kw : string * R => 0 <= snd kw) (fst lf))
          [([("A", 0.2); ("B", 0.8)], 1.0); ([("A", 0.5)], 0.5)] ->
   forall key,
     getd (_maximum_matching
             [([("A", 0.2); ("B", 0.8)], 1.0); ([("A", 0.5)], 0.5)]) key
     <= getd (_aggregated_vote
                [([("A", 0.2); ("B", 0.8)], 1.0); ([("A", 0.5)], 0.5)]) key).
Proof.
  apply (maximum_below_aggregate
           [([("A", 0.2); ("B", 0.8)], 1.0); ([("A", 0.5)], 0.5)]).
  repeat constructor; simpl; intuition discriminate.
Defined.

Lemma fold_left_perm (op : R -> R -> R) (l l' : list R) :
  (forall a x y, op (op a x) y = op (op a y) x) ->
  Permutation l l' -> forall a, fold_left op l a = fold_left op l' a.
Proof.
  intros Hop. induction 1 as [|x l l' _ IH|x y l|l l' l'' _ IH1 _ IH2]; intros a.
  - reflexivity.
  - cbn [fold_left]. apply IH.
  - cbn [fold_left]. now rewrite Hop.
  - now rewrite IH1.
Qed.

Lemma leaf_products_perm (key : string) (l l' : list leaf) :
  Permutation l l' ->
  Permutation (leaf_products key l) (leaf_products key l').
Proof.
  unfold leaf_products. induction 1 as [| | |? ? ? _ IH1 _ IH2].
  - constructor.
  - cbn [flat_map]. now apply Permutation_app_head.
  - cbn [flat_map]. rewrite !app_assoc. apply Permutation_app_tail.
    apply Permutation_app_comm.
  - now transitivity (flat_map
                        (fun lf : leaf =>
                           match Dict.get (fst lf) key with
                           | Some w => [w * snd lf]
                           | None => []
                           end) l').
Qed.

(** X21: the order of the leaves does not change the maximum: on a
    permutation of a list of leaves, [_maximum_matching] gives every class
    the same value. *)
Theorem votes_leaf_order (all_classes permuted : list leaf) :
  Permutation all_classes permuted ->
  leaves_wf all_classes ->
  forall key,
    getd (_maximum_matching permuted) key
    = getd (_maximum_matching all_classes) key.
Proof.
  intros Hperm Hwf key.
  assert (Hwf' : leaves_wf permuted).
  { unfold leaves_wf in *. eapply Permutation_Forall; eassumption. }
  rewrite !maximum_matching_fold.
  rewrite !leaf_fold_getd by assumption.
  pose proof (leaf_products_perm key all_classes permuted Hperm) as Hp.
  symmetry. apply fold_left_perm; [|exact Hp].
  intros a x y. rewrite <- !Rmax_assoc. f_equal. apply Rmax_comm.
Qed.

Lemma votes_leaf_order_witness :
  getd (_maximum_matching [([("A", 0.5)], 0.5); ([("A", 0.2); ("B", 0.8)], 1.0)]) "A"
  = getd (_maximum_matching
            [([("A", 0.2); ("B", 0.8)], 1.0); ([("A", 0.5)], 0.5)]) "A".
Proof.
  apply (votes_leaf_order
           [([("A", 0.2); ("B", 0.8)], 1.0); ([("A", 0.5)], 0.5)]
           [([("A", 0.5)], 0.5); ([("A", 0.2); ("B", 0.8)], 1.0)]).
  - apply perm_swap.
  - repeat constructor; simpl; intuition discriminate.
Defined.

(** ** Loops that fill a dictionary column by column *)

Lemma foldM_ext {A B : Type} (f g : B -> A -> result B) (l : list A) :
  (forall acc x, In x l -> f acc x = g acc x) ->
  forall acc, foldM f l acc = foldM g l acc.
Proof.
  induction l as [|x l IH]; intros H acc; [reflexivity|].
  cbn [foldM]. rewrite H by (simpl; auto).
  destruct (g acc x) as [acc'|e]; [|reflexivity].
  cbn [bind]. apply IH. intros a y Hy. apply H. simpl. auto.
Qed.

Section DictLoop.
Context {V : Type}.
Variable f : string -> result V.

Local Abbreviation loop_body :=
  (fun (acc : Dict.t V) (column : string) =>
     v <- f column ;; Ok (Dict.set acc column v)).

Lemma dict_loop_update (g : string -> V) (columns : list string) :
  (forall c, In c columns -> f c = Ok (g c)) ->
  forall acc,
    foldM loop_body columns acc
    = Ok (Dict.update acc (map (fun c => (c, g c)) columns)).
Proof.
  induction columns as [|c columns IH]; intros H acc; [reflexivity|].
  cbn [foldM]. rewrite H by (simpl; auto). cbn [bind].
  rewrite IH by (intros x Hx; apply H; simpl; auto).
  reflexivity.
Qed.

Lemma dict_loop_raise (before after : list string) (c : string) (e : exn) :
  (forall x, In x before -> exists v, f x = Ok v) ->
  f c = Raise e ->
  forall acc, foldM loop_body (before ++ c :: after) acc = Raise e.
Proof.
  induction before as [|x before IH]; intros H Hc acc.
  - cbn [app foldM]. rewrite Hc. reflexivity.
  - cbn [app foldM]. destruct (H x (or_introl eq_refl)) as [v Ev].
    rewrite Ev. cbn [bind]. apply IH; [|exact Hc].
    intros y Hy. apply H. simpl. auto.
Qed.

Lemma dict_loop_returns (columns : list string) : forall acc d,
  foldM loop_body columns acc = Ok d ->
  forall c, In c columns -> exists v, f c = Ok v.
Proof.
  induction columns as [|x columns IH]; intros acc d E c Hc; [easy|].
  cbn [foldM] in E. destruct (f x) as [v|e] eqn:Ex; [|discriminate].
  cbn [bind] in E. destruct Hc as [<-|Hc]; [eauto|].
  eapply IH; eassumption.
Qed.

Lemma Dict_get_update_fun (g : string -> V) (columns : list string) :
  forall (d : Dict.t V) c,
    Dict.get (Dict.update d (map (fun c => (c, g c)) columns)) c
    = if in_dec string_dec c columns then Some (g c) else Dict.get d c.
Proof.
  unfold Dict.update.
  induction columns as [|k columns IH]; intros d c; [reflexivity|].
  cbn [map fold_left fst snd]. rewrite IH.
  destruct (in_dec string_dec c columns) as [Hin|Hni];
    destruct (in_dec string_dec c (k :: columns)) as [Hin'|Hni'];
    try reflexivity.
  - exfalso. apply Hni'. simpl. auto.
  - destruct Hin' as [->|Hin']; [apply Dict_get_set_eq|contradiction].
  - apply Dict_get_set_neq. intros ->. apply Hni'. simpl. auto.
Qed.
End DictLoop.

Lemma filter_not_mem_empty {V : Type} (l : list string) :
  filter (fun k => negb (Dict.mem (@Dict.empty V) k)) l = l.
Proof. apply filter_true. Qed.

Lemma first_seen_idem (l : list string) : first_seen (first_seen l) = first_seen l.
Proof.
  assert (H : forall l, NoDup l -> first_seen l = l).
  { clear. induction 1 as [|x l Hni Hnd IH]; [reflexivity|].
    cbn [first_seen]. rewrite IH. f_equal.
    apply forallb_filter_id. apply forallb_forall. intros y Hy.
    apply negb_true_iff, String.eqb_neq. intros ->. contradiction. }
  apply H, first_seen_NoDup.
Qed.

(** What a dictionary filled from the empty one holds. *)
Lemma dict_filled {V : Type} (g : string -> V) (columns : list string) :
  Dict.keys (Dict.update Dict.empty (map (fun c => (c, g c)) columns))
  = first_seen columns /\
  forall c, In c columns ->
    Dict.get (Dict.update Dict.empty (map (fun c => (c, g c)) columns)) c
    = Some (g c).
Proof.
  split.
  - rewrite Dict_update_keys, map_map. cbn [fst Dict.keys Dict.empty map app].
    rewrite map_id. apply filter_not_mem_empty.
  - intros c Hc. rewrite Dict_get_update_fun.
    destruct (in_dec string_dec c columns); [reflexivity|contradiction].
Qed.

(** ** [get_fuzzy_points] *)

(** X22: when [get_fuzzy_points] returns, the dictionary has the listed
    columns as keys, each once and in the order of first occurrence, and maps
    every column to what [get_divisions] returns on its array; a listed column
    missing from the frame raises [KeyError] and an error of [get_divisions]
    is passed on, once the columns before it have gone through. *)
Theorem get_fuzzy_points_columns (df : DataFrame)
    (get_divisions : list R -> nat -> result (list R)) (sets : nat) :
  (forall columns fuzzy_points,
     get_fuzzy_points df get_divisions columns sets = Ok fuzzy_points ->
     Dict.keys fuzzy_points = first_seen columns /\
     forall column, In column columns ->
       exists variable points,
         Dict.get (numerical df) column = Some variable /\
         get_divisions variable sets = Ok points /\
         Dict.get fuzzy_points column = Some points)
  /\
  (forall before column after e,
     Forall (fun c => exists variable points,
                        Dict.get (numerical df) c = Some variable /\
                        get_divisions variable sets = Ok points) before ->
     match Dict.get (numerical df) column with
     | None => e = KeyError
     | Some variable => get_divisions variable sets = Raise e
     end ->
     get_fuzzy_points df get_divisions (before ++ column :: after) sets
     = Raise e).
Proof.
  set (f := fun column =>
              variable <- Dict.item (numerical df) column ;;
              get_divisions variable sets).
  assert (Hext : forall columns acc,
            foldM (fun fuzzy_points column =>
                     variable <- Dict.item (numerical df) column ;;
                     points <- get_divisions variable sets ;;
                     Ok (Dict.set fuzzy_points column points)) columns acc
            = foldM (fun acc column => v <- f column ;; Ok (Dict.set acc column v))
                columns acc).
  { intros columns acc. apply foldM_ext. intros a x _. unfold f.
    destruct (Dict.item (numerical df) x) as [variable|e]; [|reflexivity].
    reflexivity. }
  assert (Hf : forall c v, f c = Ok v ->
            exists variable, Dict.get (numerical df) c = Some variable /\
                             get_divisions variable sets = Ok v).
  { intros c v E. unfold f, Dict.item in E.
    destruct (Dict.get (numerical df) c) as [variable|]; [|discriminate].
    cbn [bind] in E. eauto. }
  split.
  - intros columns fuzzy_points E. unfold get_fuzzy_points in E.
    rewrite Hext in E.
    pose proof (dict_loop_returns f columns _ _ E) as Hall.
    set (g := fun c => match f c with Ok v => v | Raise _ => [] end).
    assert (Hg : forall c, In c columns -> f c = Ok (g c)).
    { intros c Hc. destruct (Hall c Hc) as [v Ev]. unfold g. now rewrite Ev. }
    rewrite (dict_loop_update f g columns Hg) in E. apply Ok_inj in E.
    subst fuzzy_points. destruct (dict_filled g columns) as [Hk Hget].
    split; [exact Hk|]. intros column Hc.
    destruct (Hf column (g column) (Hg column Hc)) as (variable & Hv & Hd).
    exists variable, (g column). auto.
  - intros before column after e Hbefore Hcol. unfold get_fuzzy_points.
    rewrite Hext. apply dict_loop_raise.
    + intros x Hx. rewrite Forall_forall in Hbefore.
      destruct (Hbefore x Hx) as (variable & points & Hv & Hd).
      exists points. unfold f, Dict.item. rewrite Hv. exact Hd.
    + unfold f, Dict.item.
      destruct (Dict.get (numerical df) column) as [variable|];
        [exact Hcol|now subst e].
Qed.

(** ** [get_fuzzy_points_entropy] *)

Lemma fold_min_R (l : list R) : forall x,
  let m := fold_left Rmin l x in
  In m (x :: l) /\ Forall (fun y => m <= y) (x :: l).
Proof.
  induction l as [|y l IH]; intros x; cbn [fold_left].
  - split; [simpl; auto|]. constructor; [lra|constructor].
  - destruct (IH (Rmin x y)) as [Hin Hall]. cbv zeta.
    inversion Hall as [|? ? Hm Hl]; subst. split.
    + destruct Hin as [Hin|Hin]; [|simpl; auto].
      rewrite <- Hin. unfold Rmin. destruct (Rle_dec x y); simpl; auto.
    + pose proof (Rmin_l x y). pose proof (Rmin_r x y).
      constructor; [lra|]. constructor; [lra|exact Hl].
Qed.

Lemma series_min_spec (series : list R) :
  series <> [] ->
  In (series_min series) series /\
  Forall (fun x => series_min series <= x) series.
Proof.
  destruct series as [|x series]; [easy|]. intros _.
  apply (fold_min_R series x).
Qed.

(** X23: on a frame that has the class column and, for every listed column,
    an array of at least two values with as many values as there are class
    labels, a dictionary returned by [get_fuzzy_points_entropy] has the
    listed columns as keys, each once and in the order of first occurrence,
    and maps every column to the breakpoints [fuzzy_partitioning] returned
    for its array from its minimum: a non-decreasing list that starts at that
    minimum. *)
Theorem get_fuzzy_points_entropy_columns (df : DataFrame) (columns : list string)
    (class_name : string) (class_variable : list string)
    (fuzzy_points : Dict.t (list R)) :
  Dict.get (categorical df) class_name = Some class_variable ->
  Forall (fun column =>
            exists variable,
              Dict.get (numerical df) column = Some variable /\
              List.length variable = List.length class_variable /\
              (2 <= List.length variable)%nat) columns ->
  get_fuzzy_points_entropy df columns class_name = Ok fuzzy_points ->
  Dict.keys fuzzy_points = first_seen columns /\
  forall column, In column columns ->
    exists variable points,
      Dict.get (numerical df) column = Some variable /\
      Dict.get fuzzy_points column = Some points /\
      fuzzy_partitioning variable class_variable (series_min variable)
      = Ok points /\
      StronglySorted Rle points /\
      hd_error points = Some (series_min variable).
Proof.
  intros Hclass Hcols E.
  set (f := fun column =>
              variable <- Dict.item (numerical df) column ;;
              fuzzy_partitioning variable class_variable (series_min variable)).
  assert (Hext : forall acc,
            foldM (fun fuzzy_points column =>
                     variable <- Dict.item (numerical df) column ;;
                     class_variable <- Dict.item (categorical df) class_name ;;
                     points <- fuzzy_partitioning variable class_variable
                                 (series_min variable) ;;
                     Ok (Dict.set fuzzy_points column points)) columns acc
            = foldM (fun acc column => v <- f column ;; Ok (Dict.set acc column v))
                columns acc).
  { intros acc. apply foldM_ext. intros a x _. unfold f.
    destruct (Dict.item (numerical df) x) as [variable|e]; [|reflexivity].
    cbn [bind]. unfold Dict.item. rewrite Hclass. reflexivity. }
  unfold get_fuzzy_points_entropy in E. rewrite Hext in E.
  pose proof (dict_loop_returns f columns _ _ E) as Hall.
  set (g := fun c => match f c with Ok v => v | Raise _ => [] end).
  assert (Hg : forall c, In c columns -> f c = Ok (g c)).
  { intros c Hc. destruct (Hall c Hc) as [v Ev]. unfold g. now rewrite Ev. }
  rewrite (dict_loop_update f g columns Hg) in E. apply Ok_inj in E.
  subst fuzzy_points. destruct (dict_filled g columns) as [Hk Hget].
  split; [exact Hk|]. intros column Hc.
  rewrite Forall_forall in Hcols.
  destruct (Hcols column Hc) as (variable & Hv & Hlen & Hn).
  pose proof (Hg column Hc) as Ef. unfold f, Dict.item in Ef.
  rewrite Hv in Ef. cbn [bind] in Ef.
  destruct (series_min_spec variable) as [Hin Hlow].
  { intros ->. simpl in Hn. lia. }
  destruct (partition_returned variable class_variable (series_min variable)
              (g column)) as (Hs & Hh & _); auto.
  { split; [exact Hlen|]. split; [exact Hn|exact Hlow]. }
  exists variable, (g column). rewrite Hget by exact Hc. auto.
Qed.

Lemma get_fuzzy_points_entropy_columns_witness :
  Dict.keys [("x", [0; 10])] = first_seen ["x"; "x"] /\
  forall column, In column ["x"; "x"] ->
    exists variable points,
      Dict.get (numerical
                  {| numerical := [("x", [0; 10; 0])];
                     categorical := [("class", ["A"; "B"; "B"])] |})
               column = Some variable /\
      Dict.get [("x", [0; 10])] column = Some points /\
      fuzzy_partitioning variable ["A"; "B"; "B"] (series_min variable)
      = Ok points /\
      StronglySorted Rle points /\
      hd_error points = Some (series_min variable).
Proof.
  apply (get_fuzzy_points_entropy_columns
           {| numerical := [("x", [0; 10; 0])];
              categorical := [("class", ["A"; "B"; "B"])] |}
           ["x"; "x"] "class" ["A"; "B"; "B"]).
  - reflexivity.
  - repeat constructor; exists [0; 10; 0]; repeat split; simpl; lia.
  - assert (Emin : series_min [0; 10; 0] = 0).
    { cbn [series_min fold_left]. rewrite (Rmin_left 0 10) by lra.
      apply Rmin_left. lra. }
    assert (Ep : fuzzy_partitioning [0; 10; 0] ["A"; "B"; "B"] 0 = Ok [0; 10]).
    { rewrite (partition_no_candidate [0; 10; 0] ["A"; "B"; "B"] 0 10).
      - reflexivity.
      - split; [reflexivity|]. split; [simpl; lia|].
        repeat (constructor; [lra|]). constructor.
      - cbn [array_max fold_left]. f_equal.
        rewrite (Rmax_right 0 10) by lra. apply Rmax_left. lra.
      - repeat (constructor; [auto|]). constructor. }
    unfold get_fuzzy_points_entropy. cbn [foldM numerical categorical].
    unfold Dict.item. cbn [Dict.get String.eqb Ascii.eqb Bool.eqb bind].
    rewrite Emin, Ep. cbn [bind Dict.set Dict.empty String.eqb Ascii.eqb Bool.eqb].
    reflexivity.
Defined.

(** X24: a frame with fewer than two rows cannot be discretized: when the
    first listed column has no value, or one value with one class label,
    [get_fuzzy_points_entropy] raises the [ValueError] of the empty maximum,
    or that of [log2(0)]. *)
Theorem get_fuzzy_points_entropy_small_frame (df : DataFrame)
    (column : string) (columns : list string) (class_name : string)
    (variable : list R) (class_variable : list string) :
  Dict.get (numerical df) column = Some variable ->
  Dict.get (categorical df) class_name = Some class_variable ->
  (variable = [] ->
   get_fuzzy_points_entropy df (column :: columns) class_name
   = Raise (ValueError "zero-size array to reduction operation maximum")) /\
  (forall x c,
     variable = [x] -> class_variable = [c] ->
     get_fuzzy_points_entropy df (column :: columns) class_name
     = Raise (ValueError "math domain error")).
Proof.
  intros Hv Hc. unfold get_fuzzy_points_entropy. cbn [foldM].
  unfold Dict.item. rewrite Hv, Hc. cbn [bind]. split.
  - intros ->. reflexivity.
  - intros x c -> ->. cbn [series_min fold_left].
    rewrite fuzzy_partitioning_single. reflexivity.
Qed.

Lemma get_fuzzy_points_entropy_small_frame_witness :
  get_fuzzy_points_entropy
    {| numerical := [("x", [7])]; categorical := [("class", ["A"])] |}
    ["x"] "class"
  = Raise (ValueError "math domain error").
Proof.
  apply (proj2 (get_fuzzy_points_entropy_small_frame
                  {| numerical := [("x", [7])]; categorical := [("class", ["A"])] |}
                  "x" [] "class" [7] ["A"] eq_refl eq_refl) 7 "A");
    reflexivity.
Defined.

(** ** [get_fuzzy_set_dataframe] *)

Lemma fold_set_update {V : Type} (h : string -> V) (l : list string) :
  forall acc : Dict.t V,
    fold_left (fun element value => Dict.set element value (h value)) l acc
    = Dict.update acc (map (fun v => (v, h v)) l).
Proof.
  unfold Dict.update.
  induction l as [|v l IH]; intros acc; [reflexivity|].
  cbn [fold_left map fst snd]. apply IH.
Qed.

(** The one-hot table of a categorical column. *)
Lemma one_hot_element (series : list string) :
  fold_left (fun element value => Dict.set element value (indicator series value))
    (first_seen series) Dict.empty
  = map (fun v => (v, indicator series v)) (first_seen series).
Proof.
  rewrite fold_set_update. rewrite Dict_update_fresh; [reflexivity|].
  cbn [Dict.keys Dict.empty map app]. rewrite map_map. cbn [fst].
  rewrite map_id. apply first_seen_NoDup.
Qed.

Lemma indicator_nth (series : list string) (value : string) (j : nat) :
  (j < List.length series)%nat ->
  nth j (indicator series value) 0
  = if String.eqb (nth j series value) value then 1 else 0.
Proof.
  intros Hj. unfold indicator.
  rewrite (nth_indep _ 0 ((fun x => if String.eqb x value then 1 else 0) value))
    by now rewrite length_map.
  apply (map_nth (fun x => if String.eqb x value then 1 else 0)).
Qed.

Lemma one_hot_sum (series : list string) (j : nat) :
  (j < List.length series)%nat ->
  degree_sum (map (fun v => (v, indicator series v)) (first_seen series)) j = 1.
Proof.
  intros Hj. unfold degree_sum, Dict.values. rewrite !map_map. cbn [snd].
  set (x := nth j series EmptyString).
  rewrite (map_ext _ (fun v => if String.eqb x v then 1 else 0)).
  - apply Rsum_indicator; [apply first_seen_NoDup|].
    apply first_seen_In. now apply nth_In.
  - intros v. rewrite indicator_nth by exact Hj.
    rewrite (nth_indep series v EmptyString) by exact Hj. fold x.
    reflexivity.
Qed.

(** X25: when [get_fuzzy_set_dataframe] returns, its keys are the listed
    numerical and categorical columns.  A categorical column is mapped to a
    one-hot table: one set per distinct value of the column, in the order of
    first occurrence, holding the 0/1 indicator of the value, so that every
    row has degree 1 in exactly its own value and its degrees sum to 1.  A
    numerical column that is not also listed as categorical is mapped to what
    [gen_fuzzy_set] returns on its array and the breakpoints zipped with the
    labels of the column, the formatted breakpoints when [labels] has none. *)
Theorem get_fuzzy_set_dataframe_tables (format_label : R -> string)
    (df : DataFrame)
    (gen_fuzzy_set : list R -> list division -> result (Dict.t (list R)))
    (fuzzy_points : Dict.t (list R))
    (df_numerical_columns df_categorical_columns : list string)
    (labels : Dict.t (list string)) (fuzzy_set : Dict.t (Dict.t (list R))) :
  get_fuzzy_set_dataframe format_label df gen_fuzzy_set fuzzy_points
    df_numerical_columns df_categorical_columns labels = Ok fuzzy_set ->
  (forall column,
     In column (Dict.keys fuzzy_set)
     <-> In column df_numerical_columns \/ In column df_categorical_columns) /\
  (forall column,
     In column df_categorical_columns ->
     exists series element,
       Dict.get (categorical df) column = Some series /\
       Dict.get fuzzy_set column = Some element /\
       Dict.keys element = first_seen series /\
       (forall value, In value series ->
          Dict.get element value = Some (indicator series value)) /\
       (forall j, (j < List.length series)%nat -> degree_sum element j = 1)) /\
  (forall column,
     In column df_numerical_columns ->
     ~ In column df_categorical_columns ->
     exists variable points table,
       Dict.get (numerical df) column = Some variable /\
       Dict.get fuzzy_points column = Some points /\
       gen_fuzzy_set variable
         (combine (match Dict.get labels column with
                   | Some col_labels => col_labels
                   | None => map format_label points
                   end) points) = Ok table /\
       Dict.get fuzzy_set column = Some table).
Proof.
  intros E. unfold get_fuzzy_set_dataframe in E.
  set (f1 := fun column =>
               col_labels <-
                 (if negb (Dict.mem labels column)
                  then points <- Dict.item fuzzy_points column ;;
                       Ok (map format_label points)
                  else Dict.item labels column) ;;
               variable <- Dict.item (numerical df) column ;;
               points <- Dict.item fuzzy_points column ;;
               gen_fuzzy_set variable (combine col_labels points)).
  set (f2 := fun column =>
               series <- Dict.item (categorical df) column ;;
               Ok (fold_left (fun element value =>
                                Dict.set element value (indicator series value))
                     (first_seen series) Dict.empty)).
  rewrite (foldM_ext _ (fun acc column => v <- f1 column ;; Ok (Dict.set acc column v)))
    in E.
  2:{ intros acc x _. unfold f1.
      destruct (if negb (Dict.mem labels x)
                then points <- Dict.item fuzzy_points x ;;
                     Ok (map format_label points)
                else Dict.item labels x) as [col_labels|e]; [|reflexivity].
      cbn [bind].
      destruct (Dict.item (numerical df) x) as [variable|e]; [|reflexivity].
      cbn [bind].
      destruct (Dict.item fuzzy_points x) as [points|e]; reflexivity. }
  destruct (foldM _ df_numerical_columns Dict.empty) as [numeric|e] eqn:E1;
    [|discriminate].
  cbn [bind] in E.
  rewrite (foldM_ext _ (fun acc column => v <- f2 column ;; Ok (Dict.set acc column v)))
    in E.
  2:{ intros acc x _. unfold f2.
      destruct (Dict.item (categorical df) x) as [series|e]; reflexivity. }
  (* the two loops as updates *)
  set (g1 := fun c => match f1 c with Ok v => v | Raise _ => [] end).
  assert (Hg1 : forall c, In c df_numerical_columns -> f1 c = Ok (g1 c)).
  { intros c Hc.
    destruct (dict_loop_returns f1 _ _ _ E1 c Hc) as [v Ev].
    unfold g1. now rewrite Ev. }
  rewrite (dict_loop_update f1 g1 _ Hg1) in E1. apply Ok_inj in E1.
  set (g2 := fun c => match f2 c with Ok v => v | Raise _ => [] end).
  assert (Hg2 : forall c, In c df_categorical_columns -> f2 c = Ok (g2 c)).
  { intros c Hc.
    destruct (dict_loop_returns f2 _ _ _ E c Hc) as [v Ev].
    unfold g2. now rewrite Ev. }
  rewrite (dict_loop_update f2 g2 _ Hg2) in E. apply Ok_inj in E.
  subst fuzzy_set numeric.
  split; [|split].
  - intros column. rewrite !Dict_update_keys_In, !map_map. cbn [fst].
    rewrite !map_id. cbn [Dict.keys Dict.empty map In]. tauto.
  - intros column Hc. pose proof (Hg2 column Hc) as E2.
    unfold f2, Dict.item in E2.
    destruct (Dict.get (categorical df) column) as [series|] eqn:Es;
      [|discriminate].
    cbn [bind] in E2. apply Ok_inj in E2. rewrite one_hot_element in E2.
    exists series, (g2 column). split; [reflexivity|]. split.
    { rewrite Dict_get_update_fun.
      destruct (in_dec string_dec column df_categorical_columns);
        [reflexivity|contradiction]. }
    rewrite <- E2. split; [|split].
    + unfold Dict.keys. rewrite map_map. cbn [fst]. apply map_id.
    + intros value Hv.
      pose proof (dict_filled (indicator series) (first_seen series)) as [_ Hget].
      rewrite Dict_update_fresh in Hget.
      * cbn [Dict.empty app] in Hget. apply Hget. now apply first_seen_In.
      * cbn [Dict.keys Dict.empty map app]. rewrite map_map. cbn [fst].
        rewrite map_id. apply first_seen_NoDup.
    + intros j Hj. now apply one_hot_sum.
  - intros column Hc Hnc. pose proof (Hg1 column Hc) as E2.
    unfold f1, Dict.item, Dict.mem in E2.
    assert (Hget : Dict.get
                     (Dict.update
                        (Dict.update Dict.empty
                           (map (fun c => (c, g1 c)) df_numerical_columns))
                        (map (fun c => (c, g2 c)) df_categorical_columns)) column
                   = Some (g1 column)).
    { rewrite Dict_get_update_fun.
      destruct (in_dec string_dec column df_categorical_columns); [contradiction|].
      rewrite Dict_get_update_fun.
      destruct (in_dec string_dec column df_numerical_columns);
        [reflexivity|contradiction]. }
    destruct (Dict.get labels column) as [col_labels|] eqn:El; cbn [negb] in E2.
    + cbn [bind] in E2.
      destruct (Dict.get (numerical df) column) as [variable|]; [|discriminate].
      cbn [bind] in E2.
      destruct (Dict.get fuzzy_points column) as [points|]; [|discriminate].
      cbn [bind] in E2. exists variable, points, (g1 column). auto.
    + destruct (Dict.get fuzzy_points column) as [points|]; [|discriminate].
      cbn [bind] in E2.
      destruct (Dict.get (numerical df) column) as [variable|]; [|discriminate].
      cbn [bind] in E2. exists variable, points, (g1 column). auto.
Qed.

Lemma get_fuzzy_set_dataframe_tables_witness :
  (forall column,
     In column (Dict.keys [("c", [("a", indicator ["a"; "b"; "a"] "a");
                                  ("b", indicator ["a"; "b"; "a"] "b")])])
     <-> In column [] \/ In column ["c"]) /\
  (forall column,
     In column ["c"] ->
     exists series element,
       Dict.get (categorical {| numerical := [];
                                categorical := [("c", ["a"; "b"; "a"])] |})
                column = Some series /\
       Dict.get [("c", [("a", indicator ["a"; "b"; "a"] "a");
                        ("b", indicator ["a"; "b"; "a"] "b")])] column
       = Some element /\
       Dict.keys element = first_seen series /\
       (forall value, In value series ->
          Dict.get element value = Some (indicator series value)) /\
       (forall j, (j < List.length series)%nat -> degree_sum element j = 1)) /\
  (forall column,
     In column [] ->
     ~ In column ["c"] ->
     exists variable points table,
       Dict.get (numerical {| numerical := [];
                              categorical := [("c", ["a"; "b"; "a"])] |})
                column = Some variable /\
       Dict.get [] column = Some points /\
       get_fuzzy_triangle variable
         (combine (match Dict.get [] column with
                   | Some col_labels => col_labels
                   | None => map (fun _ : R => "p") points
                   end) points) = Ok table /\
       Dict.get [("c", [("a", indicator ["a"; "b"; "a"] "a");
                        ("b", indicator ["a"; "b"; "a"] "b")])] column
       = Some table).
Proof.
  apply (get_fuzzy_set_dataframe_tables (fun _ : R => "p")
           {| numerical := []; categorical := [("c", ["a"; "b"; "a"])] |}
           get_fuzzy_triangle [] [] ["c"] []).
  reflexivity.
Defined.

(** ** C1: the stopping test at 647 classes, and a run of the test *)





